(** * PrivacyFilter: content privacy detection and anonymization

    A shallow embedding of [src/filters/PrivacyFilter.js] and the
    properties its specification states about it.

    - Texts are [string]s: a character stands for one code unit in the
      range 0..255.  Positions are the JavaScript numbers the code
      computes with ([indexOf] answers -1 for "not found"), so they are
      [Z].
    - The patterns are terms of a small type of regular expressions, run
      by a backtracking matcher with the priorities of the host language
      (alternatives in order, greedy quantifiers), so that the embedding
      evaluates on concrete texts.
    - The analysis object is mutated in place and the redaction may throw:
      the steps of [analyzeContent] are computations over the analysis
      object that end in a value or in an exception, the state reached
      being kept in both cases.
    - The language-model client is a parameter: a function from the
      content to the parsed answer, or to a failure; its lists hold
      strings, or [null].
    - The anonymization map is a finite map from strings to strings. *)

From Stdlib Require Import String Ascii List ZArith Bool Lia Arith Sorted Permutation.
From stdpp Require Import gmap strings.
Import ListNotations.

Local Open Scope string_scope.
Local Open Scope Z_scope.

#[local] Arguments String.append !s1 s2 : simpl nomatch.

(** ** Text primitives of the host language *)

Module Text.

Definition len (s : string) : Z := Z.of_nat (String.length s).

(** Clamp a number into the index range of [s], as [substring] does with
    each of its arguments. *)
Definition clamp (s : string) (z : Z) : nat :=
  Z.to_nat (Z.min (Z.max z 0) (len s)).

(** [s.substring(start, stop)]: both arguments clamped to [0, length],
    and swapped when [start] is the larger one. *)
Definition substring (s : string) (start stop : Z) : string :=
  let a := clamp s start in
  let b := clamp s stop in
  String.substring (Nat.min a b) (Nat.max a b - Nat.min a b) s.

(** [s.substring(start)]: the stop defaults to the length. *)
Definition substring_from (s : string) (start : Z) : string :=
  substring s start (len s).

(** [s.indexOf(pat)]: the index of the first occurrence of [pat] in
    [s], counted from [i] for the text still to search, or -1. *)
Fixpoint indexOf_from (i : Z) (s pat : string) : Z :=
  match s with
  | EmptyString => if String.prefix pat EmptyString then i else -1
  | String _ t => if String.prefix pat s then i else indexOf_from (i + 1) t pat
  end.

Definition indexOf (s pat : string) : Z := indexOf_from 0 s pat.

(** The first [n] characters and what follows them. *)
Fixpoint take (n : nat) (s : string) : string :=
  match n, s with
  | S m, String c t => String c (take m t)
  | _, _ => EmptyString
  end.

Fixpoint drop (n : nat) (s : string) : string :=
  match n, s with
  | S m, String _ t => drop m t
  | _, _ => s
  end.

(** [i] is the first occurrence of [p] in [s]: [p] occurs at [i], and
    at no earlier position. *)
Definition first_occurrence (s p : string) (i : Z) : Prop :=
  exists a b,
    s = a ++ p ++ b /\ i = len a /\
    forall a' b', s = a' ++ p ++ b' -> len a <= len a'.

End Text.

(** ** Regular expressions

    The fragment of the pattern language the filter uses: literals,
    character classes, sequence, alternation, greedy quantifiers and the
    word-boundary assertion.  Groups carry no information for
    [String.prototype.match] with the global flag and are not
    represented. *)

Module Regex.

Inductive cset : Type :=
| CChar (c : ascii)            (* a single member *)
| CRange (lo hi : ascii)       (* lo-hi *)
| CDigit                       (* \d *)
| CWord                        (* \w *)
| CSpace.                      (* \s *)

Inductive regex : Type :=
| REmpty
| RChar (c : ascii)
| RClass (cs : list cset)
| RSeq (r1 r2 : regex)
| RAlt (r1 r2 : regex)
| RRep (min : nat) (max : option nat) (r : regex)   (* greedy {min,max} *)
| RWordB.                                            (* \b *)

Definition code (c : ascii) : nat := nat_of_ascii c.

Definition in_range (lo hi c : ascii) : bool :=
  (code lo <=? code c)%nat && (code c <=? code hi)%nat.

Definition is_digit (c : ascii) : bool := in_range "0" "9" c.
Definition is_upper (c : ascii) : bool := in_range "A" "Z" c.
Definition is_lower (c : ascii) : bool := in_range "a" "z" c.

(** [\w]: the basic word characters. *)
Definition is_word (c : ascii) : bool :=
  is_upper c || is_lower c || is_digit c || Ascii.eqb c "_".

(** [\s]: white space and line terminators below code 256. *)
Definition is_space (c : ascii) : bool :=
  let n := code c in
  ((9 <=? n) && (n <=? 13) || (n =? 32) || (n =? 160))%nat.

Definition to_upper (c : ascii) : ascii :=
  if is_lower c then ascii_of_nat (code c - 32) else c.

Definition to_lower (c : ascii) : ascii :=
  if is_upper c then ascii_of_nat (code c + 32) else c.

(** Membership of a class item.  With the [i] flag two characters are
    the same when their canonical (upper case) forms are: an item has
    [c] when it has [c] in either case.  The items of the filter's
    patterns are ASCII, for which the canonical form is [to_upper]. *)
Definition cset_mem (icase : bool) (x : cset) (c : ascii) : bool :=
  match x with
  | CChar a =>
      Ascii.eqb a c || (icase && Ascii.eqb (to_upper a) (to_upper c))
  | CRange lo hi =>
      in_range lo hi c
      || (icase && (in_range lo hi (to_upper c) || in_range lo hi (to_lower c)))
  | CDigit => is_digit c
  | CWord => is_word c
  | CSpace => is_space c
  end.

Definition class_mem (icase : bool) (cs : list cset) (c : ascii) : bool :=
  existsb (fun x => cset_mem icase x c) cs.

Definition char_mem (icase : bool) (a c : ascii) : bool :=
  cset_mem icase (CChar a) c.

Definition word_at (o : option ascii) : bool :=
  match o with Some c => is_word c | None => false end.

Definition head (s : string) : option ascii :=
  match s with EmptyString => None | String c _ => Some c end.

(** [\b] holds between [prev] and the text [s] that follows. *)
Definition boundary (prev : option ascii) (s : string) : bool :=
  negb (Bool.eqb (word_at prev) (word_at (head s))).

(** The character before the position reached after reading [w]. *)
Fixpoint last_char (prev : option ascii) (w : string) : option ascii :=
  match w with
  | EmptyString => prev
  | String c t => last_char (Some c) t
  end.

Section Matcher.

Variable icase : bool.

(** A continuation is given the state reached (the character just
    read, the text left) and answers with the text left at the end of
    the whole match, or fails. *)
Definition cont : Type := option ascii -> string -> option string.

(** The optional iterations of a quantifier, at most [n] of them:
    greedy, and an iteration that reads nothing is refused. *)
Fixpoint rep_opt (m : option ascii -> string -> cont -> option string)
    (n : nat) (prev : option ascii) (s : string) (k : cont) : option string :=
  match n with
  | O => k prev s
  | S n' =>
      match m prev s (fun p' s' =>
              if (String.length s' <? String.length s)%nat
              then rep_opt m n' p' s' k else None) with
      | Some r => Some r
      | None => k prev s
      end
  end.

(** The mandatory iterations; the optional ones follow, bounded by
    [max - min], or by the length of the text where the quantifier is
    unbounded (each of them reads at least one character). *)
Fixpoint rep_min (m : option ascii -> string -> cont -> option string)
    (min : nat) (extra : option nat) (prev : option ascii) (s : string)
    (k : cont) : option string :=
  match min with
  | O =>
      rep_opt m (match extra with Some e => e | None => String.length s end)
              prev s k
  | S min' => m prev s (fun p' s' => rep_min m min' extra p' s' k)
  end.

(** The backtracking matcher: alternatives in order, quantifiers
    greedy. *)
Fixpoint rmatch (r : regex) (prev : option ascii) (s : string) (k : cont)
    : option string :=
  match r with
  | REmpty => k prev s
  | RChar a =>
      match s with
      | String c t => if char_mem icase a c then k (Some c) t else None
      | EmptyString => None
      end
  | RClass cs =>
      match s with
      | String c t => if class_mem icase cs c then k (Some c) t else None
      | EmptyString => None
      end
  | RSeq r1 r2 => rmatch r1 prev s (fun p' s' => rmatch r2 p' s' k)
  | RAlt r1 r2 =>
      match rmatch r1 prev s k with
      | Some x => Some x
      | None => rmatch r2 prev s k
      end
  | RRep min max r' =>
      match max with
      | Some mx =>
          if (mx <? min)%nat then None
          else rep_min (rmatch r') min (Some (mx - min)%nat) prev s k
      | None => rep_min (rmatch r') min None prev s k
      end
  | RWordB => if boundary prev s then k prev s else None
  end.

(** One attempt at the current position: the text left after the
    match. *)
Definition match_here (r : regex) (prev : option ascii) (s : string)
    : option string :=
  rmatch r prev s (fun _ s' => Some s').

(** The scan of a global match: an attempt at every position from
    left to right; after a match the scan resumes where it ended (one
    further on after an empty match).  [skip] counts the characters
    of the last match still to pass. *)
Fixpoint scan (r : regex) (prev : option ascii) (s : string) (skip : nat)
    : list string :=
  match skip with
  | S n =>
      match s with
      | EmptyString => []
      | String c t => scan r (Some c) t n
      end
  | O =>
      match match_here r prev s with
      | Some s' =>
          let n := (String.length s - String.length s')%nat in
          Text.take n s ::
            match s with
            | EmptyString => []
            | String c t => scan r (Some c) t (Nat.pred n)
            end
      | None =>
          match s with
          | EmptyString => []
          | String c t => scan r (Some c) t O
          end
      end
  end.

End Matcher.

(** A pattern object: the expression and its [i] flag (every pattern
    of the filter has the [g] flag). *)
Record pattern : Type := Pattern { expr : regex; ignoreCase : bool }.

(** [content.match(pattern)] for a global pattern: the matched strings
    in order, or [null] when there is none. *)
Definition String_match (content : string) (p : pattern) : option (list string) :=
  match scan (ignoreCase p) (expr p) None content O with
  | [] => None
  | l => Some l
  end.

(** *** Notation for writing patterns *)

Fixpoint rseq (l : list regex) : regex :=
  match l with
  | [] => REmpty
  | [r] => r
  | r :: l' => RSeq r (rseq l')
  end.

Fixpoint ralt (l : list regex) : regex :=
  match l with
  | [] => RClass []
  | [r] => r
  | r :: l' => RAlt r (ralt l')
  end.

Fixpoint rstr (s : string) : regex :=
  match s with
  | EmptyString => REmpty
  | String c EmptyString => RChar c
  | String c t => RSeq (RChar c) (rstr t)
  end.

Definition opt (r : regex) : regex := RRep 0 (Some 1%nat) r.        (* r?   *)
Definition star (r : regex) : regex := RRep 0 None r.               (* r*   *)
Definition plus (r : regex) : regex := RRep 1 None r.               (* r+   *)
Definition exactly (n : nat) (r : regex) : regex := RRep n (Some n) r.   (* r{n} *)
Definition at_least (n : nat) (r : regex) : regex := RRep n None r. (* r{n,} *)
Definition between (n m : nat) (r : regex) : regex := RRep n (Some m) r. (* r{n,m} *)

Definition d : regex := RClass [CDigit].     (* \d *)
Definition w : regex := RClass [CWord].      (* \w *)
Definition sp : regex := RClass [CSpace].    (* \s *)

(** *** What the expressions denote

    [Matches icase r prev w rest]: read after the character [prev] and
    followed by [rest], the text [w] is in the language of [r]. *)
Inductive Matches (icase : bool)
    : regex -> option ascii -> string -> string -> Prop :=
| M_empty prev rest :
    Matches icase REmpty prev "" rest
| M_char a c prev rest :
    char_mem icase a c = true ->
    Matches icase (RChar a) prev (String c "") rest
| M_class cs c prev rest :
    class_mem icase cs c = true ->
    Matches icase (RClass cs) prev (String c "") rest
| M_seq r1 r2 prev w1 w2 rest :
    Matches icase r1 prev w1 (w2 ++ rest) ->
    Matches icase r2 (last_char prev w1) w2 rest ->
    Matches icase (RSeq r1 r2) prev (w1 ++ w2) rest
| M_alt_l r1 r2 prev w rest :
    Matches icase r1 prev w rest ->
    Matches icase (RAlt r1 r2) prev w rest
| M_alt_r r1 r2 prev w rest :
    Matches icase r2 prev w rest ->
    Matches icase (RAlt r1 r2) prev w rest
| M_rep_stop max r prev rest :
    Matches icase (RRep 0 max r) prev "" rest
| M_rep_iter min max r prev w1 w2 rest :
    max <> Some O ->
    Matches icase r prev w1 (w2 ++ rest) ->
    Matches icase (RRep (Nat.pred min) (option_map Nat.pred max) r)
            (last_char prev w1) w2 rest ->
    Matches icase (RRep min max r) prev (w1 ++ w2) rest
| M_wordb prev rest :
    boundary prev rest = true ->
    Matches icase RWordB prev "" rest.

(** A matcher [m] is sound for [r]: what it answers comes from a text in
    the language of [r] and from the continuation run after it. *)
Definition sound (icase : bool) (r : regex)
    (m : option ascii -> string -> cont -> option string) : Prop :=
  forall prev s k x,
    m prev s k = Some x ->
    exists w rest,
      s = w ++ rest /\ Matches icase r prev w rest /\
      k (last_char prev w) rest = Some x.

(** A matcher [m] is complete for [r]: it answers whenever a text in the
    language of [r] can be read and the continuation answers after it.
    The answer need not come from that text: the matcher takes the first
    way that succeeds. *)
Definition complete (icase : bool) (r : regex)
    (m : option ascii -> string -> cont -> option string) : Prop :=
  forall prev w rest k,
    Matches icase r prev w rest ->
    k (last_char prev w) rest <> None ->
    m prev (w ++ rest) k <> None.

(** A matcher uses its continuation only through what it answers. *)
Definition respects
    (m : option ascii -> string -> cont -> option string) : Prop :=
  forall prev s k k',
    (forall p t, k p t = k' p t) -> m prev s k = m prev s k'.

(** Every character of a text satisfies [f]. *)
Fixpoint all_chars (f : ascii -> bool) (s : string) : bool :=
  match s with
  | EmptyString => true
  | String c t => f c && all_chars f t
  end.

Fixpoint upper (s : string) : string :=
  match s with
  | EmptyString => EmptyString
  | String c t => String (to_upper c) (upper t)
  end.

End Regex.

(** ** The privacy filter *)

Module PrivacyFilter.

Import Regex.

(** *** Values and records *)

(** A value handed over by the language-model oracle: the string the
    schema asks for, or [null], which parsed JSON may hold in its
    place. *)
Inductive jsval : Type :=
| JStr (s : string)
| JNull.

(** [String(v)], the conversion [indexOf] applies to its argument. *)
Definition to_string (v : jsval) : string :=
  match v with JStr s => s | JNull => "null" end.

(** The [type] of a detected issue: the string literals the filter
    stores. *)
Module Ty.
Inductive t : Type :=
| email | phone | ssn | creditCard
| bankAccount | routingNumber | currency
| address | zipCode | coordinates
| ipAddress | apiKey
| personalName | companyName | financialInfo
| location | locationContext | confidentialInfo.

Definition eqb (a b : t) : bool :=
  match a, b with
  | email, email | phone, phone | ssn, ssn | creditCard, creditCard
  | bankAccount, bankAccount | routingNumber, routingNumber
  | currency, currency | address, address | zipCode, zipCode
  | coordinates, coordinates | ipAddress, ipAddress | apiKey, apiKey
  | personalName, personalName | companyName, companyName
  | financialInfo, financialInfo | location, location
  | locationContext, locationContext
  | confidentialInfo, confidentialInfo => true
  | _, _ => false
  end.
End Ty.

Module Issue.
Record t : Type := Build {
  type : Ty.t;
  value : jsval;
  riskLevel : string;
  position : Z;
  detectionMethod : string
}.
End Issue.

Module Analysis.
Record t : Type := Build {
  originalContent : string;
  filteredContent : string;
  detectedIssues : list Issue.t;
  riskLevel : string;
  suggestions : list string;
  anonymizationMap : gmap string string;
  error : option string
}.

Definition push (i : Issue.t) (a : t) : t :=
  Build (originalContent a) (filteredContent a) (detectedIssues a ++ [i])%list
        (riskLevel a) (suggestions a) (anonymizationMap a) (error a).

(** Several pushes, one after the other. *)
Definition pushAll (l : list Issue.t) (a : t) : t :=
  Build (originalContent a) (filteredContent a) (detectedIssues a ++ l)%list
        (riskLevel a) (suggestions a) (anonymizationMap a) (error a).

Definition map_set (k v : string) (a : t) : t :=
  Build (originalContent a) (filteredContent a) (detectedIssues a)
        (riskLevel a) (suggestions a) (<[k:=v]> (anonymizationMap a)) (error a).

Definition set_filteredContent (s : string) (a : t) : t :=
  Build (originalContent a) s (detectedIssues a)
        (riskLevel a) (suggestions a) (anonymizationMap a) (error a).

Definition set_riskLevel (r : string) (a : t) : t :=
  Build (originalContent a) (filteredContent a) (detectedIssues a)
        r (suggestions a) (anonymizationMap a) (error a).

Definition set_suggestions (l : list string) (a : t) : t :=
  Build (originalContent a) (filteredContent a) (detectedIssues a)
        (riskLevel a) l (anonymizationMap a) (error a).

Definition set_error (e : string) (a : t) : t :=
  Build (originalContent a) (filteredContent a) (detectedIssues a)
        (riskLevel a) (suggestions a) (anonymizationMap a) (Some e).
End Analysis.

(** The parsed answer of the oracle: each bucket may be absent. *)
Record aiAnalysis : Type := {
  personalNames : option (list jsval);
  companyNames : option (list jsval);
  financialInfo : option (list jsval);
  locations : option (list jsval);
  confidentialInfo : option (list jsval)
}.

(** The oracle client held by the filter: asked with the content, it
    answers with a parsed assessment, or the request or the parsing of
    its answer fails ([None]). *)
Definition oracle : Type := string -> option aiAnalysis.

(** *** Computations on the analysis object that may throw *)

Inductive outcome (A : Type) : Type :=
| Ok (a : A)
| Throw (e : string).
Arguments Ok {A} a.
Arguments Throw {A} e.

Definition M (A : Type) : Type := Analysis.t -> outcome A * Analysis.t.

Definition ret {A} (x : A) : M A := fun a => (Ok x, a).

Definition bind {A B} (m : M A) (f : A -> M B) : M B :=
  fun a => match m a with
           | (Ok x, a') => f x a'
           | (Throw e, a') => (Throw e, a')
           end.

Definition throw {A} (e : string) : M A := fun a => (Throw e, a).

(** A step that only updates the analysis object. *)
Definition update (f : Analysis.t -> Analysis.t) : M unit :=
  fun a => (Ok tt, f a).

Definition get : M Analysis.t := fun a => (Ok a, a).

(** [x ← m; k] and [m;; k] are the sequencing of these computations. *)
#[global] Instance M_ret : MRet M := @ret.
#[global] Instance M_bind : MBind M := fun A B f m => bind m f.

(** *** Configuration *)

Module patterns.
Definition alnum : list cset :=
  [CRange "A" "Z"; CRange "a" "z"; CRange "0" "9"].
Definition sep : regex := RClass [CChar "-"; CChar "."; CSpace].   (* [-.\s] *)
Definition dash_sp : regex := RClass [CChar "-"; CSpace].          (* [-\s] *)

(* /\b[A-Za-z0-9._%+-]+@[A-Za-z0-9.-]+\.[A-Z|a-z]{2,}\b/gi *)
Definition email : pattern :=
  Pattern (rseq [RWordB;
                 plus (RClass (alnum ++ [CChar "."; CChar "_"; CChar "%"; CChar "+"; CChar "-"]));
                 RChar "@";
                 plus (RClass (alnum ++ [CChar "."; CChar "-"]));
                 RChar ".";
                 at_least 2 (RClass [CRange "A" "Z"; CChar "|"; CRange "a" "z"]);
                 RWordB]) true.

(* /(?:\+?1[-.\s]?)?\(?\d{3}\)?[-.\s]?\d{3}[-.\s]?\d{4}/g *)
Definition phone : pattern :=
  Pattern (rseq [opt (rseq [opt (RChar "+"); RChar "1"; opt sep]);
                 opt (RChar "("); exactly 3 d; opt (RChar ")"); opt sep;
                 exactly 3 d; opt sep; exactly 4 d]) false.

(* /\b\d{3}-\d{2}-\d{4}\b/g *)
Definition ssn : pattern :=
  Pattern (rseq [RWordB; exactly 3 d; RChar "-"; exactly 2 d; RChar "-";
                 exactly 4 d; RWordB]) false.

(* /\b\d{4}[-\s]?\d{4}[-\s]?\d{4}[-\s]?\d{4}\b/g *)
Definition creditCard : pattern :=
  Pattern (rseq [RWordB; exactly 4 d; opt dash_sp; exactly 4 d; opt dash_sp;
                 exactly 4 d; opt dash_sp; exactly 4 d; RWordB]) false.

(* /\b\d{8,17}\b/g *)
Definition bankAccount : pattern :=
  Pattern (rseq [RWordB; between 8 17 d; RWordB]) false.

(* /\b\d{9}\b/g *)
Definition routingNumber : pattern :=
  Pattern (rseq [RWordB; exactly 9 d; RWordB]) false.

(* /\$[\d,]+(?:\.\d{2})?/g *)
Definition currency : pattern :=
  Pattern (rseq [RChar "$"; plus (RClass [CDigit; CChar ","]);
                 opt (rseq [RChar "."; exactly 2 d])]) false.

Definition address_chars : regex :=
  RClass (alnum ++ [CSpace; CChar ","]).                           (* [A-Za-z0-9\s,] *)

(* /\b\d+\s+[A-Za-z0-9\s,]+(?:street|st|avenue|ave|road|rd|drive|dr|lane|ln|boulevard|blvd|way|court|ct|place|pl)(?:\s+[A-Za-z0-9\s,]+)*\b/gi *)
Definition address : pattern :=
  Pattern (rseq [RWordB; plus d; plus sp; plus address_chars;
                 ralt (map rstr ["street"; "st"; "avenue"; "ave"; "road"; "rd";
                                 "drive"; "dr"; "lane"; "ln"; "boulevard"; "blvd";
                                 "way"; "court"; "ct"; "place"; "pl"]);
                 star (rseq [plus sp; plus address_chars]);
                 RWordB]) true.

(* /\b\d{5}(?:-\d{4})?\b/g *)
Definition zipCode : pattern :=
  Pattern (rseq [RWordB; exactly 5 d; opt (rseq [RChar "-"; exactly 4 d]);
                 RWordB]) false.

(* /\b-?\d{1,3}\.\d+,\s*-?\d{1,3}\.\d+\b/g *)
Definition coordinates : pattern :=
  Pattern (rseq [RWordB; opt (RChar "-"); between 1 3 d; RChar "."; plus d;
                 RChar ","; star sp; opt (RChar "-"); between 1 3 d; RChar ".";
                 plus d; RWordB]) false.

(* /\b(?:\d{1,3}\.){3}\d{1,3}\b/g *)
Definition ipAddress : pattern :=
  Pattern (rseq [RWordB; exactly 3 (rseq [between 1 3 d; RChar "."]);
                 between 1 3 d; RWordB]) false.

(* /\b[A-Za-z0-9]{20,}\b/g *)
Definition apiKey : pattern :=
  Pattern (rseq [RWordB; at_least 20 (RClass alnum); RWordB]) false.

(* /\b[A-Z][a-z]+ [A-Z][a-z]+\b/g *)
Definition possibleNames : pattern :=
  Pattern (rseq [RWordB; RClass [CRange "A" "Z"]; plus (RClass [CRange "a" "z"]);
                 RChar " "; RClass [CRange "A" "Z"]; plus (RClass [CRange "a" "z"]);
                 RWordB]) false.
End patterns.

Definition companyIndicators : list string :=
  ["Inc"; "LLC"; "Corp"; "Corporation"; "Company"; "Co"; "Ltd"; "Limited";
   "Partners"; "Associates"; "Group"; "Holdings"; "Enterprises"; "Solutions";
   "Technologies"; "Tech"; "Systems"; "Services"; "Consulting"].

Module riskLevels.
Definition HIGH : string := "high".
Definition MEDIUM : string := "medium".
Definition LOW : string := "low".
End riskLevels.

(** *** Pattern-based detection *)

Definition detectAndAdd (content : string) (pattern : pattern) (type : Ty.t)
    (riskLevel : string) (analysis : Analysis.t) : Analysis.t :=
  match String_match content pattern with
  | Some matches =>
      fold_left
        (fun a m =>
           Analysis.push
             (Issue.Build type (JStr m) riskLevel (Text.indexOf content m) "pattern") a)
        matches analysis
  | None => analysis
  end.

(* new RegExp(`\\b\\w+\\s+(${this.companyIndicators.join('|')})\\b`, 'gi') *)
Definition companyPattern : pattern :=
  Pattern (rseq [RWordB; plus w; plus sp; ralt (map rstr companyIndicators);
                 RWordB]) true.

Definition detectCompanyNames (content : string) (analysis : Analysis.t)
    : Analysis.t :=
  match String_match content companyPattern with
  | Some matches =>
      fold_left
        (fun a m =>
           Analysis.push
             (Issue.Build Ty.companyName (JStr m) "MEDIUM" (Text.indexOf content m)
                          "pattern") a)
        matches analysis
  | None => analysis
  end.

(* \b(located|based|office|headquarters|building)\s+(at|in|near)\s+[A-Z][a-z]+(?:\s+[A-Z][a-z]+)*\b, 'gi' *)
Definition locationPattern : pattern :=
  let capitalized := rseq [RClass [CRange "A" "Z"]; plus (RClass [CRange "a" "z"])] in
  Pattern (rseq [RWordB;
                 ralt (map rstr ["located"; "based"; "office"; "headquarters"; "building"]);
                 plus sp;
                 ralt (map rstr ["at"; "in"; "near"]);
                 plus sp;
                 capitalized;
                 star (rseq [plus sp; capitalized]);
                 RWordB]) true.

Definition detectLocationContext (content : string) (analysis : Analysis.t)
    : Analysis.t :=
  match String_match content locationPattern with
  | Some matches =>
      fold_left
        (fun a m =>
           Analysis.push
             (Issue.Build Ty.locationContext (JStr m) "MEDIUM"
                          (Text.indexOf content m) "pattern") a)
        matches analysis
  | None => analysis
  end.

Definition detectPatternBasedIssues (content : string) (analysis : Analysis.t)
    : Analysis.t :=
  (* Personal Information Detection *)
  let analysis := detectAndAdd content patterns.email Ty.email "HIGH" analysis in
  let analysis := detectAndAdd content patterns.phone Ty.phone "HIGH" analysis in
  let analysis := detectAndAdd content patterns.ssn Ty.ssn "HIGH" analysis in
  let analysis := detectAndAdd content patterns.creditCard Ty.creditCard "HIGH" analysis in
  (* Financial Data Detection *)
  let analysis := detectAndAdd content patterns.bankAccount Ty.bankAccount "HIGH" analysis in
  let analysis := detectAndAdd content patterns.routingNumber Ty.routingNumber "HIGH" analysis in
  let analysis := detectAndAdd content patterns.currency Ty.currency "MEDIUM" analysis in
  (* Location Data Detection *)
  let analysis := detectAndAdd content patterns.address Ty.address "MEDIUM" analysis in
  let analysis := detectAndAdd content patterns.zipCode Ty.zipCode "MEDIUM" analysis in
  let analysis := detectAndAdd content patterns.coordinates Ty.coordinates "HIGH" analysis in
  (* Technical Identifiers *)
  let analysis := detectAndAdd content patterns.ipAddress Ty.ipAddress "MEDIUM" analysis in
  let analysis := detectAndAdd content patterns.apiKey Ty.apiKey "HIGH" analysis in
  (* Company Names Detection *)
  let analysis := detectCompanyNames content analysis in
  (* Location Context Detection *)
  detectLocationContext content analysis.

(** *** Findings of the oracle *)

(** One [if (bucket) bucket.forEach(...)] block of [addAIDetectedIssues]. *)
Definition addBucket (bucket : option (list jsval)) (type : Ty.t)
    (riskLevel : string) (analysis : Analysis.t) : Analysis.t :=
  match bucket with
  | Some items =>
      fold_left
        (fun a item =>
           Analysis.push
             (Issue.Build type item riskLevel
                (Text.indexOf (Analysis.originalContent a) (to_string item)) "ai") a)
        items analysis
  | None => analysis
  end.

Definition addAIDetectedIssues (ai : aiAnalysis) (analysis : Analysis.t)
    : Analysis.t :=
  let analysis := addBucket (personalNames ai) Ty.personalName "HIGH" analysis in
  let analysis := addBucket (companyNames ai) Ty.companyName "MEDIUM" analysis in
  let analysis := addBucket (financialInfo ai) Ty.financialInfo "HIGH" analysis in
  let analysis := addBucket (locations ai) Ty.location "MEDIUM" analysis in
  addBucket (confidentialInfo ai) Ty.confidentialInfo "HIGH" analysis.

(** The request, the parsing of the answer and the adapter run inside
    one [try]; a failure is logged and leaves the analysis as it was. *)
Definition detectAIBasedIssues (openai : oracle) (content : string)
    (analysis : Analysis.t) : Analysis.t :=
  match openai content with
  | Some ai => addAIDetectedIssues ai analysis
  | None => analysis
  end.

(** *** Redaction *)

Definition replacements (type : Ty.t) : option string :=
  Some match type with
       | Ty.email => "[EMAIL_REDACTED]"
       | Ty.phone => "[PHONE_REDACTED]"
       | Ty.ssn => "[SSN_REDACTED]"
       | Ty.creditCard => "[CARD_REDACTED]"
       | Ty.bankAccount => "[ACCOUNT_REDACTED]"
       | Ty.routingNumber => "[ROUTING_REDACTED]"
       | Ty.currency => "[AMOUNT_REDACTED]"
       | Ty.address => "[ADDRESS_REDACTED]"
       | Ty.zipCode => "[ZIP_REDACTED]"
       | Ty.coordinates => "[COORDINATES_REDACTED]"
       | Ty.ipAddress => "[IP_REDACTED]"
       | Ty.apiKey => "[API_KEY_REDACTED]"
       | Ty.personalName => "[NAME_REDACTED]"
       | Ty.companyName => "[COMPANY_REDACTED]"
       | Ty.financialInfo => "[FINANCIAL_INFO_REDACTED]"
       | Ty.location => "[LOCATION_REDACTED]"
       | Ty.locationContext => "[LOCATION_CONTEXT_REDACTED]"
       | Ty.confidentialInfo => "[CONFIDENTIAL_REDACTED]"
       end.

(* replacements[issue.type] || '[REDACTED]' *)
Definition getReplacementText (issue : Issue.t) : string :=
  match replacements (Issue.type issue) with
  | Some r => r
  | None => "[REDACTED]"
  end.

(** [Array.prototype.sort] with a comparison function: a stable sort;
    [x] goes before [y] when [compareFn x y <= 0] and [x] came first. *)
Fixpoint sort_insert {A} (compareFn : A -> A -> Z) (x : A) (l : list A) : list A :=
  match l with
  | [] => [x]
  | y :: l' =>
      if compareFn x y <=? 0 then x :: l else y :: sort_insert compareFn x l'
  end.

Definition Array_sort {A} (compareFn : A -> A -> Z) (l : list A) : list A :=
  fold_right (sort_insert compareFn) [] l.

(* (a, b) => b.position - a.position *)
Definition byPositionDesc (a b : Issue.t) : Z :=
  Issue.position b - Issue.position a.

(** The body of the [forEach] over the sorted issues.  Reading
    [issue.value.length] of a [null] value is a [TypeError]: it is
    raised before the text or the map is changed. *)
Fixpoint applyFilters_forEach (sortedIssues : list Issue.t)
    (filteredContent : string) : M string :=
  match sortedIssues with
  | [] => ret filteredContent
  | issue :: rest =>
      if 0 <=? Issue.position issue then
        let replacement := getReplacementText issue in
        match Issue.value issue with
        | JStr v =>
            let filteredContent :=
              Text.substring filteredContent 0 (Issue.position issue)
              ++ replacement
              ++ Text.substring_from filteredContent
                   (Issue.position issue + Text.len v) in
            update (Analysis.map_set v replacement);;
            applyFilters_forEach rest filteredContent
        | JNull => throw "TypeError: Cannot read properties of null (reading 'length')"
        end
      else applyFilters_forEach rest filteredContent
  end.

Definition applyFilters (content : string) : M string :=
  analysis ← get;
  let sortedIssues := Array_sort byPositionDesc (Analysis.detectedIssues analysis) in
  applyFilters_forEach sortedIssues content.

(** *** Risk level *)

Definition calculateRiskLevel (detectedIssues : list Issue.t) : string :=
  let highRiskCount :=
    length (List.filter (fun issue => String.eqb (Issue.riskLevel issue) "HIGH") detectedIssues) in
  let mediumRiskCount :=
    length (List.filter (fun issue => String.eqb (Issue.riskLevel issue) "MEDIUM") detectedIssues) in
  if (0 <? highRiskCount)%nat then riskLevels.HIGH
  else if (1 <? mediumRiskCount)%nat then riskLevels.HIGH
  else if (0 <? mediumRiskCount)%nat then riskLevels.MEDIUM
  else riskLevels.LOW.

(** *** Suggestions *)

(** [[...new Set(l)]]: the members of [l] in the order they are first
    seen. *)
Fixpoint unique_from {A} (eqb : A -> A -> bool) (seen l : list A) : list A :=
  match l with
  | [] => []
  | x :: t =>
      if existsb (eqb x) seen then unique_from eqb seen t
      else x :: unique_from eqb (x :: seen) t
  end.

Definition unique {A} (eqb : A -> A -> bool) (l : list A) : list A :=
  unique_from eqb [] l.

Definition suggestionMap (type : Ty.t) : option string :=
  match type with
  | Ty.email => Some "Consider using a generic contact form instead of exposing email addresses"
  | Ty.phone => Some "Use a business phone number or contact form instead of personal numbers"
  | Ty.ssn => Some "Never share Social Security Numbers publicly"
  | Ty.creditCard => Some "Remove all payment card information from public posts"
  | Ty.bankAccount => Some "Banking details should never be shared publicly"
  | Ty.personalName => Some "Consider using first names only or role titles instead of full names"
  | Ty.companyName => Some "Evaluate if specific company names need to be mentioned publicly"
  | Ty.financialInfo => Some "Remove specific financial figures or use ranges instead"
  | Ty.location => Some "Consider using city/state instead of specific addresses"
  | Ty.address => Some "Use general location references instead of specific addresses"
  | Ty.confidentialInfo => Some "Remove any internal or confidential project information"
  | Ty.coordinates => Some "Remove GPS coordinates and location data"
  | Ty.ipAddress => Some "Remove IP addresses and technical identifiers"
  | Ty.apiKey => Some "Never expose API keys or authentication tokens"
  | _ => None
  end.

Definition highRiskWarnings : list string :=
  ["HIGH RISK: This content contains sensitive information that should not be posted publicly";
   "Consider rewriting the content to remove all personal identifiers"].

Definition mediumRiskWarnings : list string :=
  ["MEDIUM RISK: Review the content for potentially sensitive information";
   "Consider using more general terms instead of specific details"].

(** The pushes of the [issueTypes.forEach]. *)
Fixpoint adviceFor (issueTypes : list Ty.t) : list string :=
  match issueTypes with
  | [] => []
  | type :: rest =>
      match suggestionMap type with
      | Some s => s :: adviceFor rest
      | None => adviceFor rest
      end
  end.

Definition generateSuggestions (analysis : Analysis.t) : list string :=
  let issueTypes := unique Ty.eqb (map Issue.type (Analysis.detectedIssues analysis)) in
  let suggestions := adviceFor issueTypes in
  let suggestions :=
    if String.eqb (Analysis.riskLevel analysis) riskLevels.HIGH
    then (suggestions ++ highRiskWarnings)%list
    else if String.eqb (Analysis.riskLevel analysis) riskLevels.MEDIUM
    then (suggestions ++ mediumRiskWarnings)%list
    else suggestions in
  unique String.eqb suggestions.

(** *** The facade *)

Definition newAnalysis (content : string) : Analysis.t :=
  Analysis.Build content content [] riskLevels.LOW [] ∅ None.

(** The [try] block of [analyzeContent]; [openai] is the client held by
    the filter, [None] when it is not configured. *)
Definition analyzeContent_try (openai : option oracle) (content : string)
    : M unit :=
  (* Step 1: Pattern-based detection *)
  update (detectPatternBasedIssues content);;
  (* Step 2: AI-powered analysis (if available) *)
  match openai with
  | Some o => update (detectAIBasedIssues o content)
  | None => ret tt
  end;;
  (* Step 3: Apply filters and anonymization *)
  filtered ← applyFilters content;
  update (Analysis.set_filteredContent filtered);;
  (* Step 4: Calculate overall risk level *)
  analysis ← get;
  update (Analysis.set_riskLevel
            (calculateRiskLevel (Analysis.detectedIssues analysis)));;
  (* Step 5: Generate suggestions *)
  analysis ← get;
  update (Analysis.set_suggestions (generateSuggestions analysis)).

Definition analyzeContent (openai : option oracle) (content : string)
    : Analysis.t :=
  match analyzeContent_try openai content (newAnalysis content) with
  | (Ok _, analysis) => analysis
  | (Throw _, analysis) =>
      (* { ...analysis, error: 'Privacy analysis failed', riskLevel: HIGH } *)
      Analysis.set_riskLevel riskLevels.HIGH
        (Analysis.set_error "Privacy analysis failed" analysis)
  end.

Record options : Type := {
  enablePrivacyFilter : option bool;
  forcePrivacyFilter : option bool
}.

Module FilterResult.
Record t : Type := Build {
  filteredContent : string;
  privacyAnalysis : option Analysis.t;
  privacyFilterEnabled : bool
}.
End FilterResult.

Definition truthy (o : option bool) : bool :=
  match o with Some b => b | None => false end.

(** [ENABLE_PRIVACY_FILTER] is the value of the environment variable,
    [None] when it is not set. *)
Definition filterContent (ENABLE_PRIVACY_FILTER : option string)
    (openai : option oracle) (content : string) (options : options)
    : FilterResult.t :=
  let enablePrivacyFilter :=
    (* options.enablePrivacyFilter !== false *)
    negb (match enablePrivacyFilter options with Some false => true | _ => false end)
    && ((match ENABLE_PRIVACY_FILTER with
         | Some v => String.eqb v "true"
         | None => false
         end)
        || truthy (forcePrivacyFilter options)) in
  if negb enablePrivacyFilter then
    FilterResult.Build content None false
  else
    let analysis := analyzeContent openai content in
    FilterResult.Build (Analysis.filteredContent analysis) (Some analysis) true.

Definition isContentSafe (openai : option oracle) (content : string) : bool :=
  String.eqb (Analysis.riskLevel (analyzeContent openai content)) riskLevels.LOW.

(** One entry of the list [getAnonymizationSuggestions] returns: the
    matched value is left out. *)
Module IssueSummary.
Record t : Type := Build {
  type : Ty.t;
  riskLevel : string;
  suggestion : string
}.
End IssueSummary.

Module Suggestions.
Record t : Type := Build {
  riskLevel : string;
  suggestions : list string;
  detectedIssues : list IssueSummary.t
}.
End Suggestions.

Definition getAnonymizationSuggestions (openai : option oracle) (content : string)
    : Suggestions.t :=
  let analysis := analyzeContent openai content in
  Suggestions.Build
    (Analysis.riskLevel analysis)
    (Analysis.suggestions analysis)
    (map (fun issue =>
            IssueSummary.Build (Issue.type issue) (Issue.riskLevel issue)
                               (getReplacementText issue))
         (Analysis.detectedIssues analysis)).

End PrivacyFilter.

(** ** The content processor

    [src/processors/ContentProcessor.js], which runs the filter before it
    adapts a text: the key under which an adaptation is cached. *)

Module ContentProcessor.

(** [ToInt32]: the signed 32-bit integer congruent to a number. *)
Definition toInt32 (z : Z) : Z := (z + 2 ^ 31) mod 2 ^ 32 - 2 ^ 31.

(** [a << n] and [a & b] on numbers. *)
Definition shl (a n : Z) : Z := toInt32 (Z.shiftl (toInt32 a) n).

Definition band (a b : Z) : Z := Z.land (toInt32 a) (toInt32 b).

Definition charCode (c : ascii) : Z := Z.of_nat (nat_of_ascii c).

(** The digit of [d] in base 16, lower case. *)
Definition hexDigit (d : Z) : ascii :=
  match String.get (Z.to_nat d) "0123456789abcdef" with
  | Some c => c
  | None => "0"%char
  end.

(** [n.toString(16)] for an integer that is not negative: the digits of
    [n] before [acc], the most significant first; [fuel] bounds their
    number. *)
Fixpoint toString16_digits (fuel : nat) (n : Z) (acc : string) : string :=
  match fuel with
  | O => acc
  | S fuel' =>
      let acc := String (hexDigit (n mod 16)) acc in
      if n / 16 =? 0 then acc else toString16_digits fuel' (n / 16) acc
  end.

Definition toString16 (n : Z) : string :=
  toString16_digits (S (Z.to_nat (Z.log2 n))) n "".

(** The [for] loop of [hashContent] over the characters left. *)
Fixpoint hashContent_loop (content : string) (hash : Z) : Z :=
  match content with
  | EmptyString => hash
  | String c rest =>
      let char := charCode c in
      let hash := (shl hash 5 - hash) + char in
      let hash := band hash hash in   (* Convert to 32-bit integer *)
      hashContent_loop rest hash
  end.

Definition hashContent (content : string) : string :=
  let hash := hashContent_loop content 0 in
  Text.substring (toString16 (Z.abs hash)) 0 8.

(** The object parsed from the answer of the language model, as far as
    [validateContent] reads it: each field is absent or holds a value of
    the type the prompt asks for. *)
Module Adapted.
Record t : Type := Build {
  text : option string;
  hashtags : option (list string);
  callToAction : option string;
  estimatedEngagement : option string
}.
End Adapted.

(** What [table[key]] gives for an object literal [table]: the number of
    an own key, a function or an object for a name the literal inherits
    from [Object.prototype], or [undefined]. *)
Inductive property : Type :=
| Own (n : Z)
| Inherited
| Undefined.

Section Validate.

(** The names every object inherits, a fact of the runtime. *)
Variable inherited : string -> bool.

(* const maxLengths = { linkedin: 3000, twitter: 280, medium: 50000 }; maxLengths[platform] *)
Definition maxLengths (platform : string) : property :=
  if String.eqb platform "linkedin" then Own 3000
  else if String.eqb platform "twitter" then Own 280
  else if String.eqb platform "medium" then Own 50000
  else if inherited platform then Inherited
  else Undefined.

(** [maxLengths[platform] || 3000]: a number, or the inherited value,
    which is truthy and no number. *)
Definition maxLength (platform : string) : option Z :=
  match maxLengths platform with
  | Own n => if n =? 0 then Some 3000 else Some n
  | Inherited => None
  | Undefined => Some 3000
  end.

(** A string is truthy when it is not empty. *)
Definition nonempty (o : option string) : option string :=
  match o with
  | Some EmptyString => None
  | _ => o
  end.

Definition orElse {A} (o : option A) (d : A) : A :=
  match o with Some x => x | None => d end.

Definition validateContent (content : Adapted.t) (platform : string) : Adapted.t :=
  let maxLength := maxLength platform in
  let text :=
    match nonempty (Adapted.text content), maxLength with
    | Some t, Some n =>
        (* content.text.length > maxLength; a comparison with what is no
           number is false *)
        if n <? Text.len t
        then Some (Text.substring t 0 (n - 3) ++ "...")
        else Adapted.text content
    | _, _ => Adapted.text content
    end in
  (* Ensure required fields *)
  Adapted.Build
    text
    (Some (orElse (Adapted.hashtags content) ["AI"; "Technology"]))
    (Some (orElse (nonempty (Adapted.callToAction content)) "What are your thoughts?"))
    (Some (orElse (nonempty (Adapted.estimatedEngagement content)) "medium")).

End Validate.

End ContentProcessor.

(** * The specification's notions

    Definitions that follow the words of the specification; the
    properties below compare them with the code. *)

Module Spec.

Import Regex PrivacyFilter.

(** The matches of a pattern, none when [match] answers [null]. *)
Definition matches_of (content : string) (p : pattern) : list string :=
  match String_match content p with
  | Some l => l
  | None => []
  end.

(** The detector registry and the two contextual detectors: pattern,
    category and severity. *)
Definition registry : list (pattern * Ty.t * string) :=
  [(patterns.email, Ty.email, "HIGH");
   (patterns.phone, Ty.phone, "HIGH");
   (patterns.ssn, Ty.ssn, "HIGH");
   (patterns.creditCard, Ty.creditCard, "HIGH");
   (patterns.bankAccount, Ty.bankAccount, "HIGH");
   (patterns.routingNumber, Ty.routingNumber, "HIGH");
   (patterns.currency, Ty.currency, "MEDIUM");
   (patterns.address, Ty.address, "MEDIUM");
   (patterns.zipCode, Ty.zipCode, "MEDIUM");
   (patterns.coordinates, Ty.coordinates, "HIGH");
   (patterns.ipAddress, Ty.ipAddress, "MEDIUM");
   (patterns.apiKey, Ty.apiKey, "HIGH");
   (companyPattern, Ty.companyName, "MEDIUM");
   (locationPattern, Ty.locationContext, "MEDIUM")].

(** The Finding of a detector for the matched string [m]. *)
Definition patternFinding (content : string) (type : Ty.t) (severity : string)
    (m : string) : Issue.t :=
  Issue.Build type (JStr m) severity (Text.indexOf content m) "pattern".

Definition detect (content : string) (entry : pattern * Ty.t * string)
    : list Issue.t :=
  let '(p, type, severity) := entry in
  map (patternFinding content type severity) (matches_of content p).

Definition patternFindings (content : string) : list Issue.t :=
  flat_map (detect content) registry.

(** The buckets of the oracle's answer: category and severity. *)
Definition buckets (ai : aiAnalysis) : list (option (list jsval) * Ty.t * string) :=
  [(personalNames ai, Ty.personalName, "HIGH");
   (companyNames ai, Ty.companyName, "MEDIUM");
   (financialInfo ai, Ty.financialInfo, "HIGH");
   (locations ai, Ty.location, "MEDIUM");
   (confidentialInfo ai, Ty.confidentialInfo, "HIGH")].

Definition aiFinding (content : string) (type : Ty.t) (severity : string)
    (item : jsval) : Issue.t :=
  Issue.Build type item severity (Text.indexOf content (to_string item)) "ai".

Definition adapt (content : string) (bucket : option (list jsval) * Ty.t * string)
    : list Issue.t :=
  let '(items, type, severity) := bucket in
  map (aiFinding content type severity)
      (match items with Some l => l | None => [] end).

Definition aiFindings (content : string) (ai : aiAnalysis) : list Issue.t :=
  flat_map (adapt content) (buckets ai).

(** All the Findings of one analysis, in detection order. *)
Definition findings (openai : option oracle) (content : string) : list Issue.t :=
  (patternFindings content ++
   match openai with
   | Some o =>
       match o content with
       | Some ai => aiFindings content ai
       | None => []
       end
   | None => []
   end)%list.

(** The analysis object when detection is over. *)
Definition detected (openai : option oracle) (content : string) : Analysis.t :=
  Analysis.Build content content (findings openai content) riskLevels.LOW [] ∅ None.

(** The slice [text[offset : offset + len(value)]] of the invariant on
    Findings. *)
Definition slice_at (text : string) (offset : Z) (value : string) : string :=
  Text.substring text offset (offset + Text.len value).

Definition slice_is_value (text : string) (f : Issue.t) : Prop :=
  slice_at text (Issue.position f) (to_string (Issue.value f))
  = to_string (Issue.value f).

(** *** Redaction *)

Definition placeholder (f : Issue.t) : string := getReplacementText f.

(** Findings with offset -1 are not applied. *)
Definition applied (f : Issue.t) : bool := 0 <=? Issue.position f.

(** [text[:offset] + placeholder + text[offset + len(value):]] *)
Definition redactOne (text : string) (f : Issue.t) : string :=
  Text.take (Z.to_nat (Issue.position f)) text
  ++ placeholder f
  ++ Text.drop (Z.to_nat (Issue.position f + Text.len (to_string (Issue.value f)))) text.

(** The replacements of [sorted], in that order, each on the text the
    one before it produced. *)
Definition redact (sorted : list Issue.t) (text : string) : string :=
  fold_left redactOne (List.filter applied sorted) text.

(** [redaction_map[value] = placeholder], in the same order. *)
Definition record (sorted : list Issue.t) (m : gmap string string)
    : gmap string string :=
  fold_left (fun m f => <[to_string (Issue.value f) := placeholder f]> m)
            (List.filter applied sorted) m.

(** Descending offset order. *)
Definition descending (l : list Issue.t) : Prop :=
  StronglySorted (fun f g => Issue.position g <= Issue.position f) l.

Definition has_offset (p : Z) (f : Issue.t) : bool := Issue.position f =? p.

(** The value of every Finding is a string. *)
Definition strings_only (l : list Issue.t) : bool :=
  forallb (fun f => match Issue.value f with JStr _ => true | JNull => false end) l.

Definition with_map (m : gmap string string) (a : Analysis.t) : Analysis.t :=
  Analysis.Build (Analysis.originalContent a) (Analysis.filteredContent a)
    (Analysis.detectedIssues a) (Analysis.riskLevel a) (Analysis.suggestions a)
    m (Analysis.error a).

(** *** Risk *)

Inductive level : Type := HIGH | MEDIUM | LOW.

(** The names under which the filter reports the levels. *)
Definition level_name (l : level) : string :=
  match l with
  | HIGH => riskLevels.HIGH
  | MEDIUM => riskLevels.MEDIUM
  | LOW => riskLevels.LOW
  end.

(** How many Findings have the severity [severity]. *)
Definition count_severity (severity : string) (findings : list Issue.t) : nat :=
  count_occ string_dec (map Issue.riskLevel findings) severity.

(** HIGH if any Finding has severity HIGH; else HIGH if more than one
    has severity MEDIUM; else MEDIUM if exactly one has; else LOW. *)
Definition risk (findings : list Issue.t) : level :=
  if existsb (fun f => String.eqb (Issue.riskLevel f) "HIGH") findings then HIGH
  else if (1 <? count_severity "MEDIUM" findings)%nat then HIGH
  else if (count_severity "MEDIUM" findings =? 1)%nat then MEDIUM
  else LOW.

(** *** The gate of [filterContent] *)

(** The caller's enable flag, true when the caller does not give it. *)
Definition enable_flag (o : options) : bool :=
  match enablePrivacyFilter o with Some b => b | None => true end.

(** The caller's force flag, false when the caller does not give it. *)
Definition force_flag (o : options) : bool :=
  match forcePrivacyFilter o with Some b => b | None => false end.

(** The process-wide flag: the environment variable is set to "true". *)
Definition config_flag (env : option string) : bool :=
  match env with Some v => String.eqb v "true" | None => false end.

(** *** Suggestions *)

(** The distinct categories present in the Findings, first seen first. *)
Definition categories (findings : list Issue.t) : list Ty.t :=
  unique Ty.eqb (map Issue.type findings).

(** The two warnings of a risk level, none for LOW. *)
Definition warnings (riskLevel : string) : list string :=
  if String.eqb riskLevel (level_name HIGH) then highRiskWarnings
  else if String.eqb riskLevel (level_name MEDIUM) then mediumRiskWarnings
  else [].

(** What a category adds to the suggestions: its entry of the table,
    nothing where the table has none. *)
Definition entry_of (type : Ty.t) : list string :=
  match suggestionMap type with
  | Some s => [s]
  | None => []
  end.

(** C7 as stated: an advisory string of the table for each category
    present. *)
Definition advice_for_every_category (a : Analysis.t) : Prop :=
  forall f, In f (Analysis.detectedIssues a) ->
    exists s, suggestionMap (Issue.type f) = Some s /\ In s (generateSuggestions a).

(** *** The organization-name detector *)

Definition starts_capitalized (v : string) : bool :=
  match v with
  | String c _ => is_upper c
  | EmptyString => false
  end.

(** C8 as stated: what the detector reports begins with a capitalized
    word. *)
Definition reports_capitalized_words (content : string) : Prop :=
  forall f,
    In f (Analysis.detectedIssues (detectCompanyNames content (newAnalysis content))) ->
    exists v, Issue.value f = JStr v /\ starts_capitalized v = true.

(** What the detector does report: a word of any case, white space, and
    a suffix of the vocabulary compared without regard to case. *)
Definition company_finding (f : Issue.t) : Prop :=
  Issue.type f = Ty.companyName
  /\ Issue.riskLevel f = "MEDIUM"
  /\ Issue.detectionMethod f = "pattern"
  /\ exists word gap suffix indicator,
       Issue.value f = JStr (word ++ gap ++ suffix)
       /\ word <> "" /\ all_chars is_word word = true
       /\ gap <> "" /\ all_chars is_space gap = true
       /\ In indicator companyIndicators
       /\ upper suffix = upper indicator.

(** A company name lies in a text after [pre] and before [post]: a
    word, white space and a suffix of the vocabulary in any case, the
    word not preceded and the suffix not followed by a word character. *)
Definition company_occurrence (content pre value post : string) : Prop :=
  content = pre ++ value ++ post
  /\ word_at (last_char None pre) = false
  /\ word_at (Regex.head post) = false
  /\ exists word gap suffix indicator,
       value = word ++ gap ++ suffix
       /\ word <> "" /\ all_chars is_word word = true
       /\ gap <> "" /\ all_chars is_space gap = true
       /\ In indicator companyIndicators
       /\ upper suffix = upper indicator.

(** The place after [pre] lies inside a value that was reported from a
    place before it: the global match resumes where a match ends, so what
    starts inside a match is passed over. *)
Definition passed_over (content pre : string) (emitted : list Issue.t) : Prop :=
  exists before m after,
    content = before ++ m ++ after
    /\ In (patternFinding content Ty.companyName "MEDIUM" m) emitted
    /\ (String.length before < String.length pre
        < String.length before + String.length m)%nat.

(** *** The two ways an analysis ends *)

Definition completed (filtered : string) (a : Analysis.t) : Analysis.t :=
  let a := Analysis.set_filteredContent filtered a in
  let a := Analysis.set_riskLevel (calculateRiskLevel (Analysis.detectedIssues a)) a in
  Analysis.set_suggestions (generateSuggestions a) a.

Definition degraded (a : Analysis.t) : Analysis.t :=
  Analysis.set_riskLevel riskLevels.HIGH
    (Analysis.set_error "Privacy analysis failed" a).

(** *** Views of a result *)

Definition types (a : Analysis.t) : list Ty.t :=
  map Issue.type (Analysis.detectedIssues a).

Definition values (a : Analysis.t) : list jsval :=
  map Issue.value (Analysis.detectedIssues a).

(** *** Oracles used as examples *)

(** An oracle that names a person the text does not spell out. *)
Definition paraphrasingOracle : oracle :=
  fun _ => Some {| personalNames := Some [JStr "Bob"]; companyNames := None;
                   financialInfo := None; locations := None;
                   confidentialInfo := None |}.

(** An oracle whose list of names holds a [null]. *)
Definition nullOracle : oracle :=
  fun _ => Some {| personalNames := Some [JNull]; companyNames := None;
                   financialInfo := None; locations := None;
                   confidentialInfo := None |}.

End Spec.

(** * Further notions

    Notions used by the properties of the code that go beyond the
    specification's sentences. *)

Module Notions.

Import Regex PrivacyFilter Spec.

(** A Finding read with its value as text. *)
Definition text_of (f : Issue.t) : string := to_string (Issue.value f).

(** The offset of a Finding is -1, or leaves room for its value in the
    text. *)
Definition in_range_of (content : string) (f : Issue.t) : Prop :=
  Issue.position f = -1
  \/ (0 <= Issue.position f
      /\ Issue.position f + Text.len (text_of f) <= Text.len content).

(** A Finding that makes the redaction throw. *)
Definition null_located (f : Issue.t) : Prop :=
  Issue.value f = JNull /\ 0 <= Issue.position f.

(** The order of the risk levels. *)
Definition rank (riskLevel : string) : nat :=
  if String.eqb riskLevel riskLevels.HIGH then 2
  else if String.eqb riskLevel riskLevels.MEDIUM then 1
  else 0.

(** *** What a pattern can read *)

(** The least number of characters a text of the language has. *)
Fixpoint min_len (r : regex) : nat :=
  match r with
  | REmpty | RWordB => 0
  | RChar _ | RClass _ => 1
  | RSeq r1 r2 => min_len r1 + min_len r2
  | RAlt r1 r2 => Nat.min (min_len r1) (min_len r2)
  | RRep min _ r' => min * min_len r'
  end.

(** The greatest number, where the expression bounds it. *)
Fixpoint max_len (r : regex) : option nat :=
  match r with
  | REmpty | RWordB => Some 0%nat
  | RChar _ | RClass _ => Some 1%nat
  | RSeq r1 r2 =>
      match max_len r1, max_len r2 with
      | Some a, Some b => Some (a + b)%nat
      | _, _ => None
      end
  | RAlt r1 r2 =>
      match max_len r1, max_len r2 with
      | Some a, Some b => Some (Nat.max a b)
      | _, _ => None
      end
  | RRep _ (Some max) r' =>
      match max_len r' with
      | Some a => Some (max * a)%nat
      | None => None
      end
  | RRep _ None _ => None
  end.

Definition all_ascii : list ascii := map ascii_of_nat (seq 0 256).

(** Every character the expression can read satisfies [P]. *)
Fixpoint reads (icase : bool) (P : ascii -> bool) (r : regex) : bool :=
  match r with
  | REmpty | RWordB => true
  | RChar a => forallb (fun c => implb (char_mem icase a c) (P c)) all_ascii
  | RClass cs => forallb (fun c => implb (class_mem icase cs c) (P c)) all_ascii
  | RSeq r1 r2 | RAlt r1 r2 => reads icase P r1 && reads icase P r2
  | RRep _ _ r' => reads icase P r'
  end.

(** A shape: least length, greatest length if any, and alphabet. *)
Definition shape : Type := nat * option nat * (ascii -> bool).

Definition fits (sh : shape) (v : string) : Prop :=
  let '(least, greatest, alphabet) := sh in
  (least <= String.length v)%nat
  /\ match greatest with
     | Some n => (String.length v <= n)%nat
     | None => True
     end
  /\ all_chars alphabet v = true.

(** The pattern reads only texts of the shape. *)
Definition has_shape (p : pattern) (sh : shape) : bool :=
  let '(least, greatest, alphabet) := sh in
  (least <=? min_len (expr p))%nat
  && match greatest with
     | Some n =>
         match max_len (expr p) with
         | Some m => (m <=? n)%nat
         | None => false
         end
     | None => true
     end
  && reads (ignoreCase p) alphabet (expr p).

Definition one_of (s : string) (c : ascii) : bool :=
  existsb (Ascii.eqb c) (list_ascii_of_string s).

Definition is_alnum (c : ascii) : bool := is_upper c || is_lower c || is_digit c.

Definition is_letter (c : ascii) : bool := is_upper c || is_lower c.

(** The shape of the values each detector reports, read off its
    pattern. *)
Definition value_shape (type : Ty.t) : shape :=
  match type with
  | Ty.email => (6, None, fun c => is_alnum c || one_of "._%+-@|" c)
  | Ty.phone => (10, Some 17, fun c => is_digit c || one_of "+()-." c || is_space c)
  | Ty.ssn => (11, Some 11, fun c => is_digit c || one_of "-" c)
  | Ty.creditCard => (16, Some 19, fun c => is_digit c || one_of "-" c || is_space c)
  | Ty.bankAccount => (8, Some 17, is_digit)
  | Ty.routingNumber => (9, Some 9, is_digit)
  | Ty.currency => (2, None, fun c => is_digit c || one_of "$,." c)
  | Ty.address => (5, None, fun c => is_alnum c || one_of "," c || is_space c)
  | Ty.zipCode => (5, Some 10, fun c => is_digit c || one_of "-" c)
  | Ty.coordinates => (7, None, fun c => is_digit c || one_of "-.," c || is_space c)
  | Ty.ipAddress => (7, Some 15, fun c => is_digit c || one_of "." c)
  | Ty.apiKey => (20, None, is_alnum)
  | Ty.companyName => (4, None, fun c => is_word c || is_space c)
  | Ty.locationContext => (11, None, fun c => is_letter c || is_space c)
  | _ => (0, None, fun _ => true)
  end%nat.

(** *** The matches of one pattern in a text *)

(** The text made of stretches of plain text, each followed by a match,
    and a tail. *)
Fixpoint weave (plain matches : list string) (tail : string) : string :=
  match plain, matches with
  | g :: plain', m :: matches' => g ++ m ++ weave plain' matches' tail
  | _, _ => tail
  end.

(** *** The hash of a content *)

(** The polynomial of base 31 over the character codes, from [h]. *)
Fixpoint polynomial (content : string) (h : Z) : Z :=
  match content with
  | EmptyString => h
  | String c rest => polynomial rest (31 * h + ContentProcessor.charCode c)
  end.

Definition hexValue (c : ascii) : Z :=
  let n := Z.of_nat (nat_of_ascii c) in
  if is_digit c then n - 48 else n - 87.

(** The number a numeral of base 16 denotes. *)
Definition hexNumber (s : string) : Z :=
  fold_left (fun v c => 16 * v + hexValue c) (list_ascii_of_string s) 0.

Definition is_hex (c : ascii) : bool := is_digit c || in_range "a" "f" c.

(** *** The limits of the platforms *)

(** The names of [Object.prototype] in the runtime the repository runs
    on. *)
Definition objectPrototypeNames : list string :=
  ["constructor"; "__defineGetter__"; "__defineSetter__"; "hasOwnProperty";
   "__lookupGetter__"; "__lookupSetter__"; "isPrototypeOf";
   "propertyIsEnumerable"; "toString"; "valueOf"; "__proto__";
   "toLocaleString"].

Definition inheritedName (name : string) : bool :=
  existsb (String.eqb name) objectPrototypeNames.

(** The limit [validateContent] enforces for a platform. *)
Definition textLimit (platform : string) : Z :=
  if String.eqb platform "twitter" then 280
  else if String.eqb platform "medium" then 50000
  else 3000.

(** *** A text with located Findings

    A text laid out as stretches of plain text, each followed by the
    value of a Finding, and a tail. *)

Fixpoint original (segments : list (string * Issue.t)) (tail : string) : string :=
  match segments with
  | [] => tail
  | (plain, f) :: rest => plain ++ text_of f ++ original rest tail
  end.

(** The same text with each value replaced by its placeholder. *)
Fixpoint redacted (segments : list (string * Issue.t)) (tail : string) : string :=
  match segments with
  | [] => tail
  | (plain, f) :: rest => plain ++ placeholder f ++ redacted rest tail
  end.

(** Each Finding has a string value that is not empty and, for offset,
    the place of that value in the layout, which starts at [start]. *)
Fixpoint located (start : Z) (segments : list (string * Issue.t)) : Prop :=
  match segments with
  | [] => True
  | (plain, f) :: rest =>
      Issue.position f = start + Text.len plain
      /\ (exists v, Issue.value f = JStr v /\ v <> "")
      /\ located (start + Text.len plain + Text.len (text_of f)) rest
  end.

End Notions.

(** * Properties *)

(** ** Facts about texts *)

Module TextFacts.

Import Text.

Lemma length_app (a b : string) :
  String.length (a ++ b) = (String.length a + String.length b)%nat.
Proof. induction a as [|c a IH]; simpl; [reflexivity | now rewrite IH]. Qed.

Lemma len_app (a b : string) : len (a ++ b) = len a + len b.
Proof. unfold len. rewrite length_app. lia. Qed.

Lemma len_nonneg (s : string) : 0 <= len s.
Proof. unfold len. lia. Qed.

Lemma app_assoc (a b c : string) : (a ++ b) ++ c = a ++ b ++ c.
Proof. induction a as [|x a IH]; simpl; [reflexivity | now rewrite IH]. Qed.

Lemma app_empty_r (a : string) : a ++ "" = a.
Proof. induction a as [|x a IH]; simpl; [reflexivity | now rewrite IH]. Qed.

Lemma take_app (a b : string) : take (String.length a) (a ++ b) = a.
Proof. induction a as [|x a IH]; simpl; [now destruct b | now rewrite IH]. Qed.

Lemma drop_app (a b : string) : drop (String.length a) (a ++ b) = b.
Proof. induction a as [|x a IH]; simpl; [now destruct b | exact IH]. Qed.

Lemma take_drop (n : nat) (s : string) : take n s ++ drop n s = s.
Proof.
  revert s; induction n as [|n IH]; intros [|c s]; simpl; try reflexivity.
  now rewrite IH.
Qed.

Lemma take_length (n : nat) (s : string) :
  String.length (take n s) = Nat.min n (String.length s).
Proof.
  revert s; induction n as [|n IH]; intros [|c s]; simpl; try reflexivity.
  now rewrite IH.
Qed.

Lemma take_all (n : nat) (s : string) :
  (String.length s <= n)%nat -> take n s = s.
Proof.
  revert s; induction n as [|n IH]; intros [|c s]; simpl; intros H;
    try reflexivity; try lia.
  rewrite IH; [reflexivity | lia].
Qed.

Lemma drop_all (n : nat) (s : string) :
  (String.length s <= n)%nat -> drop n s = "".
Proof.
  revert s; induction n as [|n IH]; intros [|c s]; simpl; intros H;
    try reflexivity; try lia.
  apply IH; lia.
Qed.

(** The library's [substring n m] is [take m] after [drop n]. *)
Lemma substring_take_drop (n m : nat) (s : string) :
  String.substring n m s = take m (drop n s).
Proof.
  revert m s; induction n as [|n IH]; intros m s.
  - revert s; induction m as [|m IHm]; intros [|c s]; simpl; try reflexivity.
    now rewrite IHm.
  - destruct s as [|c s]; simpl; [now destruct m | apply IH].
Qed.

(** With a start of 0 and a stop that is not negative, [substring] is a
    prefix; with a start that is not negative, [substring_from] is what
    follows it. *)
Lemma substring_0 (s : string) (p : Z) :
  0 <= p -> substring s 0 p = take (Z.to_nat p) s.
Proof.
  intros Hp. unfold substring, clamp.
  pose proof (len_nonneg s) as Hl.
  replace (Z.to_nat (Z.min (Z.max 0 0) (len s))) with O by lia.
  rewrite Nat.min_0_l, Nat.max_0_l, Nat.sub_0_r, substring_take_drop. simpl.
  destruct (Z_le_gt_dec p (len s)) as [H|H].
  - replace (Z.min (Z.max p 0) (len s)) with p by lia.
    now destruct s.
  - replace (Z.min (Z.max p 0) (len s)) with (len s) by lia.
    unfold len. rewrite Nat2Z.id.
    replace (drop 0 s) with s by now destruct s.
    rewrite !take_all; try reflexivity; unfold len in H; lia.
Qed.

Lemma substring_from_drop (s : string) (q : Z) :
  0 <= q -> substring_from s q = drop (Z.to_nat q) s.
Proof.
  intros Hq. unfold substring_from, substring, clamp.
  pose proof (len_nonneg s) as Hl.
  replace (Z.min (Z.max (len s) 0) (len s)) with (len s) by lia.
  unfold len in *. rewrite Nat2Z.id, substring_take_drop.
  destruct (Z_le_gt_dec q (Z.of_nat (String.length s))) as [H|H].
  - replace (Z.min (Z.max q 0) (Z.of_nat (String.length s))) with q by lia.
    rewrite Nat.min_l, Nat.max_r by lia.
    apply take_all.
    pose proof (take_drop (Z.to_nat q) s) as E.
    apply (f_equal String.length) in E. rewrite length_app, take_length in E. lia.
  - replace (Z.min (Z.max q 0) (Z.of_nat (String.length s)))
      with (Z.of_nat (String.length s)) by lia.
    rewrite Nat2Z.id, Nat.min_id, Nat.max_id, Nat.sub_diag.
    rewrite !drop_all by lia. reflexivity.
Qed.

(** The slice of length [len p] at an occurrence of [p]. *)
Lemma substring_occurrence (a p b : string) :
  substring (a ++ p ++ b) (len a) (len a + len p) = p.
Proof.
  unfold substring, clamp.
  rewrite !len_app.
  pose proof (len_nonneg a); pose proof (len_nonneg p); pose proof (len_nonneg b).
  replace (Z.min (Z.max (len a) 0) (len a + (len p + len b))) with (len a) by lia.
  replace (Z.min (Z.max (len a + len p) 0) (len a + (len p + len b)))
    with (len a + len p) by lia.
  unfold len. rewrite <- Nat2Z.inj_add, !Nat2Z.id.
  rewrite Nat.min_l, Nat.max_r by lia.
  replace (String.length a + String.length p - String.length a)%nat
    with (String.length p) by lia.
  now rewrite substring_take_drop, drop_app, take_app.
Qed.

Lemma prefix_app (p s : string) :
  String.prefix p s = true <-> exists b, s = p ++ b.
Proof.
  revert s; induction p as [|c p IH]; intros s; simpl.
  - split; [intros _; exists s; reflexivity | now destruct s].
  - destruct s as [|c' s]; simpl.
    + split; [discriminate | intros [b Hb]; discriminate].
    + destruct (ascii_dec c c') as [->|Hne].
      * rewrite IH. split; intros [b Hb]; exists b; congruence.
      * split; [discriminate | intros [b Hb]; congruence].
Qed.

Lemma indexOf_from_nil (i : Z) (p : string) :
  indexOf_from i "" p = if String.prefix p "" then i else -1.
Proof. reflexivity. Qed.

Lemma indexOf_from_cons (i : Z) (c : ascii) (s p : string) :
  indexOf_from i (String c s) p =
  if String.prefix p (String c s) then i else indexOf_from (i + 1) s p.
Proof. reflexivity. Qed.

Lemma indexOf_from_spec (s p : string) (i : Z) :
  (indexOf_from i s p = -1 /\ forall a b, s <> a ++ p ++ b)
  \/ (exists n, indexOf_from i s p = i + n /\ first_occurrence s p n).
Proof.
  revert i; induction s as [|c s IH]; intros i.
  - rewrite indexOf_from_nil. destruct (String.prefix p "") eqn:E.
    + right. exists 0. split; [lia|].
      apply prefix_app in E as [b Hb].
      destruct p; [|discriminate].
      exists "", "". repeat split; try reflexivity.
      intros a' b' _. apply len_nonneg.
    + left. split; [reflexivity|]. intros a b Hab.
      destruct a; [|discriminate]. simpl in Hab.
      assert (String.prefix p "" = true) by (apply prefix_app; eauto).
      congruence.
  - rewrite indexOf_from_cons. destruct (String.prefix p (String c s)) eqn:E.
    + right. exists 0. split; [lia|].
      apply prefix_app in E as [b Hb].
      exists "", b. repeat split; try assumption.
      intros a' b' _. apply len_nonneg.
    + destruct (IH (i + 1)) as [[H1 H2]|[n [H1 (a & b & Hs & Hn & Hmin)]]].
      * left. split; [assumption|]. intros a b Hab.
        destruct a as [|x a]; simpl in Hab.
        -- assert (String.prefix p (String c s) = true) by (apply prefix_app; eauto).
           congruence.
        -- injection Hab as _ Hab. exact (H2 _ _ Hab).
      * right. exists (n + 1). split; [lia|].
        exists (String c a), b. repeat split.
        -- simpl. now rewrite Hs.
        -- unfold len in *. simpl String.length. lia.
        -- intros a' b' Hab. destruct a' as [|x a']; simpl in Hab.
           ++ assert (String.prefix p (String c s) = true) by (apply prefix_app; eauto).
              congruence.
           ++ injection Hab as _ Hab. specialize (Hmin _ _ Hab).
              unfold len in *. simpl String.length. lia.
Qed.

(** [indexOf] answers -1 exactly when there is no occurrence, and the
    first occurrence otherwise. *)
Lemma indexOf_spec (s p : string) :
  (indexOf s p = -1 /\ forall a b, s <> a ++ p ++ b)
  \/ first_occurrence s p (indexOf s p).
Proof.
  unfold indexOf. destruct (indexOf_from_spec s p 0) as [[H1 H2]|[n [H1 H2]]].
  - left. split; [lia | assumption].
  - right. now rewrite H1.
Qed.

Lemma first_occurrence_nonneg (s p : string) (i : Z) :
  first_occurrence s p i -> 0 <= i.
Proof. intros (a & b & _ & -> & _). apply len_nonneg. Qed.

Lemma first_occurrence_slice (s p : string) (i : Z) :
  first_occurrence s p i -> substring s i (i + len p) = p.
Proof. intros (a & b & -> & -> & _). apply substring_occurrence. Qed.

Lemma indexOf_nonneg_first (s p : string) :
  0 <= indexOf s p -> first_occurrence s p (indexOf s p).
Proof.
  intros H. destruct (indexOf_spec s p) as [[H1 _]|H1]; [lia | assumption].
Qed.

Lemma indexOf_occurs (a p b : string) :
  first_occurrence (a ++ p ++ b) p (indexOf (a ++ p ++ b) p).
Proof.
  destruct (indexOf_spec (a ++ p ++ b) p) as [[_ H]|H]; [|assumption].
  now elim (H a b).
Qed.

Lemma indexOf_ge_m1 (s p : string) : -1 <= indexOf s p.
Proof.
  destruct (indexOf_spec s p) as [[H _]|H]; [lia|].
  apply first_occurrence_nonneg in H. lia.
Qed.

End TextFacts.

(** ** Facts about the matcher *)

Module RegexFacts.

Import Text TextFacts Regex.

Lemma last_char_app (prev : option ascii) (a b : string) :
  last_char prev (a ++ b) = last_char (last_char prev a) b.
Proof. revert prev; induction a as [|c a IH]; intros prev; simpl; auto. Qed.

Section Soundness.

Variable icase : bool.

Lemma rep_opt_sound (r : regex) m :
  sound icase r m ->
  forall n max, max = None \/ max = Some n ->
  sound icase (RRep 0 max r) (rep_opt m n).
Proof.
  intros Hm n; induction n as [|n IH]; intros max Hmax prev s k x H; simpl in H.
  - exists "", s. repeat split; [constructor | exact H].
  - destruct (m prev s _) as [y|] eqn:E.
    + injection H as ->.
      apply Hm in E as (w1 & rest1 & -> & M1 & K1).
      destruct (_ <? _)%nat; [|discriminate].
      apply (IH (option_map Nat.pred max)) in K1 as (w2 & rest & -> & M2 & K2).
      * exists (w1 ++ w2), rest. rewrite app_assoc, last_char_app.
        repeat split; [|exact K2].
        apply M_rep_iter; [destruct Hmax; congruence | exact M1 | exact M2].
      * destruct Hmax as [->| ->]; simpl; auto.
    + exists "", s. repeat split; [constructor | exact H].
Qed.

Lemma rep_min_sound (r : regex) m :
  sound icase r m ->
  forall min extra,
    sound icase (RRep min (option_map (Nat.add min) extra) r) (rep_min m min extra).
Proof.
  intros Hm min; induction min as [|min IH]; intros extra prev s k x H; simpl in H.
  - apply (rep_opt_sound r m Hm _ (option_map (Nat.add 0) extra)) in H.
    + exact H.
    + destruct extra; simpl; auto.
  - apply Hm in H as (w1 & rest1 & -> & M1 & K1).
    apply IH in K1 as (w2 & rest & -> & M2 & K2).
    exists (w1 ++ w2), rest. rewrite app_assoc, last_char_app.
    repeat split; [|exact K2].
    apply M_rep_iter; [destruct extra; simpl; congruence | exact M1 |].
    replace (option_map Nat.pred (option_map (Nat.add (S min)) extra))
      with (option_map (Nat.add min) extra) by (now destruct extra).
    exact M2.
Qed.

Theorem rmatch_sound (r : regex) : sound icase r (rmatch icase r).
Proof.
  induction r as [|a|cs|r1 IH1 r2 IH2|r1 IH1 r2 IH2|min max r IH|];
    intros prev s k x H; simpl in H.
  - exists "", s. repeat split; [constructor | exact H].
  - destruct s as [|c t]; [discriminate|].
    destruct (char_mem icase a c) eqn:E; [|discriminate].
    exists (String c ""), t. repeat split; [now constructor | exact H].
  - destruct s as [|c t]; [discriminate|].
    destruct (class_mem icase cs c) eqn:E; [|discriminate].
    exists (String c ""), t. repeat split; [now constructor | exact H].
  - apply IH1 in H as (w1 & rest1 & -> & M1 & K1).
    apply IH2 in K1 as (w2 & rest & -> & M2 & K2).
    exists (w1 ++ w2), rest. rewrite app_assoc, last_char_app.
    repeat split; [now constructor | exact K2].
  - destruct (rmatch icase r1 prev s k) as [y|] eqn:E.
    + injection H as ->. apply IH1 in E as (w & rest & -> & M1 & K1).
      exists w, rest. repeat split; [now apply M_alt_l | exact K1].
    + apply IH2 in H as (w & rest & -> & M1 & K1).
      exists w, rest. repeat split; [now apply M_alt_r | exact K1].
  - destruct max as [mx|].
    + destruct (mx <? min)%nat eqn:E; [discriminate|].
      apply Nat.ltb_ge in E.
      apply (rep_min_sound r _ IH) in H. simpl in H.
      now replace (min + (mx - min))%nat with mx in H by lia.
    + now apply (rep_min_sound r _ IH) in H.
  - destruct (boundary prev s) eqn:E; [|discriminate].
    exists "", s. repeat split; [now constructor | exact H].
Qed.

Lemma rep_opt_respects m : respects m -> forall n, respects (rep_opt m n).
Proof.
  intros Hm n; induction n as [|n IH]; intros prev s k k' Hk; simpl; [apply Hk|].
  rewrite (Hm prev s _ (fun p' s' =>
             if (String.length s' <? String.length s)%nat
             then rep_opt m n p' s' k' else None)).
  - now rewrite Hk.
  - intros p t. destruct (_ <? _)%nat; [now apply IH | reflexivity].
Qed.

Lemma rep_min_respects m :
  respects m -> forall min extra, respects (rep_min m min extra).
Proof.
  intros Hm min; induction min as [|min IH]; intros extra prev s k k' Hk; simpl.
  - now apply rep_opt_respects.
  - apply Hm. intros p t. now apply IH.
Qed.

Lemma rmatch_respects (r : regex) : respects (rmatch icase r).
Proof.
  induction r as [|a|cs|r1 IH1 r2 IH2|r1 IH1 r2 IH2|min max r IH|];
    intros prev s k k' Hk; simpl.
  - apply Hk.
  - destruct s as [|c t]; [reflexivity|]. now rewrite Hk.
  - destruct s as [|c t]; [reflexivity|]. now rewrite Hk.
  - apply IH1. intros p t. now apply IH2.
  - now rewrite (IH1 prev s k k' Hk), (IH2 prev s k k' Hk).
  - destruct max as [mx|]; [destruct (mx <? min)%nat; [reflexivity|]|];
      now apply rep_min_respects.
  - now rewrite Hk.
Qed.

(** The optional iterations of an unbounded quantifier are run at most
    as many times as the text has characters; this loses nothing: with
    any larger bound the matcher answers the same. *)
Lemma rep_opt_bound (r : regex) m :
  sound icase r m -> respects m ->
  forall n n' prev s k,
    (String.length s <= n)%nat -> (String.length s <= n')%nat ->
    rep_opt m n prev s k = rep_opt m n' prev s k.
Proof.
  intros Hs Hm.
  assert (Hstuck : forall n prev s k,
             String.length s = O -> rep_opt m n prev s k = k prev s).
  { intros [|n] prev s k H0; simpl; [reflexivity|].
    destruct (m prev s _) as [x|] eqn:E; [|reflexivity].
    apply Hs in E as (w & rest & _ & _ & K). rewrite H0 in K.
    destruct (_ <? 0)%nat eqn:L; [|discriminate K].
    apply Nat.ltb_lt in L. lia. }
  intros n; induction n as [|n IH]; intros n' prev s k Hn Hn'.
  - rewrite !Hstuck by lia. reflexivity.
  - destruct n' as [|n'].
    + rewrite !Hstuck by lia. reflexivity.
    + simpl.
      rewrite (Hm prev s _ (fun p' s' =>
                 if (String.length s' <? String.length s)%nat
                 then rep_opt m n' p' s' k else None)); [reflexivity|].
      intros p t. destruct (Nat.ltb_spec (String.length t) (String.length s));
        [apply IH; lia | reflexivity].
Qed.

Lemma unbounded_quantifier_bound (r : regex) (n : nat) prev s k :
  (String.length s <= n)%nat ->
  rep_opt (rmatch icase r) n prev s k
  = rep_opt (rmatch icase r) (String.length s) prev s k.
Proof.
  intros H. apply (rep_opt_bound r); [apply rmatch_sound | apply rmatch_respects | lia | lia].
Qed.

(** An attempt at one position. *)
Lemma match_here_sound (r : regex) (prev : option ascii) (s s' : string) :
  match_here icase r prev s = Some s' ->
  exists w, s = w ++ s' /\ Matches icase r prev w s'.
Proof.
  intros H. apply rmatch_sound in H as (w & rest & -> & M & K).
  injection K as ->. now exists w.
Qed.

Lemma scan_cons_0 (r : regex) (prev : option ascii) (c : ascii) (t : string) :
  scan icase r prev (String c t) O =
  match match_here icase r prev (String c t) with
  | Some s' =>
      let n := (String.length (String c t) - String.length s')%nat in
      take n (String c t) :: scan icase r (Some c) t (Nat.pred n)
  | None => scan icase r (Some c) t O
  end.
Proof. reflexivity. Qed.

(** Every string a scan reports occurs in the text scanned, and is in
    the language of the expression at that place. *)
Lemma scan_sound (r : regex) (s : string) :
  forall prev skip m,
    In m (scan icase r prev s skip) ->
    exists a b, s = a ++ m ++ b /\ Matches icase r (last_char prev a) m b.
Proof.
  induction s as [|c t IH]; intros prev skip m Hin.
  - destruct skip as [|n]; simpl in Hin; [|contradiction].
    destruct (match_here icase r prev "") as [s'|] eqn:E; [|contradiction].
    apply match_here_sound in E as (w & Hw & M).
    destruct w; [|discriminate]. simpl in Hw. subst s'.
    simpl in Hin. destruct Hin as [<-|[]].
    exists "", "". split; [reflexivity | exact M].
  - assert (Htail : forall n, In m (scan icase r (Some c) t n) ->
              exists a b, String c t = a ++ m ++ b /\
                          Matches icase r (last_char prev a) m b).
    { intros n Hn. apply IH in Hn as (a & b & -> & M).
      exists (String c a), b. split; [reflexivity | exact M]. }
    destruct skip as [|n]; [|simpl in Hin; eauto].
    rewrite scan_cons_0 in Hin.
    destruct (match_here icase r prev (String c t)) as [s'|] eqn:E; [|eauto].
    destruct Hin as [<-|Hin]; [|eauto].
    apply match_here_sound in E as (w & Hw & M).
    exists "", s'. rewrite Hw, length_app.
    replace (String.length w + String.length s' - String.length s')%nat
      with (String.length w) by lia.
    rewrite take_app. split; [reflexivity | exact M].
Qed.

End Soundness.

Lemma String_match_sound (content : string) (p : pattern) (matches : list string) :
  String_match content p = Some matches ->
  forall m, In m matches ->
    exists a b, content = a ++ m ++ b /\
                Matches (ignoreCase p) (expr p) (last_char None a) m b.
Proof.
  unfold String_match. intros H m Hin.
  apply (scan_sound (ignoreCase p) (expr p) content None O).
  destruct (scan _ _ _ _ _); [discriminate | now injection H as <-].
Qed.

Section Completeness.

Variable icase : bool.

Lemma rep_opt_S m (n : nat) (prev : option ascii) (s : string) (k : cont) :
  rep_opt m (S n) prev s k =
  match m prev s (fun p' s' =>
          if (String.length s' <? String.length s)%nat
          then rep_opt m n p' s' k else None) with
  | Some r => Some r
  | None => k prev s
  end.
Proof. reflexivity. Qed.

(** One more optional iteration allowed loses no answer. *)
Lemma rep_opt_mono (r : regex) m :
  sound icase r m -> complete icase r m ->
  forall n prev s k,
    rep_opt m n prev s k <> None -> rep_opt m (S n) prev s k <> None.
Proof.
  intros Hs Hc n; induction n as [|n IH]; intros prev s k H.
  - simpl in H. rewrite rep_opt_S. destruct (m prev s _); [discriminate | exact H].
  - rewrite rep_opt_S in H. rewrite (rep_opt_S m (S n)).
    match type of H with
    | context [m prev s ?K] => destruct (m prev s K) as [x|] eqn:E
    end.
    + apply Hs in E as (w & rest & -> & M & K).
      destruct (String.length rest <? String.length (w ++ rest))%nat eqn:L;
        [|discriminate K].
      pose proof (Hc prev w rest
                    (fun p' s' =>
                       if (String.length s' <? String.length (w ++ rest))%nat
                       then rep_opt m (S n) p' s' k else None) M) as Hm.
      cbv beta in Hm. rewrite L in Hm.
      destruct (m prev (w ++ rest) _); [discriminate|].
      exfalso. apply Hm; [|reflexivity]. apply IH. rewrite K. discriminate.
    + clear E. destruct (m prev s _); [discriminate | exact H].
Qed.

Lemma rep_opt_complete (r : regex) m :
  sound icase r m -> complete icase r m ->
  forall r0 prev w rest,
    Matches icase r0 prev w rest ->
    forall max n k,
      r0 = RRep 0 max r ->
      max = Some n \/ (max = None /\ (String.length (w ++ rest) <= n)%nat) ->
      k (last_char prev w) rest <> None ->
      rep_opt m n prev (w ++ rest) k <> None.
Proof.
  intros Hs Hc r0 prev w0 rest H.
  induction H as [| | | | | |mx r1 prev rest
                 |mn mx r1 prev w1 w2 rest Hmx H1 _ H2 IH2|];
    intros max n k E Hn Hk; try discriminate E.
  - simpl in *. destruct n as [|n]; [exact Hk|].
    rewrite rep_opt_S. destruct (m prev rest _); [discriminate | exact Hk].
  - injection E as -> -> ->.
    rewrite last_char_app in Hk.
    destruct w1 as [|c w1].
    + simpl in *. destruct Hn as [->|[-> Hn]].
      * destruct n as [|n]; [congruence|].
        apply (rep_opt_mono r m Hs Hc).
        apply (IH2 (Some n) n k); [reflexivity | now left | exact Hk].
      * apply (IH2 None n k); [reflexivity | now right | exact Hk].
    + assert (Hlt : (String.length (w2 ++ rest)
                     <? String.length (String c w1 ++ w2 ++ rest))%nat = true).
      { apply Nat.ltb_lt. simpl. rewrite !length_app. lia. }
      assert (Hn' : exists n', n = S n' /\
                (option_map Nat.pred max = Some n' \/
                 (option_map Nat.pred max = None /\
                  (String.length (w2 ++ rest) <= n')%nat))).
      { destruct Hn as [->|[-> Hn]].
        - destruct n as [|n]; [congruence|]. exists n. simpl. auto.
        - simpl in Hn. rewrite !length_app in Hn.
          destruct n as [|n]; [lia|]. exists n. simpl. rewrite length_app.
          split; [reflexivity | right; split; [reflexivity | lia]]. }
      destruct Hn' as (n' & -> & Hn').
      rewrite app_assoc, rep_opt_S.
      pose proof (Hc prev (String c w1) (w2 ++ rest)
                    (fun p' s' =>
                       if (String.length s' <?
                           String.length (String c w1 ++ w2 ++ rest))%nat
                       then rep_opt m n' p' s' k else None) H1) as Hm.
      cbv beta in Hm. rewrite Hlt in Hm.
      destruct (m prev (String c w1 ++ w2 ++ rest) _); [discriminate|].
      exfalso. apply Hm; [|reflexivity].
      apply (IH2 (option_map Nat.pred max) n' k); [reflexivity | exact Hn' | exact Hk].
Qed.

Lemma rep_min_complete (r : regex) m :
  sound icase r m -> complete icase r m ->
  forall min extra prev w rest k,
    Matches icase (RRep min (option_map (Nat.add min) extra) r) prev w rest ->
    k (last_char prev w) rest <> None ->
    rep_min m min extra prev (w ++ rest) k <> None.
Proof.
  intros Hs Hc min; induction min as [|min IH]; intros extra prev w0 rest k H Hk.
  - simpl.
    apply (rep_opt_complete r m Hs Hc _ _ _ _ H (option_map (Nat.add 0) extra));
      [reflexivity | | exact Hk].
    destruct extra; simpl; auto.
  - inversion H as [| | | | | | |mn mx r1 prev' w1 w2 rest' Hmx H1 H2 |]; subst.
    simpl. rewrite app_assoc. apply Hc; [exact H1|].
    apply IH; [|now rewrite <- last_char_app].
    replace (option_map (Nat.add min) extra)
      with (option_map Nat.pred (option_map (Nat.add (S min)) extra))
      by (now destruct extra).
    exact H2.
Qed.

(** A bounded quantifier has a text only when its bounds are in order. *)
Lemma Matches_rep_bounds r0 prev w0 rest :
  Matches icase r0 prev w0 rest ->
  forall min mx r, r0 = RRep min (Some mx) r -> (min <= mx)%nat.
Proof.
  induction 1 as [| | | | | |mx r1 prev rest
                 |mn mx r1 prev w1 w2 rest Hmx H1 _ H2 IH2|];
    intros min mx0 r E; try discriminate E.
  - injection E as <- _ _. lia.
  - injection E as -> -> ->. simpl in IH2.
    specialize (IH2 _ _ _ eq_refl).
    destruct mx0 as [|mx0]; [congruence | simpl in IH2; lia].
Qed.

Theorem rmatch_complete (r : regex) : complete icase r (rmatch icase r).
Proof.
  induction r as [|a|cs|r1 IH1 r2 IH2|r1 IH1 r2 IH2|min max r IH|];
    intros prev w0 rest k H Hk.
  - inversion H; subst. exact Hk.
  - inversion H as [|a' c prev' rest' Hc| | | | | | |]; subst.
    simpl in *. now rewrite Hc.
  - inversion H as [| |cs' c prev' rest' Hc| | | | | |]; subst.
    simpl in *. now rewrite Hc.
  - inversion H as [| | |r1' r2' prev' w1 w2 rest' H1 H2| | | | |]; subst.
    simpl. rewrite app_assoc. apply IH1; [exact H1|].
    apply IH2; [exact H2 | now rewrite <- last_char_app].
  - simpl. inversion H; subst.
    + destruct (rmatch icase r1 prev (w0 ++ rest) k) eqn:E; [discriminate|].
      exfalso. now apply (IH1 prev w0 rest k).
    + destruct (rmatch icase r1 prev (w0 ++ rest) k); [discriminate|].
      now apply IH2.
  - simpl. destruct max as [mx|].
    + pose proof (Matches_rep_bounds _ _ _ _ H _ _ _ eq_refl) as Hle.
      destruct (Nat.ltb_spec mx min) as [Hlt|_]; [lia|].
      apply (rep_min_complete r _ (rmatch_sound icase r) IH); [|exact Hk].
      simpl. now replace (min + (mx - min))%nat with mx by lia.
    + now apply (rep_min_complete r _ (rmatch_sound icase r) IH min None).
  - inversion H as [| | | | | | | |prev' rest' Hb]; subst.
    simpl in *. now rewrite Hb.
Qed.

Lemma match_here_complete (r : regex) (prev : option ascii) (w rest : string) :
  Matches icase r prev w rest -> match_here icase r prev (w ++ rest) <> None.
Proof. intros H. apply rmatch_complete; [exact H | discriminate]. Qed.

Lemma scan_0 (r : regex) (prev : option ascii) (s : string) :
  scan icase r prev s O =
  match match_here icase r prev s with
  | Some s' =>
      let n := (String.length s - String.length s')%nat in
      take n s ::
        match s with
        | EmptyString => []
        | String c t => scan icase r (Some c) t (Nat.pred n)
        end
  | None =>
      match s with
      | EmptyString => []
      | String c t => scan icase r (Some c) t O
      end
  end.
Proof. destruct s; reflexivity. Qed.

(** A text [m] of the language that lies in the scanned text after
    [pre], and is the only one that can be read at that place, is
    reported, unless a match reported before it reaches over its
    start: the scan resumes where a match ends. *)
Lemma scan_complete (r : regex) (pre : string) :
  forall m post prev skip,
    (skip <= String.length pre)%nat ->
    Matches icase r (last_char prev pre) m post ->
    (forall m' rest', m ++ post = m' ++ rest' ->
                      Matches icase r (last_char prev pre) m' rest' -> m' = m) ->
    In m (scan icase r prev (pre ++ m ++ post) skip)
    \/ exists a m0 b,
         pre ++ m ++ post = a ++ m0 ++ b
         /\ In m0 (scan icase r prev (pre ++ m ++ post) skip)
         /\ (String.length a < String.length pre
             < String.length a + String.length m0)%nat.
Proof.
  induction pre as [|c pre IH]; intros m post prev skip Hskip M U.
  - simpl in *. replace skip with O by lia. left.
    pose proof (match_here_complete r prev m post M) as Hm.
    rewrite scan_0.
    destruct (match_here icase r prev (m ++ post)) as [s'|] eqn:E;
      [|contradiction].
    apply match_here_sound in E as (w & Hw & Mw).
    assert (w = m) by (now apply (U w s')). subst w.
    left. rewrite Hw, length_app.
    replace (String.length m + String.length s' - String.length s')%nat
      with (String.length m) by lia.
    apply take_app.
  - simpl in M, U.
    change (String c pre ++ m ++ post) with (String c (pre ++ m ++ post)).
    assert (Hshift : forall n G,
      (n <= String.length pre)%nat ->
      (forall x, In x (scan icase r (Some c) (pre ++ m ++ post) n) -> In x G) ->
      In m G
      \/ exists a m0 b,
           String c (pre ++ m ++ post) = a ++ m0 ++ b
           /\ In m0 G
           /\ (String.length a < String.length (String c pre)
               < String.length a + String.length m0)%nat).
    { intros n G Hn HG.
      destruct (IH m post (Some c) n Hn M U) as [H|(a & m0 & b & E & Hin & Hlt)];
        [left; auto|].
      right. exists (String c a), m0, b. simpl. rewrite E.
      repeat split; auto; lia. }
    destruct skip as [|n].
    + rewrite scan_cons_0.
      destruct (match_here icase r prev (String c (pre ++ m ++ post)))
        as [s'|] eqn:E.
      * cbv zeta.
        set (n := (String.length (String c (pre ++ m ++ post))
                   - String.length s')%nat).
        destruct (le_gt_dec (Nat.pred n) (String.length pre)) as [Hle|Hgt].
        -- apply (Hshift (Nat.pred n)); [exact Hle | intros x Hx; now right].
        -- right.
           exists "", (take n (String c (pre ++ m ++ post))),
                  (drop n (String c (pre ++ m ++ post))).
           split; [simpl; now rewrite take_drop|].
           split; [now left|].
           rewrite take_length.
           assert (n <= String.length (String c (pre ++ m ++ post)))%nat
             by (unfold n; lia).
           clearbody n. simpl in *. lia.
      * apply (Hshift O); [lia | auto].
    + change (scan icase r prev (String c (pre ++ m ++ post)) (S n))
        with (scan icase r (Some c) (pre ++ m ++ post) n).
      apply (Hshift n); [simpl in Hskip; lia | auto].
Qed.

End Completeness.

End RegexFacts.

(** ** The Findings of an analysis *)

Module FindingFacts.

Import Text TextFacts Regex RegexFacts PrivacyFilter Spec.

Lemma pushAll_nil a : Analysis.pushAll [] a = a.
Proof. unfold Analysis.pushAll. rewrite List.app_nil_r. now destruct a. Qed.

Lemma pushAll_pushAll l l' a :
  Analysis.pushAll l' (Analysis.pushAll l a) = Analysis.pushAll (l ++ l') a.
Proof. unfold Analysis.pushAll. simpl. now rewrite List.app_assoc. Qed.

Lemma fold_push {A} (mk : A -> Issue.t) (l : list A) (a : Analysis.t) :
  fold_left (fun a x => Analysis.push (mk x) a) l a = Analysis.pushAll (map mk l) a.
Proof.
  revert a; induction l as [|x l IH]; intros a; simpl.
  - now rewrite pushAll_nil.
  - rewrite IH. apply (pushAll_pushAll [mk x]).
Qed.

Lemma detectAndAdd_pushAll content p type severity a :
  detectAndAdd content p type severity a
  = Analysis.pushAll (detect content (p, type, severity)) a.
Proof.
  unfold detectAndAdd, detect, matches_of.
  destruct (String_match content p) as [l|].
  - apply (fold_push (patternFinding content type severity)).
  - now rewrite pushAll_nil.
Qed.

Lemma detectCompanyNames_pushAll content a :
  detectCompanyNames content a
  = Analysis.pushAll (detect content (companyPattern, Ty.companyName, "MEDIUM")) a.
Proof.
  unfold detectCompanyNames, detect, matches_of.
  destruct (String_match content companyPattern) as [l|].
  - apply (fold_push (patternFinding content Ty.companyName "MEDIUM")).
  - now rewrite pushAll_nil.
Qed.

Lemma detectLocationContext_pushAll content a :
  detectLocationContext content a
  = Analysis.pushAll (detect content (locationPattern, Ty.locationContext, "MEDIUM")) a.
Proof.
  unfold detectLocationContext, detect, matches_of.
  destruct (String_match content locationPattern) as [l|].
  - apply (fold_push (patternFinding content Ty.locationContext "MEDIUM")).
  - now rewrite pushAll_nil.
Qed.

Lemma detectPatternBasedIssues_pushAll content a :
  detectPatternBasedIssues content a = Analysis.pushAll (patternFindings content) a.
Proof.
  unfold detectPatternBasedIssues, patternFindings, registry.
  cbn [flat_map].
  rewrite !detectAndAdd_pushAll, detectCompanyNames_pushAll,
    detectLocationContext_pushAll, !pushAll_pushAll.
  f_equal. rewrite ?List.app_nil_r, <- ?List.app_assoc. reflexivity.
Qed.

Lemma addBucket_pushAll items type severity a :
  addBucket items type severity a
  = Analysis.pushAll (adapt (Analysis.originalContent a) (items, type, severity)) a.
Proof.
  unfold addBucket, adapt. destruct items as [l|]; [|now rewrite pushAll_nil].
  generalize (eq_refl (Analysis.originalContent a)).
  generalize a at 1 3 5 as a0. 
  induction l as [|x l IH]; intros a0 H0; simpl.
  - now rewrite pushAll_nil.
  - rewrite IH by exact H0. rewrite H0.
    apply (pushAll_pushAll [aiFinding (Analysis.originalContent a) type severity x]).
Qed.

Lemma addAIDetectedIssues_pushAll ai a :
  addAIDetectedIssues ai a
  = Analysis.pushAll (aiFindings (Analysis.originalContent a) ai) a.
Proof.
  unfold addAIDetectedIssues, aiFindings, buckets. cbn [flat_map].
  rewrite !addBucket_pushAll. cbn [Analysis.pushAll Analysis.originalContent].
  rewrite !pushAll_pushAll.
  f_equal. rewrite ?List.app_nil_r, <- ?List.app_assoc. reflexivity.
Qed.

Lemma detection_steps openai content :
  (match openai with
   | Some o => detectAIBasedIssues o content
   | None => fun a => a
   end) (detectPatternBasedIssues content (newAnalysis content))
  = detected openai content.
Proof.
  rewrite detectPatternBasedIssues_pushAll.
  unfold detected, findings, Analysis.pushAll, newAnalysis. simpl.
  destruct openai as [o|]; [|now rewrite List.app_nil_r].
  unfold detectAIBasedIssues.
  destruct (o content) as [ai|]; [|now rewrite List.app_nil_r].
  rewrite addAIDetectedIssues_pushAll. reflexivity.
Qed.

End FindingFacts.

(** ** Sorting and redaction *)

Module RedactionFacts.

Import Text TextFacts PrivacyFilter Spec FindingFacts.

Lemma sort_insert_perm {A} (cmp : A -> A -> Z) (x : A) (l : list A) :
  Permutation (sort_insert cmp x l) (x :: l).
Proof.
  induction l as [|y l IH]; simpl; [reflexivity|].
  destruct (cmp x y <=? 0); [reflexivity|].
  rewrite IH. apply perm_swap.
Qed.

Lemma Array_sort_perm {A} (cmp : A -> A -> Z) (l : list A) :
  Permutation (Array_sort cmp l) l.
Proof.
  induction l as [|x l IH]; simpl; [reflexivity|].
  rewrite sort_insert_perm. now constructor.
Qed.

Lemma sort_insert_descending (x : Issue.t) (l : list Issue.t) :
  descending l -> descending (sort_insert byPositionDesc x l).
Proof.
  unfold descending. induction l as [|y l IH]; intros H; simpl.
  - repeat constructor.
  - inversion H as [|? ? Hl Hy]; subst.
    unfold byPositionDesc at 1.
    destruct (Z.leb_spec (Issue.position y - Issue.position x) 0) as [Hc|Hc].
    + constructor; [exact H|].
      constructor; [lia|].
      eapply List.Forall_impl; [|exact Hy]. simpl. intros z Hz. lia.
    + constructor; [now apply IH|].
      eapply Permutation_Forall; [symmetry; apply sort_insert_perm|].
      constructor; [lia | exact Hy].
Qed.

Lemma Array_sort_descending (l : list Issue.t) :
  descending (Array_sort byPositionDesc l).
Proof.
  induction l as [|x l IH]; simpl; [constructor|].
  now apply sort_insert_descending.
Qed.

(** The sort is stable: Findings of one offset keep the order in which
    they were found. *)
Lemma sort_insert_stable (p : Z) (x : Issue.t) (l : list Issue.t) :
  List.filter (has_offset p) (sort_insert byPositionDesc x l)
  = List.filter (has_offset p) (x :: l).
Proof.
  induction l as [|y l IH]; [reflexivity|].
  cbn [sort_insert]. unfold byPositionDesc at 1.
  destruct (Z.leb_spec (Issue.position y - Issue.position x) 0) as [Hc|Hc];
    [reflexivity|].
  cbn [List.filter] in *. rewrite IH. unfold has_offset.
  destruct (Z.eqb_spec (Issue.position x) p), (Z.eqb_spec (Issue.position y) p);
    try reflexivity; lia.
Qed.

Lemma Array_sort_stable (p : Z) (l : list Issue.t) :
  List.filter (has_offset p) (Array_sort byPositionDesc l) = List.filter (has_offset p) l.
Proof.
  induction l as [|x l IH]; [reflexivity|].
  cbn [Array_sort fold_right]. fold (Array_sort byPositionDesc l).
  rewrite sort_insert_stable. cbn [List.filter]. now rewrite IH.
Qed.

Lemma filter_all {A} (f : A -> bool) (l : list A) :
  Forall (fun x => f x = true) l -> List.filter f l = l.
Proof.
  induction 1 as [|x l Hx _ IH]; simpl; [reflexivity|]. now rewrite Hx, IH.
Qed.

(** Where every Finding has the same offset, sorting changes nothing. *)
Lemma Array_sort_same_offset (p : Z) (l : list Issue.t) :
  Forall (fun f => Issue.position f = p) l -> Array_sort byPositionDesc l = l.
Proof.
  intros H.
  assert (Hl : Forall (fun f => has_offset p f = true) l).
  { eapply List.Forall_impl; [|exact H]. intros f Hf. now apply Z.eqb_eq. }
  rewrite <- (filter_all _ _ Hl) at 2.
  rewrite <- (Array_sort_stable p l).
  symmetry. apply filter_all.
  eapply Permutation_Forall; [symmetry; apply Array_sort_perm | exact Hl].
Qed.

(** One step of the loop on a Finding that is applied. *)
Lemma splice_redactOne (text : string) (f : Issue.t) (v : string) :
  0 <= Issue.position f -> Issue.value f = JStr v ->
  Text.substring text 0 (Issue.position f)
    ++ getReplacementText f
    ++ Text.substring_from text (Issue.position f + Text.len v)
  = redactOne text f.
Proof.
  intros Hp Hv. unfold redactOne, placeholder. rewrite Hv. simpl to_string.
  pose proof (len_nonneg v).
  rewrite substring_0 by assumption.
  rewrite substring_from_drop by lia. reflexivity.
Qed.

(** The loop changes the map of the analysis object and nothing else;
    with string values it does not throw. *)
Lemma applyFilters_forEach_ok (l : list Issue.t) :
  strings_only l = true ->
  forall text a,
    applyFilters_forEach l text a
    = (Ok (redact l text), with_map (record l (Analysis.anonymizationMap a)) a).
Proof.
  unfold redact, record.
  induction l as [|f l IH]; intros Hs text a.
  - simpl. unfold ret, with_map. now destruct a.
  - simpl in Hs. apply andb_true_iff in Hs as [Hf Hs].
    cbn [applyFilters_forEach List.filter].
    change (0 <=? Issue.position f) with (applied f).
    destruct (applied f) eqn:Hp; [|now apply IH].
    apply Z.leb_le in Hp.
    destruct (Issue.value f) as [v|] eqn:Hv; [|discriminate].
    rewrite (splice_redactOne text f v Hp Hv).
    unfold mbind, M_bind, bind, update. rewrite (IH Hs).
    cbn [fold_left]. rewrite Hv. reflexivity.
Qed.

Lemma applyFilters_forEach_state (l : list Issue.t) :
  forall text a,
    snd (applyFilters_forEach l text a)
    = with_map (Analysis.anonymizationMap (snd (applyFilters_forEach l text a))) a.
Proof.
  induction l as [|f l IH]; intros text a.
  - simpl. unfold with_map. now destruct a.
  - cbn [applyFilters_forEach].
    destruct (0 <=? Issue.position f); [|apply IH].
    destruct (Issue.value f) as [v|].
    + unfold mbind, M_bind, bind, update.
      match goal with
      | |- context [applyFilters_forEach l ?t ?b] =>
          specialize (IH t b); destruct (applyFilters_forEach l t b) as [[x|e] a']
      end; simpl in *; rewrite IH; reflexivity.
    + unfold throw, with_map. simpl. now destruct a.
Qed.

(** The loop throws only at a Finding that is to be applied and whose
    value is [null]. *)
Lemma applyFilters_forEach_throw (l : list Issue.t) :
  forall text a e a',
    applyFilters_forEach l text a = (Throw e, a') ->
    exists f, In f l /\ Issue.value f = JNull /\ 0 <= Issue.position f.
Proof.
  induction l as [|f l IH]; intros text a e a' H; [discriminate H|].
  cbn [applyFilters_forEach] in H.
  destruct (Z.leb_spec 0 (Issue.position f)) as [Hp|Hp].
  - destruct (Issue.value f) as [v|] eqn:Hv.
    + unfold mbind, M_bind, bind, update in H.
      apply IH in H as (g & Hg & Hnull & Hpos). exists g. split; [now right | auto].
    + exists f. split; [now left | auto].
  - apply IH in H as (g & Hg & Hnull & Hpos). exists g. split; [now right | auto].
Qed.

Lemma applyFilters_forEach_nil (text : string) (a : Analysis.t) :
  applyFilters_forEach [] text a = (Ok text, a).
Proof. reflexivity. Qed.

Lemma applyFilters_unfold (content : string) (a : Analysis.t) :
  applyFilters content a
  = applyFilters_forEach (Array_sort byPositionDesc (Analysis.detectedIssues a))
      content a.
Proof. reflexivity. Qed.

Lemma strings_only_perm (l l' : list Issue.t) :
  Permutation l l' -> strings_only l = true -> strings_only l' = true.
Proof.
  unfold strings_only. rewrite !forallb_forall. intros P H x Hx.
  apply H. eapply Permutation_in; [symmetry; exact P | exact Hx].
Qed.

End RedactionFacts.

(** ** The facade *)

Module AnalysisFacts.

Import Text TextFacts Regex RegexFacts PrivacyFilter Spec FindingFacts RedactionFacts.

Lemma analyzeContent_try_unfold (openai : option oracle) (content : string) :
  analyzeContent_try openai content (newAnalysis content) =
  match applyFilters_forEach
          (Array_sort byPositionDesc (findings openai content)) content
          (detected openai content) with
  | (Ok filtered, a) => (Ok tt, completed filtered a)
  | (Throw e, a) => (Throw e, a)
  end.
Proof.
  pose proof (detection_steps openai content) as D.
  unfold analyzeContent_try, applyFilters.
  unfold mbind, M_bind, bind, update, get, ret.
  destruct openai as [o|]; simpl in D |- *; rewrite D; simpl;
    destruct (applyFilters_forEach _ _ _) as [[x|e] a]; reflexivity.
Qed.

Lemma analyzeContent_unfold (openai : option oracle) (content : string) :
  analyzeContent openai content =
  match applyFilters_forEach
          (Array_sort byPositionDesc (findings openai content)) content
          (detected openai content) with
  | (Ok filtered, a) => completed filtered a
  | (Throw _, a) => degraded a
  end.
Proof.
  unfold analyzeContent. rewrite analyzeContent_try_unfold.
  destruct (applyFilters_forEach _ _ _) as [[x|e] a]; reflexivity.
Qed.

(** Redaction, scoring and advice leave the Findings as detected. *)
Lemma analyzeContent_issues (openai : option oracle) (content : string) :
  Analysis.detectedIssues (analyzeContent openai content) = findings openai content.
Proof.
  rewrite analyzeContent_unfold.
  pose proof (applyFilters_forEach_state
                (Array_sort byPositionDesc (findings openai content)) content
                (detected openai content)) as E.
  destruct (applyFilters_forEach _ _ _) as [[x|e] a]; simpl in E; rewrite E;
    reflexivity.
Qed.

Lemma in_patternFindings (content : string) (f : Issue.t) :
  In f (patternFindings content) <->
  exists p type severity m,
    In (p, type, severity) registry /\ In m (matches_of content p) /\
    f = patternFinding content type severity m.
Proof.
  unfold patternFindings. rewrite List.in_flat_map. split.
  - intros ([[p type] severity] & Hr & Hf). unfold detect in Hf.
    apply List.in_map_iff in Hf as (m & <- & Hm). now exists p, type, severity, m.
  - intros (p & type & severity & m & Hr & Hm & ->).
    exists (p, type, severity). split; [exact Hr|].
    unfold detect. now apply List.in_map.
Qed.

Lemma in_aiFindings (content : string) (ai : aiAnalysis) (f : Issue.t) :
  In f (aiFindings content ai) ->
  exists items type severity item,
    In (items, type, severity) (buckets ai) /\
    f = aiFinding content type severity item.
Proof.
  unfold aiFindings. rewrite List.in_flat_map.
  intros ([[items type] severity] & Hb & Hf). unfold adapt in Hf.
  apply List.in_map_iff in Hf as (item & <- & _). now exists items, type, severity, item.
Qed.

(** A Finding is one of a detector or one of the adapter. *)
Lemma in_findings (openai : option oracle) (content : string) (f : Issue.t) :
  In f (findings openai content) ->
  In f (patternFindings content)
  \/ exists o ai, openai = Some o /\ o content = Some ai /\ In f (aiFindings content ai).
Proof.
  unfold findings. rewrite List.in_app_iff. intros [H|H]; [now left|].
  destruct openai as [o|]; [|contradiction].
  destruct (o content) as [ai|] eqn:E; [|contradiction].
  right. now exists o, ai.
Qed.

Lemma matches_of_occur (content : string) (p : pattern) (m : string) :
  In m (matches_of content p) ->
  exists a b, content = a ++ m ++ b /\
              Matches (ignoreCase p) (expr p) (last_char None a) m b.
Proof.
  unfold matches_of. destruct (String_match content p) as [l|] eqn:E; [|contradiction].
  now apply String_match_sound.
Qed.

(** The offset of a detector's Finding is the first occurrence of its
    value. *)
Lemma patternFinding_offset (content : string) (f : Issue.t) :
  In f (patternFindings content) ->
  Issue.detectionMethod f = "pattern" /\
  exists m, Issue.value f = JStr m /\
            Issue.position f = indexOf content m /\
            first_occurrence content m (Issue.position f).
Proof.
  intros H. apply in_patternFindings in H as (p & type & severity & m & _ & Hm & ->).
  split; [reflexivity|]. exists m. repeat split.
  apply matches_of_occur in Hm as (a & b & -> & _). apply indexOf_occurs.
Qed.

Lemma aiFinding_offset (content : string) (ai : aiAnalysis) (f : Issue.t) :
  In f (aiFindings content ai) ->
  Issue.detectionMethod f = "ai" /\
  Issue.position f = indexOf content (to_string (Issue.value f)).
Proof.
  intros H. apply in_aiFindings in H as (items & type & severity & item & _ & ->).
  split; reflexivity.
Qed.

Lemma finding_offset (openai : option oracle) (content : string) (f : Issue.t) :
  In f (findings openai content) ->
  Issue.position f = indexOf content (to_string (Issue.value f)).
Proof.
  intros H. apply in_findings in H as [H|(o & ai & _ & _ & H)].
  - apply patternFinding_offset in H as (_ & m & Hv & Hp & _). now rewrite Hv.
  - now apply aiFinding_offset in H.
Qed.

End AnalysisFacts.

(** * The claims *)

Module Claims.

Import Text TextFacts Regex RegexFacts PrivacyFilter Spec.
Import FindingFacts RedactionFacts AnalysisFacts.

(** C1, as stated, fails: the oracle names "Bob", the text "hello" does
    not hold that name, the Finding is reported with offset -1, and the
    slice of the text taken there is not its value. *)
Lemma slice_invariant_fails_for_paraphrase :
  ~ (forall f,
       In f (Analysis.detectedIssues
               (analyzeContent (Some paraphrasingOracle) "hello")) ->
       slice_is_value "hello" f).
Proof.
  intros H.
  specialize (H (Issue.Build Ty.personalName (JStr "Bob") "HIGH" (-1) "ai")).
  assert (Hin : In (Issue.Build Ty.personalName (JStr "Bob") "HIGH" (-1) "ai")
                   (Analysis.detectedIssues
                      (analyzeContent (Some paraphrasingOracle) "hello"))).
  { vm_compute. left. reflexivity. }
  apply H in Hin. vm_compute in Hin. discriminate Hin.
Qed.

(** C1 (amended): the offset of every Finding of a pattern-based detector
    is [content.indexOf(value)], the first occurrence of the matched
    string in the text; and every Finding reported before redaction whose
    offset is not -1 (a Finding of the oracle has offset -1 when its
    value does not occur verbatim) satisfies
    [text[offset : offset + len(value)] = value]. *)
Theorem finding_offset_is_first_occurrence
    (openai : option oracle) (content : string) (f : Issue.t) :
  In f (Analysis.detectedIssues (analyzeContent openai content)) ->
  (Issue.detectionMethod f = "pattern" ->
     exists m, Issue.value f = JStr m /\
               Issue.position f = indexOf content m /\
               first_occurrence content m (Issue.position f))
  /\ (Issue.position f <> -1 -> slice_is_value content f).
Proof.
  rewrite analyzeContent_issues. intros Hin.
  pose proof (finding_offset openai content f Hin) as Hpos.
  apply in_findings in Hin as [H|(o & ai & _ & _ & H)].
  - apply patternFinding_offset in H as (_ & m & Hv & Hp & Hfirst). split.
    + intros _. now exists m.
    + intros _. unfold slice_is_value, slice_at. rewrite Hv. simpl.
      now apply first_occurrence_slice.
  - apply aiFinding_offset in H as (Hm & _). split.
    + rewrite Hm. discriminate.
    + intros Hne. unfold slice_is_value, slice_at.
      apply first_occurrence_slice. rewrite Hpos.
      apply indexOf_nonneg_first.
      pose proof (indexOf_ge_m1 content (to_string (Issue.value f))). lia.
Qed.

Lemma finding_offset_is_first_occurrence_witness :
  let content := "My SSN is 123-45-6789" in
  let f := Issue.Build Ty.ssn (JStr "123-45-6789") "HIGH" 10 "pattern" in
  (Issue.detectionMethod f = "pattern" ->
     exists m, Issue.value f = JStr m /\
               Issue.position f = indexOf content m /\
               first_occurrence content m (Issue.position f))
  /\ (Issue.position f <> -1 -> slice_is_value content f).
Proof.
  apply (finding_offset_is_first_occurrence None "My SSN is 123-45-6789").
  vm_compute. left. reflexivity.
Defined.

(** The reported offset is not the place where the pattern matched: in
    "x12345 12345" the postal-code pattern matches at index 7 only (at
    index 1 no word boundary precedes the digits), and the Finding is
    reported, and redacted, at index 1. *)
Example offset_is_not_the_match_position :
  match_here false (expr patterns.zipCode) (Some "x"%char) "12345 12345" = None
  /\ match_here false (expr patterns.zipCode) (Some " "%char) "12345" = Some ""
  /\ Analysis.detectedIssues (analyzeContent None "x12345 12345")
     = [Issue.Build Ty.zipCode (JStr "12345") "MEDIUM" 1 "pattern"]
  /\ Analysis.filteredContent (analyzeContent None "x12345 12345")
     = "x[ZIP_REDACTED] 12345".
Proof. vm_compute. repeat split; reflexivity. Qed.

(** C2: the redaction engine sorts the Findings in descending offset
    order, applies the replacement of each one whose offset is not
    negative as [text[:offset] + placeholder + text[offset + len(value):]],
    records [redaction_map[value] = placeholder] for each replacement
    applied, and skips the Findings with offset -1, which stay in the
    list of Findings. *)
Theorem redaction_descending_and_recorded (content : string) (a : Analysis.t) :
  strings_only (Analysis.detectedIssues a) = true ->
  let sorted := Array_sort byPositionDesc (Analysis.detectedIssues a) in
  Permutation sorted (Analysis.detectedIssues a)
  /\ descending sorted
  /\ fst (applyFilters content a) = Ok (redact sorted content)
  /\ Analysis.anonymizationMap (snd (applyFilters content a))
     = record sorted (Analysis.anonymizationMap a)
  /\ Analysis.detectedIssues (snd (applyFilters content a))
     = Analysis.detectedIssues a.
Proof.
  intros Hs sorted.
  assert (Hs' : strings_only sorted = true).
  { eapply strings_only_perm; [symmetry; apply Array_sort_perm | exact Hs]. }
  rewrite applyFilters_unfold. fold sorted.
  rewrite (applyFilters_forEach_ok sorted Hs' content a).
  repeat split.
  - apply Array_sort_perm.
  - apply Array_sort_descending.
Qed.

Lemma redaction_descending_and_recorded_witness :
  let content := "Email john@test.com and mary@test.com" in
  let a := detected None content in
  let sorted := Array_sort byPositionDesc (Analysis.detectedIssues a) in
  Permutation sorted (Analysis.detectedIssues a)
  /\ descending sorted
  /\ fst (applyFilters content a) = Ok (redact sorted content)
  /\ Analysis.anonymizationMap (snd (applyFilters content a))
     = record sorted (Analysis.anonymizationMap a)
  /\ Analysis.detectedIssues (snd (applyFilters content a))
     = Analysis.detectedIssues a.
Proof.
  apply (redaction_descending_and_recorded
           "Email john@test.com and mary@test.com"
           (detected None "Email john@test.com and mary@test.com")).
  vm_compute. reflexivity.
Defined.

(** A Finding with offset -1 is retained and counted, and leaves the text
    alone: the oracle's "Bob" does not occur in "hello". *)
Example unlocated_finding_is_kept_not_redacted :
  let r := analyzeContent (Some paraphrasingOracle) "hello" in
  Analysis.detectedIssues r
    = [Issue.Build Ty.personalName (JStr "Bob") "HIGH" (-1) "ai"]
  /\ Analysis.filteredContent r = "hello"
  /\ Analysis.riskLevel r = "high"
  /\ Analysis.anonymizationMap r = ∅.
Proof. vm_compute. repeat split; reflexivity. Qed.

Lemma count_filter (severity : string) (l : list Issue.t) :
  length (List.filter (fun issue => String.eqb (Issue.riskLevel issue) severity) l)
  = count_severity severity l.
Proof.
  unfold count_severity. induction l as [|f l IH]; simpl; [reflexivity|].
  destruct (String.eqb_spec (Issue.riskLevel f) severity) as [E|E];
    destruct (string_dec (Issue.riskLevel f) severity) as [E'|E'];
    simpl; try contradiction; [now rewrite IH | exact IH].
Qed.

Lemma existsb_count (severity : string) (l : list Issue.t) :
  existsb (fun f => String.eqb (Issue.riskLevel f) severity) l
  = (0 <? count_severity severity l)%nat.
Proof.
  unfold count_severity. induction l as [|f l IH]; simpl; [reflexivity|].
  destruct (String.eqb_spec (Issue.riskLevel f) severity) as [E|E];
    destruct (string_dec (Issue.riskLevel f) severity) as [E'|E'];
    simpl; try contradiction; [reflexivity | exact IH].
Qed.

(** C3: the aggregate risk of a list of Findings is HIGH if any Finding
    has severity HIGH; else HIGH if more than one Finding has severity
    MEDIUM; else MEDIUM if exactly one has; else LOW. *)
Theorem calculateRiskLevel_is_risk (findings : list Issue.t) :
  calculateRiskLevel findings = level_name (risk findings).
Proof.
  unfold calculateRiskLevel, risk.
  rewrite !count_filter, existsb_count.
  destruct (0 <? count_severity "HIGH" findings)%nat; [reflexivity|].
  destruct (Nat.ltb_spec 1 (count_severity "MEDIUM" findings)); [reflexivity|].
  destruct (Nat.ltb_spec 0 (count_severity "MEDIUM" findings));
    destruct (Nat.eqb_spec (count_severity "MEDIUM" findings) 1);
    try reflexivity; lia.
Qed.

(** C5: when the analysis fails inside, [analyzeContent] still returns:
    the result is the degraded one, its risk level is HIGH and it carries
    the error marker. *)
Theorem analyzeContent_fails_closed
    (openai : option oracle) (content : string) (e : string) (a : Analysis.t) :
  analyzeContent_try openai content (newAnalysis content) = (Throw e, a) ->
  analyzeContent openai content = degraded a
  /\ Analysis.riskLevel (analyzeContent openai content) = level_name HIGH
  /\ Analysis.error (analyzeContent openai content) = Some "Privacy analysis failed".
Proof.
  intros H. unfold analyzeContent. rewrite H. repeat split.
Qed.

(** The oracle lists a [null] among the names and the text holds the
    word "null": reading the length of the value fails during redaction. *)
Lemma analyzeContent_fails_closed_witness :
  let a := Analysis.Build "null" "null"
             [Issue.Build Ty.personalName JNull "HIGH" 0 "ai"]
             riskLevels.LOW [] ∅ None in
  analyzeContent (Some nullOracle) "null" = degraded a
  /\ Analysis.riskLevel (analyzeContent (Some nullOracle) "null") = level_name HIGH
  /\ Analysis.error (analyzeContent (Some nullOracle) "null")
     = Some "Privacy analysis failed".
Proof.
  apply (analyzeContent_fails_closed (Some nullOracle) "null"
           "TypeError: Cannot read properties of null (reading 'length')").
  vm_compute. reflexivity.
Defined.

(** In this model an analysis fails only on a [null] among the values of
    the oracle that, read as "null", occurs in the text; the degraded
    result keeps the Findings and the text as it was given. *)
Lemma analysis_failure_cause
    (openai : option oracle) (content : string) (e : string) (a : Analysis.t) :
  analyzeContent_try openai content (newAnalysis content) = (Throw e, a) ->
  (exists f, In f (findings openai content)
             /\ Issue.value f = JNull /\ Issue.detectionMethod f = "ai"
             /\ 0 <= Issue.position f)
  /\ Analysis.detectedIssues (analyzeContent openai content) = findings openai content
  /\ Analysis.filteredContent (analyzeContent openai content) = content.
Proof.
  intros H. split; [|split].
  - rewrite analyzeContent_try_unfold in H.
    destruct (applyFilters_forEach _ _ _) as [[x|e'] a'] eqn:F; [discriminate H|].
    apply applyFilters_forEach_throw in F as (f & Hf & Hnull & Hpos).
    exists f. assert (Hin : In f (findings openai content)).
    { eapply Permutation_in; [apply Array_sort_perm | exact Hf]. }
    repeat split; try assumption.
    apply in_findings in Hin as [Hin|(o & ai & _ & _ & Hin)].
    + apply patternFinding_offset in Hin as (_ & m & Hv & _). congruence.
    + now apply aiFinding_offset in Hin.
  - apply analyzeContent_issues.
  - unfold analyzeContent. rewrite H.
    rewrite analyzeContent_try_unfold in H.
    pose proof (applyFilters_forEach_state
                  (Array_sort byPositionDesc (findings openai content)) content
                  (detected openai content)) as E.
    destruct (applyFilters_forEach _ _ _) as [[x|e'] a']; [discriminate H|].
    injection H as _ <-. simpl in E. rewrite E. reflexivity.
Qed.

(** C6: filtering is enabled exactly when the caller's enable flag is
    true (its default) and the process-wide flag is true or the caller
    forces it; when it is disabled, and so whenever the caller passes
    [enablePrivacyFilter: false], the text comes back unchanged with no
    analysis. *)
Theorem filterContent_gate
    (env : option string) (openai : option oracle) (content : string)
    (o : options) (force : option bool) :
  let r := filterContent env openai content o in
  FilterResult.privacyFilterEnabled r
    = enable_flag o && (config_flag env || force_flag o)
  /\ (if FilterResult.privacyFilterEnabled r
      then FilterResult.privacyAnalysis r = Some (analyzeContent openai content)
           /\ FilterResult.filteredContent r
              = Analysis.filteredContent (analyzeContent openai content)
      else FilterResult.filteredContent r = content
           /\ FilterResult.privacyAnalysis r = None)
  /\ filterContent env openai content
       {| enablePrivacyFilter := Some false; forcePrivacyFilter := force |}
     = FilterResult.Build content None false.
Proof.
  unfold filterContent, enable_flag, config_flag, force_flag, truthy.
  destruct o as [[[|]|] [[|]|]], env as [v|]; simpl;
    try destruct (String.eqb v "true"); simpl; repeat split.
Qed.

(** C4: Findings that share an offset (Findings with the same literal
    value always do) are applied in descending offset order with the order
    of detection breaking ties, each replacement on the text the one
    before it produced; a bare run of nine digits is found as a bank
    account and as a routing number at the same offset, and the two
    replacements, of different lengths, give a malformed text. *)
Theorem same_offset_replacements_in_sequence :
  (forall (l : list Issue.t) (p : Z),
      descending (Array_sort byPositionDesc l)
      /\ List.filter (has_offset p) (Array_sort byPositionDesc l)
         = List.filter (has_offset p) l)
  /\ (forall (content : string) (a : Analysis.t) (p : Z),
         0 <= p ->
         strings_only (Analysis.detectedIssues a) = true ->
         Forall (fun f => Issue.position f = p) (Analysis.detectedIssues a) ->
         fst (applyFilters content a)
         = Ok (fold_left redactOne (Analysis.detectedIssues a) content))
  /\ (forall (openai : option oracle) (content : string) (f g : Issue.t),
         In f (Analysis.detectedIssues (analyzeContent openai content)) ->
         In g (Analysis.detectedIssues (analyzeContent openai content)) ->
         Issue.value f = Issue.value g ->
         Issue.position f = Issue.position g)
  /\ (Analysis.detectedIssues (analyzeContent None "123456789")
      = [Issue.Build Ty.bankAccount (JStr "123456789") "HIGH" 0 "pattern";
         Issue.Build Ty.routingNumber (JStr "123456789") "HIGH" 0 "pattern"]
      /\ redactOne "123456789"
           (Issue.Build Ty.bankAccount (JStr "123456789") "HIGH" 0 "pattern")
         = "[ACCOUNT_REDACTED]"
      /\ redactOne "[ACCOUNT_REDACTED]"
           (Issue.Build Ty.routingNumber (JStr "123456789") "HIGH" 0 "pattern")
         = "[ROUTING_REDACTED]REDACTED]"
      /\ Analysis.filteredContent (analyzeContent None "123456789")
         = "[ROUTING_REDACTED]REDACTED]").
Proof.
  split; [|split; [|split]].
  - intros l p. split; [apply Array_sort_descending | apply Array_sort_stable].
  - intros content a p Hp Hs Hall.
    rewrite applyFilters_unfold, (Array_sort_same_offset p _ Hall).
    rewrite (applyFilters_forEach_ok _ Hs). unfold redact. simpl.
    rewrite filter_all; [reflexivity|].
    eapply List.Forall_impl; [|exact Hall].
    intros f Hf. unfold applied. rewrite Hf. now apply Z.leb_le.
  - intros openai content f g Hf Hg Hv. rewrite analyzeContent_issues in Hf, Hg.
    rewrite (finding_offset _ _ _ Hf), (finding_offset _ _ _ Hg). now rewrite Hv.
  - vm_compute. repeat split; reflexivity.
Qed.

Lemma same_offset_replacements_in_sequence_witness :
  let content := "123456789" in
  let a := detected None content in
  fst (applyFilters content a)
  = Ok (fold_left redactOne (Analysis.detectedIssues a) content).
Proof.
  apply (proj1 (proj2 same_offset_replacements_in_sequence)
           "123456789" (detected None "123456789") 0).
  - lia.
  - vm_compute. reflexivity.
  - vm_compute. repeat constructor.
Defined.

Lemma registry_severity :
  Forall (fun entry : pattern * Ty.t * string =>
            snd entry = "HIGH" \/ snd entry = "MEDIUM") registry.
Proof. unfold registry. repeat (apply List.Forall_cons; [simpl; auto|]). apply List.Forall_nil. Qed.

Lemma registry_type :
  Forall (fun entry : pattern * Ty.t * string =>
            snd (fst entry) <> Ty.personalName) registry.
Proof.
  unfold registry. repeat (apply List.Forall_cons; [simpl; discriminate|]).
  apply List.Forall_nil.
Qed.

Lemma buckets_severity (ai : aiAnalysis) :
  Forall (fun bucket : option (list jsval) * Ty.t * string =>
            snd bucket = "HIGH" \/ snd bucket = "MEDIUM") (buckets ai).
Proof. unfold buckets. repeat (apply List.Forall_cons; [simpl; auto|]). apply List.Forall_nil. Qed.

(** No detector and no bucket of the adapter gives a Finding another
    severity than HIGH or MEDIUM. *)
Lemma finding_severity (openai : option oracle) (content : string) (f : Issue.t) :
  In f (findings openai content) ->
  Issue.riskLevel f = "HIGH" \/ Issue.riskLevel f = "MEDIUM".
Proof.
  intros H. apply in_findings in H as [H|(o & ai & _ & _ & H)].
  - apply in_patternFindings in H as (p & type & severity & m & Hr & _ & ->).
    pose proof registry_severity as R. rewrite List.Forall_forall in R.
    exact (R _ Hr).
  - apply in_aiFindings in H as (items & type & severity & item & Hb & ->).
    pose proof (buckets_severity ai) as R. rewrite List.Forall_forall in R.
    exact (R _ Hb).
Qed.

Lemma calculateRiskLevel_low (l : list Issue.t) :
  (forall f, In f l -> Issue.riskLevel f = "HIGH" \/ Issue.riskLevel f = "MEDIUM") ->
  (calculateRiskLevel l = riskLevels.LOW <-> l = []).
Proof.
  intros H. split; [|now intros ->].
  destruct l as [|f l]; [reflexivity|]. intros E. exfalso.
  unfold calculateRiskLevel in E. rewrite !count_filter in E.
  unfold count_severity in E. simpl in E.
  destruct (H f (or_introl eq_refl)) as [Hf|Hf]; rewrite Hf in E; simpl in E.
  - discriminate E.
  - destruct (0 <? _)%nat; [discriminate E|].
    destruct (count_occ string_dec (map Issue.riskLevel l) "MEDIUM");
      simpl in E; discriminate E.
Qed.

Lemma analyzeContent_riskLevel (openai : option oracle) (content : string) :
  Analysis.riskLevel (analyzeContent openai content)
  = calculateRiskLevel (findings openai content)
  \/ (Analysis.riskLevel (analyzeContent openai content) = riskLevels.HIGH
      /\ findings openai content <> []).
Proof.
  rewrite analyzeContent_unfold.
  pose proof (applyFilters_forEach_state
                (Array_sort byPositionDesc (findings openai content)) content
                (detected openai content)) as E.
  destruct (applyFilters_forEach _ _ _) as [[x|e] a] eqn:F; simpl in E.
  - left. rewrite E. reflexivity.
  - right. split; [reflexivity|]. intros Hnil. rewrite Hnil in F.
    simpl in F. discriminate F.
Qed.

(** C9: every Finding of a detector or of the adapter has severity HIGH
    or MEDIUM, none LOW; so the risk level of an analysis is LOW exactly
    when there is no Finding, and the content is safe exactly then. *)
Theorem low_risk_iff_no_findings (openai : option oracle) (content : string) :
  let r := analyzeContent openai content in
  Forall (fun f => Issue.riskLevel f = "HIGH" \/ Issue.riskLevel f = "MEDIUM")
         (Analysis.detectedIssues r)
  /\ (Analysis.riskLevel r = level_name LOW <-> Analysis.detectedIssues r = [])
  /\ (isContentSafe openai content = true <-> Analysis.detectedIssues r = []).
Proof.
  intros r. unfold r, isContentSafe. rewrite analyzeContent_issues.
  assert (Hsev := finding_severity openai content).
  assert (Hlow : Analysis.riskLevel (analyzeContent openai content) = riskLevels.LOW
                 <-> findings openai content = []).
  { destruct (analyzeContent_riskLevel openai content) as [E|[E Hne]]; rewrite E.
    - now apply calculateRiskLevel_low.
    - split; [discriminate | intros; contradiction]. }
  split; [|split].
  - now apply List.Forall_forall.
  - exact Hlow.
  - rewrite String.eqb_eq. exact Hlow.
Qed.

(** C10: without an oracle no Finding has the person-name category: the
    pattern for possible names is in the registry of patterns, and matches
    "John Smith", but no detector runs it; with an oracle, a Finding of
    that category is one of the adapter. *)
Theorem no_person_name_without_oracle (openai : option oracle) (content : string) :
  Forall (fun f => Issue.type f <> Ty.personalName)
         (Analysis.detectedIssues (analyzeContent None content))
  /\ Forall (fun f => Issue.type f = Ty.personalName -> Issue.detectionMethod f = "ai")
            (Analysis.detectedIssues (analyzeContent openai content))
  /\ String_match "John Smith" patterns.possibleNames = Some ["John Smith"]
  /\ Analysis.detectedIssues (analyzeContent None "John Smith") = [].
Proof.
  assert (Hpat : forall c f, In f (patternFindings c) -> Issue.type f <> Ty.personalName).
  { intros c f H.
    apply in_patternFindings in H as (p & type & severity & m & Hr & _ & ->).
    pose proof registry_type as R. rewrite List.Forall_forall in R.
    exact (R _ Hr). }
  rewrite !analyzeContent_issues. split; [|split; [|split]].
  - apply List.Forall_forall. intros f H.
    apply in_findings in H as [H|(o & ai & Ho & _)]; [eauto | discriminate Ho].
  - apply List.Forall_forall. intros f H Hty.
    apply in_findings in H as [H|(o & ai & _ & _ & H)].
    + now elim (Hpat content f H).
    + now apply aiFinding_offset in H.
  - vm_compute. reflexivity.
  - vm_compute. reflexivity.
Qed.

(** *** Suggestions *)

Lemma Ty_eqb_eq (a b : Ty.t) : Ty.eqb a b = true <-> a = b.
Proof. destruct a, b; simpl; split; intros H; congruence. Qed.

Section Unique.

Context {A : Type} (eqb : A -> A -> bool).
Hypothesis eqb_eq : forall x y, eqb x y = true <-> x = y.

Lemma existsb_eqb_In (x : A) (l : list A) : existsb (eqb x) l = true <-> In x l.
Proof.
  rewrite List.existsb_exists. split.
  - intros (y & Hy & E). apply eqb_eq in E. now subst.
  - intros H. exists x. split; [exact H | now apply eqb_eq].
Qed.

Lemma unique_from_In (seen l : list A) (x : A) :
  In x (unique_from eqb seen l) <-> In x l /\ ~ In x seen.
Proof.
  revert seen; induction l as [|y l IH]; intros seen; simpl; [tauto|].
  destruct (existsb (eqb y) seen) eqn:E.
  - apply existsb_eqb_In in E. rewrite IH. split.
    + tauto.
    + intros [[->|H] Hn]; [contradiction | tauto].
  - assert (Hy : ~ In y seen).
    { intros H. apply existsb_eqb_In in H. congruence. }
    simpl. rewrite IH. simpl. split.
    + intros [->|[H Hn]]; [tauto|]. split; [tauto|]. intros Hs. apply Hn. now right.
    + intros [[->|H] Hn]; [now left|].
      destruct (eqb y x) eqn:Eyx.
      * apply eqb_eq in Eyx. now left.
      * right. split; [exact H|]. intros [->|Hs]; [|contradiction].
        assert (eqb x x = true) by now apply eqb_eq. congruence.
Qed.

Lemma unique_from_NoDup (seen l : list A) : List.NoDup (unique_from eqb seen l).
Proof.
  revert seen; induction l as [|y l IH]; intros seen; simpl; [constructor|].
  destruct (existsb (eqb y) seen); [apply IH|].
  constructor; [|apply IH].
  rewrite unique_from_In. intros [_ Hn]. apply Hn. now left.
Qed.

(** A list without repetition is left as it is. *)
Lemma unique_from_id (seen l : list A) :
  List.NoDup l -> (forall x, In x l -> ~ In x seen) -> unique_from eqb seen l = l.
Proof.
  intros Hnd; revert seen; induction Hnd as [|y l Hy Hnd IH]; intros seen Hs;
    simpl; [reflexivity|].
  destruct (existsb (eqb y) seen) eqn:E.
  - apply existsb_eqb_In in E. elim (Hs y); [now left | exact E].
  - f_equal. apply IH. intros x Hx [->|Hin]; [contradiction|].
    apply (Hs x); [now right | exact Hin].
Qed.

(** First-seen order: a new member goes last, a member seen before adds
    nothing. *)
Lemma unique_from_snoc (seen l : list A) (x : A) :
  unique_from eqb seen (l ++ [x]) =
  if existsb (eqb x) seen || existsb (eqb x) l then unique_from eqb seen l
  else (unique_from eqb seen l ++ [x])%list.
Proof.
  revert seen; induction l as [|y l IH]; intros seen; simpl.
  - rewrite orb_false_r. now destruct (existsb (eqb x) seen).
  - destruct (existsb (eqb y) seen) eqn:E.
    + rewrite IH. destruct (eqb x y) eqn:Exy; [|reflexivity].
      apply eqb_eq in Exy. subst y. rewrite E. reflexivity.
    + rewrite IH. simpl.
      replace (eqb x y || existsb (eqb x) seen || existsb (eqb x) l)
        with (existsb (eqb x) seen || (eqb x y || existsb (eqb x) l))
        by (destruct (eqb x y), (existsb (eqb x) seen); reflexivity).
      now destruct (existsb (eqb x) seen || (eqb x y || existsb (eqb x) l)).
Qed.

End Unique.

Lemma suggestionMap_inj (t t' : Ty.t) (s : string) :
  suggestionMap t = Some s -> suggestionMap t' = Some s -> t = t'.
Proof.
  destruct t, t'; simpl; intros H H'; try reflexivity; try discriminate;
    rewrite <- H in H'; discriminate H'.
Qed.

Lemma advice_is_no_warning (t : Ty.t) (s : string) :
  suggestionMap t = Some s ->
  ~ In s highRiskWarnings /\ ~ In s mediumRiskWarnings.
Proof.
  destruct t; simpl; intros H; try discriminate H; injection H as <-;
    split; intros [E|[E|[]]]; discriminate E.
Qed.

Lemma adviceFor_In (ts : list Ty.t) (s : string) :
  In s (adviceFor ts) <-> exists t, In t ts /\ suggestionMap t = Some s.
Proof.
  induction ts as [|t ts IH]; simpl.
  - split; [contradiction | intros (t & [] & _)].
  - destruct (suggestionMap t) as [s0|] eqn:E; simpl; rewrite IH; split.
    + intros [<-|(t' & Ht & Hs)]; [exists t; auto | exists t'; auto].
    + intros (t' & [<-|Ht] & Hs); [left; congruence | right; eauto].
    + intros (t' & Ht & Hs). eauto.
    + intros (t' & [<-|Ht] & Hs); [congruence | eauto].
Qed.

Lemma adviceFor_NoDup (ts : list Ty.t) : List.NoDup ts -> List.NoDup (adviceFor ts).
Proof.
  induction 1 as [|t ts Ht Hnd IH]; simpl; [constructor|].
  destruct (suggestionMap t) as [s|] eqn:E; [|exact IH].
  constructor; [|exact IH].
  rewrite adviceFor_In. intros (t' & Ht' & Hs).
  rewrite (suggestionMap_inj _ _ _ E Hs) in Ht. contradiction.
Qed.

Lemma warnings_NoDup (r : string) : List.NoDup (warnings r).
Proof.
  unfold warnings.
  destruct (String.eqb r _); [|destruct (String.eqb r _)];
    repeat constructor; simpl; intros H;
    repeat (destruct H as [H|H]; try discriminate H); exact H.
Qed.

Lemma warnings_In (r s : string) :
  In s (warnings r) -> In s highRiskWarnings \/ In s mediumRiskWarnings.
Proof.
  unfold warnings.
  destruct (String.eqb r _); [auto|destruct (String.eqb r _)]; [auto|contradiction].
Qed.

(** The order of the advice is the order of the categories: a further
    category adds its entry at the end. *)
Lemma adviceFor_snoc (ts : list Ty.t) (t : Ty.t) :
  adviceFor (ts ++ [t]) = (adviceFor ts ++ entry_of t)%list.
Proof.
  unfold entry_of. induction ts as [|t0 ts IH]; simpl.
  - destruct (suggestionMap t); reflexivity.
  - rewrite IH. destruct (suggestionMap t0); reflexivity.
Qed.

(** C7, as stated, fails: the postal code of "My zip code is 12345" is a
    Finding of a category for which the table has no advice. *)
Lemma no_advice_for_postal_code :
  ~ advice_for_every_category (analyzeContent None "My zip code is 12345").
Proof.
  intros H.
  destruct (H (Issue.Build Ty.zipCode (JStr "12345") "MEDIUM" 15 "pattern"))
    as (s & Hs & _).
  - vm_compute. left. reflexivity.
  - discriminate Hs.
Qed.

(** C7 (amended): the suggestions are, for each distinct category present
    in the Findings that has an entry in the table of advice, that entry,
    in the order in which the categories are first seen (routing number,
    currency amount, postal code and location context have no entry and
    add nothing); then the two warnings of the risk level when it is HIGH
    or MEDIUM; the list has no repetition, and removing duplicates leaves
    its order as it is.  The order is pinned by the laws of the two
    loops: a further Finding adds its category at the end of the
    categories unless it was seen, and a further category adds its entry
    at the end of the advice. *)
Theorem suggestions_for_listed_categories (a : Analysis.t) :
  let findings := Analysis.detectedIssues a in
  generateSuggestions a
    = (adviceFor (categories findings) ++ warnings (Analysis.riskLevel a))%list
  /\ List.NoDup (generateSuggestions a)
  /\ List.NoDup (categories findings)
  /\ (forall t, In t (categories findings) <-> In t (map Issue.type findings))
  /\ (forall l f,
        categories (l ++ [f]) =
        if existsb (Ty.eqb (Issue.type f)) (map Issue.type l) then categories l
        else (categories l ++ [Issue.type f])%list)
  /\ (forall s, In s (adviceFor (categories findings)) <->
                exists f, In f findings /\ suggestionMap (Issue.type f) = Some s)
  /\ adviceFor [] = []
  /\ (forall ts t, adviceFor (ts ++ [t]) = (adviceFor ts ++ entry_of t)%list)
  /\ warnings "high"
     = ["HIGH RISK: This content contains sensitive information that should not be posted publicly";
        "Consider rewriting the content to remove all personal identifiers"]
  /\ warnings "medium"
     = ["MEDIUM RISK: Review the content for potentially sensitive information";
        "Consider using more general terms instead of specific details"]
  /\ (forall r, r <> "high" -> r <> "medium" -> warnings r = []).
Proof.
  intros findings.
  assert (Hcat : forall t, In t (categories findings) <-> In t (map Issue.type findings)).
  { intros t. unfold categories, unique. rewrite (unique_from_In Ty.eqb Ty_eqb_eq).
    simpl. tauto. }
  assert (Hnd : List.NoDup (categories findings)) by apply unique_from_NoDup, Ty_eqb_eq.
  assert (Hall : List.NoDup (adviceFor (categories findings)
                          ++ warnings (Analysis.riskLevel a))%list).
  { apply List.NoDup_app.
    - now apply adviceFor_NoDup.
    - apply warnings_NoDup.
    - intros s Hs Hw. apply adviceFor_In in Hs as (t & _ & Hs).
      apply advice_is_no_warning in Hs as [H1 H2].
      apply warnings_In in Hw as [Hw|Hw]; contradiction. }
  assert (Heq : generateSuggestions a
                = (adviceFor (categories findings)
                     ++ warnings (Analysis.riskLevel a))%list).
  { unfold generateSuggestions. fold findings. fold (categories findings).
    transitivity (unique String.eqb
                    (adviceFor (categories findings)
                       ++ warnings (Analysis.riskLevel a))%list).
    - unfold warnings, level_name.
      destruct (String.eqb (Analysis.riskLevel a) riskLevels.HIGH); [reflexivity|].
      destruct (String.eqb (Analysis.riskLevel a) riskLevels.MEDIUM);
        [reflexivity | now rewrite List.app_nil_r].
    - apply (unique_from_id String.eqb String.eqb_eq); [exact Hall | auto]. }
  repeat split.
  - exact Heq.
  - rewrite Heq. exact Hall.
  - exact Hnd.
  - apply Hcat.
  - apply Hcat.
  - intros l f. unfold categories, unique. rewrite List.map_app. simpl.
    now rewrite (unique_from_snoc Ty.eqb Ty_eqb_eq).
  - intros Hs. apply adviceFor_In in Hs as (t & Ht & Hs).
    apply Hcat, List.in_map_iff in Ht as (f & <- & Hf). eauto.
  - intros (f & Hf & Hs). apply adviceFor_In. exists (Issue.type f).
    split; [|exact Hs]. apply Hcat. now apply List.in_map.
  - apply adviceFor_snoc.
  - intros r Hh Hm. unfold warnings, level_name, riskLevels.HIGH, riskLevels.MEDIUM.
    apply String.eqb_neq in Hh, Hm. now rewrite Hh, Hm.
Qed.

(** *** The organization-name detector *)

Section Inversion.

Variable icase : bool.

Lemma Matches_seq_inv r1 r2 prev w rest :
  Matches icase (RSeq r1 r2) prev w rest ->
  exists w1 w2,
    w = w1 ++ w2 /\ Matches icase r1 prev w1 (w2 ++ rest) /\
    Matches icase r2 (last_char prev w1) w2 rest.
Proof. intros H. inversion H; subst. eauto. Qed.

Lemma Matches_wordb_inv prev w rest :
  Matches icase RWordB prev w rest -> w = "" /\ boundary prev rest = true.
Proof. intros H. inversion H; subst. auto. Qed.

(** A quantified class reads characters of the class, at least [min] of
    them. *)
Lemma Matches_rep_class r0 prev w rest :
  Matches icase r0 prev w rest ->
  forall min max cs, r0 = RRep min max (RClass cs) ->
    all_chars (class_mem icase cs) w = true /\ (min <= String.length w)%nat.
Proof.
  induction 1 as [| | | | | |mx r prev rest
                 |mn mx r prev w1 w2 rest Hmx H1 _ H2 IH2|];
    intros min0 max0 cs0 E; try discriminate E.
  - injection E as <- <- ->. split; [reflexivity | simpl; lia].
  - injection E as -> -> ->.
    destruct (IH2 _ _ _ eq_refl) as [Hall Hlen].
    inversion H1; subst. simpl. split.
    + apply andb_true_iff. auto.
    + lia.
Qed.

Lemma Matches_ralt (l : list regex) prev w rest :
  Matches icase (ralt l) prev w rest ->
  exists r, In r l /\ Matches icase r prev w rest.
Proof.
  induction l as [|r l IH]; intros H.
  - simpl in H. inversion H; subst. discriminate.
  - destruct l as [|r' l].
    + exists r. split; [now left | exact H].
    + change (ralt (r :: r' :: l)) with (RAlt r (ralt (r' :: l))) in H.
      inversion H; subst.
      * exists r. split; [now left | assumption].
      * destruct IH as (r0 & Hin & Hr0); [assumption|].
        exists r0. split; [now right | exact Hr0].
Qed.

End Inversion.

Lemma char_mem_upper (a c : ascii) :
  char_mem true a c = true -> to_upper c = to_upper a.
Proof.
  unfold char_mem, cset_mem. intros H. apply orb_true_iff in H as [H|H].
  - apply Ascii.eqb_eq in H. now subst.
  - simpl in H. apply Ascii.eqb_eq in H. now symmetry.
Qed.

(** Without regard to case, a literal reads itself. *)
Lemma Matches_rstr (s : string) :
  forall prev w rest, Matches true (rstr s) prev w rest -> upper w = upper s.
Proof.
  induction s as [|c s IH]; intros prev w rest H.
  - simpl in H. inversion H; subst. reflexivity.
  - destruct s as [|c' s].
    + simpl in H. inversion H; subst. simpl. f_equal. now apply char_mem_upper.
    + change (rstr (String c (String c' s)))
        with (RSeq (RChar c) (rstr (String c' s))) in H.
      apply Matches_seq_inv in H as (w1 & w2 & -> & H1 & H2).
      inversion H1; subst. apply IH in H2.
      change (upper (String c (String c' s)))
        with (String (to_upper c) (upper (String c' s))).
      rewrite <- H2. simpl. f_equal. now apply char_mem_upper.
Qed.

Lemma all_chars_ext (f g : ascii -> bool) (s : string) :
  (forall c, f c = g c) -> all_chars f s = all_chars g s.
Proof. intros E. induction s as [|c s IH]; simpl; [reflexivity | now rewrite E, IH]. Qed.

(** What the pattern of the detector reads. *)
Lemma companyPattern_match (prev : option ascii) (m rest : string) :
  Matches true (expr companyPattern) prev m rest ->
  exists word gap suffix indicator,
    m = word ++ gap ++ suffix
    /\ word <> "" /\ all_chars is_word word = true
    /\ gap <> "" /\ all_chars is_space gap = true
    /\ In indicator companyIndicators
    /\ upper suffix = upper indicator.
Proof.
  change (expr companyPattern)
    with (RSeq RWordB
            (RSeq (plus w)
               (RSeq (plus sp)
                  (RSeq (ralt (map rstr companyIndicators)) RWordB)))).
  intros H.
  apply Matches_seq_inv in H as (w0 & m1 & -> & H0 & H).
  apply Matches_wordb_inv in H0 as [-> _].
  apply Matches_seq_inv in H as (word & m2 & -> & Hword & H).
  apply Matches_seq_inv in H as (gap & m3 & -> & Hgap & H).
  apply Matches_seq_inv in H as (suffix & w4 & -> & Hsuffix & H).
  apply Matches_wordb_inv in H as [-> _].
  apply (Matches_rep_class true) with (min := 1%nat) (max := None) (cs := [CWord])
    in Hword as [Hword Hwlen]; [|reflexivity].
  apply (Matches_rep_class true) with (min := 1%nat) (max := None) (cs := [CSpace])
    in Hgap as [Hgap Hglen]; [|reflexivity].
  apply Matches_ralt in Hsuffix as (r & Hr & Hsuffix).
  apply List.in_map_iff in Hr as (indicator & <- & Hind).
  apply Matches_rstr in Hsuffix.
  exists word, gap, suffix, indicator.
  rewrite app_empty_r. simpl. repeat split; try assumption.
  - intros ->. simpl in Hwlen. lia.
  - rewrite <- Hword. apply all_chars_ext. intros c. simpl. now rewrite orb_false_r.
  - intros ->. simpl in Hglen. lia.
  - rewrite <- Hgap. apply all_chars_ext. intros c. simpl. now rewrite orb_false_r.
Qed.

(** No word character is white space, and the case of a character does
    not decide whether it is a word character. *)
Lemma word_not_space (c : ascii) : is_word c = true -> is_space c = false.
Proof.
  destruct c as [[] [] [] [] [] [] [] []]; vm_compute; intros H;
    try reflexivity; discriminate H.
Qed.

Lemma is_word_to_upper (c : ascii) : is_word (to_upper c) = is_word c.
Proof. destruct c as [[] [] [] [] [] [] [] []]; vm_compute; reflexivity. Qed.

Lemma all_chars_upper (s : string) :
  all_chars is_word (upper s) = all_chars is_word s.
Proof.
  induction s as [|c s IH]; simpl; [reflexivity|].
  now rewrite is_word_to_upper, IH.
Qed.

Lemma indicators_are_words :
  Forall (fun i => i <> "" /\ all_chars is_word i = true) companyIndicators.
Proof.
  unfold companyIndicators.
  repeat (apply List.Forall_cons; [split; [discriminate | reflexivity]|]).
  apply List.Forall_nil.
Qed.

(** A suffix in any case is a word of its own. *)
Lemma suffix_is_word (suffix indicator : string) :
  In indicator companyIndicators -> upper suffix = upper indicator ->
  suffix <> "" /\ all_chars is_word suffix = true.
Proof.
  intros Hin Hu. pose proof indicators_are_words as F.
  rewrite List.Forall_forall in F. destruct (F _ Hin) as [Hne Hw]. split.
  - intros ->. destruct indicator; [congruence | discriminate Hu].
  - now rewrite <- all_chars_upper, Hu, all_chars_upper.
Qed.

Lemma head_run (P : ascii -> bool) (a b : string) :
  a <> "" -> all_chars P a = true ->
  exists c, Regex.head (a ++ b) = Some c /\ P c = true.
Proof.
  destruct a as [|c a]; [congruence|]. simpl. intros _ H.
  apply andb_true_iff in H as [H _]. eauto.
Qed.

(** A run of characters of one kind that ends where the kind ends is
    determined by the text it starts. *)
Lemma run_split (P : ascii -> bool) (a1 a2 x1 x2 : string) :
  all_chars P a1 = true -> all_chars P a2 = true ->
  (forall c, Regex.head x1 = Some c -> P c = false) ->
  (forall c, Regex.head x2 = Some c -> P c = false) ->
  a1 ++ x1 = a2 ++ x2 -> a1 = a2 /\ x1 = x2.
Proof.
  revert a2; induction a1 as [|c a1 IH]; intros [|c2 a2] H1 H2 N1 N2 E;
    simpl in *.
  - auto.
  - subst x1. apply andb_true_iff in H2 as [H2 _].
    rewrite (N1 c2 eq_refl) in H2. discriminate H2.
  - subst x2. apply andb_true_iff in H1 as [H1 _].
    rewrite (N2 c eq_refl) in H1. discriminate H1.
  - injection E as -> E.
    apply andb_true_iff in H1 as [_ H1]. apply andb_true_iff in H2 as [_ H2].
    destruct (IH a2 H1 H2 N1 N2 E) as [-> ->]. auto.
Qed.

Lemma word_at_last (prev : option ascii) (s : string) :
  s <> "" -> all_chars is_word s = true -> word_at (last_char prev s) = true.
Proof.
  revert prev; induction s as [|c s IH]; intros prev Hne H; [congruence|].
  simpl in H. apply andb_true_iff in H as [Hc H].
  destruct s as [|c' s]; [exact Hc|].
  apply (IH (Some c)); [discriminate | exact H].
Qed.

(** Texts of the language, built from their parts. *)
Lemma Matches_star_class (icase : bool) (cs : list cset) (word : string) :
  forall prev rest,
    all_chars (class_mem icase cs) word = true ->
    Matches icase (RRep 0 None (RClass cs)) prev word rest.
Proof.
  induction word as [|c t IH]; intros prev rest H.
  - apply M_rep_stop.
  - simpl in H. apply andb_true_iff in H as [Hc H].
    change (String c t) with (String c "" ++ t).
    apply (M_rep_iter icase 0 None (RClass cs) prev (String c "") t rest);
      [discriminate | now apply M_class | now apply IH].
Qed.

Lemma Matches_plus_class (icase : bool) (cs : list cset) (word : string)
    (prev : option ascii) (rest : string) :
  word <> "" -> all_chars (class_mem icase cs) word = true ->
  Matches icase (plus (RClass cs)) prev word rest.
Proof.
  destruct word as [|c t]; [congruence|]. intros _ H.
  simpl in H. apply andb_true_iff in H as [Hc H].
  change (String c t) with (String c "" ++ t).
  apply (M_rep_iter icase 1 None (RClass cs) prev (String c "") t rest);
    [discriminate | now apply M_class | now apply Matches_star_class].
Qed.

Lemma Matches_rstr_intro (s : string) :
  forall v prev rest,
    s <> "" -> upper v = upper s -> Matches true (rstr s) prev v rest.
Proof.
  induction s as [|c s IH]; intros v prev rest Hne Hu; [congruence|].
  destruct v as [|x v]; [discriminate Hu|].
  simpl in Hu. injection Hu as Hx Hu.
  assert (Hm : char_mem true c x = true).
  { unfold char_mem, cset_mem. rewrite Hx, Ascii.eqb_refl. apply orb_true_r. }
  destruct s as [|c' s].
  - destruct v; [|discriminate Hu]. simpl. now apply M_char.
  - change (rstr (String c (String c' s)))
      with (RSeq (RChar c) (rstr (String c' s))).
    change (String x v) with (String x "" ++ v).
    apply M_seq; [now apply M_char | apply IH; [discriminate | exact Hu]].
Qed.

Lemma Matches_ralt_intro (icase : bool) (l : list regex) (r : regex)
    (prev : option ascii) (v rest : string) :
  In r l -> Matches icase r prev v rest -> Matches icase (ralt l) prev v rest.
Proof.
  induction l as [|r0 l IH]; intros Hin M; [contradiction|].
  destruct l as [|r1 l].
  - destruct Hin as [->|[]]. exact M.
  - change (ralt (r0 :: r1 :: l)) with (RAlt r0 (ralt (r1 :: l))).
    destruct Hin as [->|Hin]; [now apply M_alt_l | apply M_alt_r, IH; assumption].
Qed.

(** The pattern of the detector reads a word, white space and a suffix
    between two word boundaries. *)
Lemma companyPattern_reads (prev : option ascii)
    (word gap suffix indicator rest : string) :
  word <> "" -> all_chars is_word word = true ->
  gap <> "" -> all_chars is_space gap = true ->
  In indicator companyIndicators -> upper suffix = upper indicator ->
  word_at prev = false -> word_at (Regex.head rest) = false ->
  Matches true (expr companyPattern) prev (word ++ gap ++ suffix) rest.
Proof.
  intros Hw1 Hw2 Hg1 Hg2 Hin Hu Hp Hr.
  destruct (suffix_is_word _ _ Hin Hu) as [Hs1 Hs2].
  pose proof indicators_are_words as F. rewrite List.Forall_forall in F.
  destruct (F _ Hin) as [Hi _].
  change (expr companyPattern)
    with (RSeq RWordB
            (RSeq (plus w)
               (RSeq (plus sp)
                  (RSeq (ralt (map rstr companyIndicators)) RWordB)))).
  replace (word ++ gap ++ suffix) with ("" ++ word ++ gap ++ suffix ++ "")
    by (simpl; now rewrite app_empty_r).
  apply M_seq.
  - apply M_wordb. destruct word as [|c0 word0]; [congruence|].
    simpl in Hw2. apply andb_true_iff in Hw2 as [Hc0 _].
    unfold boundary. simpl. now rewrite Hp, Hc0.
  - apply M_seq.
    { apply Matches_plus_class; [exact Hw1|].
      rewrite <- Hw2. apply all_chars_ext. intros c. simpl. apply orb_false_r. }
    apply M_seq.
    { apply Matches_plus_class; [exact Hg1|].
      rewrite <- Hg2. apply all_chars_ext. intros c. simpl. apply orb_false_r. }
    apply M_seq.
    { apply (Matches_ralt_intro true _ (rstr indicator));
        [now apply List.in_map | now apply Matches_rstr_intro]. }
    apply M_wordb. unfold boundary.
    now rewrite (word_at_last _ suffix Hs1 Hs2), Hr.
Qed.

(** What the pattern reads, with the two word boundaries kept. *)
Lemma companyPattern_inv (prev : option ascii) (m rest : string) :
  Matches true (expr companyPattern) prev m rest ->
  word_at prev = false /\ word_at (Regex.head rest) = false
  /\ exists word gap suffix indicator,
       m = word ++ gap ++ suffix
       /\ word <> "" /\ all_chars is_word word = true
       /\ gap <> "" /\ all_chars is_space gap = true
       /\ In indicator companyIndicators
       /\ upper suffix = upper indicator.
Proof.
  change (expr companyPattern)
    with (RSeq RWordB
            (RSeq (plus w)
               (RSeq (plus sp)
                  (RSeq (ralt (map rstr companyIndicators)) RWordB)))).
  intros H.
  apply Matches_seq_inv in H as (w0 & m1 & -> & H0 & H).
  apply Matches_wordb_inv in H0 as [-> Hb0].
  apply Matches_seq_inv in H as (word & m2 & -> & Hword & H).
  apply Matches_seq_inv in H as (gap & m3 & -> & Hgap & H).
  apply Matches_seq_inv in H as (suffix & w4 & -> & Hsuffix & H).
  apply Matches_wordb_inv in H as [-> Hb1].
  apply (Matches_rep_class true) with (min := 1%nat) (max := None) (cs := [CWord])
    in Hword as [Hword Hwlen]; [|reflexivity].
  apply (Matches_rep_class true) with (min := 1%nat) (max := None) (cs := [CSpace])
    in Hgap as [Hgap Hglen]; [|reflexivity].
  apply Matches_ralt in Hsuffix as (r & Hr & Hsuffix).
  apply List.in_map_iff in Hr as (indicator & <- & Hind).
  apply Matches_rstr in Hsuffix.
  assert (Hw2 : all_chars is_word word = true).
  { rewrite <- Hword. apply all_chars_ext. intros c. simpl. now rewrite orb_false_r. }
  assert (Hg2 : all_chars is_space gap = true).
  { rewrite <- Hgap. apply all_chars_ext. intros c. simpl. now rewrite orb_false_r. }
  destruct (suffix_is_word _ _ Hind Hsuffix) as [Hs1 Hs2].
  split; [|split].
  - destruct word as [|c0 word0]; [simpl in Hwlen; lia|].
    simpl in Hw2. apply andb_true_iff in Hw2 as [Hc0 _].
    unfold boundary in Hb0. simpl in Hb0. rewrite Hc0 in Hb0.
    destruct (word_at prev); [discriminate Hb0 | reflexivity].
  - unfold boundary in Hb1. rewrite (word_at_last _ suffix Hs1 Hs2) in Hb1.
    destruct (word_at (Regex.head rest)); [discriminate Hb1 | reflexivity].
  - exists word, gap, suffix, indicator.
    rewrite app_empty_r. simpl. repeat split; try assumption.
    + intros ->. simpl in Hwlen. lia.
    + intros ->. simpl in Hglen. lia.
Qed.

(** At one place the pattern reads at most one text: the word, the white
    space and the suffix are the whole runs found there. *)
Lemma companyPattern_unique (prev : option ascii) (m1 rest1 m2 rest2 : string) :
  Matches true (expr companyPattern) prev m1 rest1 ->
  Matches true (expr companyPattern) prev m2 rest2 ->
  m1 ++ rest1 = m2 ++ rest2 -> m1 = m2.
Proof.
  intros M1 M2 E.
  apply companyPattern_inv in M1
    as (_ & Hr1 & word1 & gap1 & suffix1 & i1 & -> & Hw1 & Hw1' & Hg1 & Hg1' & Hi1 & Hu1).
  apply companyPattern_inv in M2
    as (_ & Hr2 & word2 & gap2 & suffix2 & i2 & -> & Hw2 & Hw2' & Hg2 & Hg2' & Hi2 & Hu2).
  destruct (suffix_is_word _ _ Hi1 Hu1) as [Hs1 Hs1'].
  destruct (suffix_is_word _ _ Hi2 Hu2) as [Hs2 Hs2'].
  rewrite !app_assoc in E.
  assert (Nspace : forall gap x c,
            gap <> "" -> all_chars is_space gap = true ->
            Regex.head (gap ++ x) = Some c -> is_word c = false).
  { intros gap x c Hne Hall Hc.
    destruct (head_run is_space gap x Hne Hall) as (c' & Hc' & Hsp).
    rewrite Hc in Hc'. injection Hc' as <-.
    destruct (is_word c) eqn:Ew; [|reflexivity].
    apply word_not_space in Ew. congruence. }
  assert (Nword : forall suffix x c,
            suffix <> "" -> all_chars is_word suffix = true ->
            Regex.head (suffix ++ x) = Some c -> is_space c = false).
  { intros suffix x c Hne Hall Hc.
    destruct (head_run is_word suffix x Hne Hall) as (c' & Hc' & Hwd).
    rewrite Hc in Hc'. injection Hc' as <-. now apply word_not_space. }
  assert (Nend : forall rest c,
            word_at (Regex.head rest) = false ->
            Regex.head rest = Some c -> is_word c = false).
  { intros rest c Hr Hc. now rewrite Hc in Hr. }
  apply (run_split is_word) in E as [-> E]; eauto.
  apply (run_split is_space) in E as [-> E]; eauto.
  apply (run_split is_word) in E as [-> _]; eauto.
Qed.

Lemma matches_of_scan (content : string) (p : pattern) :
  matches_of content p = scan (ignoreCase p) (expr p) None content O.
Proof.
  unfold matches_of, String_match.
  now destruct (scan (ignoreCase p) (expr p) None content O).
Qed.

(** C8, as stated, fails: the pattern has the [i] flag and its word is
    any run of word characters, so "acme inc" is reported. *)
Lemma lower_case_company_is_reported : ~ reports_capitalized_words "acme inc".
Proof.
  intros H.
  destruct (H (Issue.Build Ty.companyName (JStr "acme inc") "MEDIUM" 0 "pattern"))
    as (v & Hv & Hc).
  - vm_compute. left. reflexivity.
  - injection Hv as <-. vm_compute in Hc. discriminate Hc.
Qed.

(** C8 (amended): the organization-name detector matches a word (a run of
    word characters, of either case), white space, and one of the fixed
    vocabulary of business-entity suffixes compared without regard to
    case; every Finding it emits has the organization-name category,
    severity MEDIUM and source pattern.  In both directions: what is
    emitted is such a name lying in the text between two word
    boundaries, and every such name in the text is emitted, unless it
    starts inside a name emitted from a place before it, where the
    global match passes over it. *)
Theorem company_detector_findings (content : string) (a : Analysis.t) :
  exists emitted,
    Analysis.detectedIssues (detectCompanyNames content a)
    = (Analysis.detectedIssues a ++ emitted)%list
    /\ Forall company_finding emitted
    /\ (forall pre value post,
          company_occurrence content pre value post ->
          In (patternFinding content Ty.companyName "MEDIUM" value) emitted
          \/ passed_over content pre emitted)
    /\ (forall f, In f emitted ->
          exists pre value post,
            f = patternFinding content Ty.companyName "MEDIUM" value
            /\ company_occurrence content pre value post).
Proof.
  rewrite detectCompanyNames_pushAll.
  exists (detect content (companyPattern, Ty.companyName, "MEDIUM")).
  split; [reflexivity|]. split; [|split].
  - apply List.Forall_forall. intros f Hf. unfold detect in Hf.
    apply List.in_map_iff in Hf as (m & <- & Hm).
    apply matches_of_occur in Hm as (pre & post & _ & Hm).
    apply companyPattern_match in Hm
      as (word & gap & suffix & indicator & -> & H).
    unfold company_finding, patternFinding. simpl. repeat split.
    exists word, gap, suffix, indicator. split; [reflexivity | exact H].
  - intros pre value post
      (Hc & Hp & Hr & word & gap & suffix & indicator & -> & Hw1 & Hw2
          & Hg1 & Hg2 & Hin & Hu).
    assert (M : Matches true (expr companyPattern) (last_char None pre)
                  (word ++ gap ++ suffix) post)
      by (now apply (companyPattern_reads _ word gap suffix indicator)).
    unfold passed_over, detect. rewrite matches_of_scan, Hc.
    destruct (scan_complete true (expr companyPattern) pre
                (word ++ gap ++ suffix) post None O (Nat.le_0_l _) M)
      as [H|(before & m0 & after & E & H & Hlt)].
    + intros m' rest' E' M'.
      apply (companyPattern_unique _ _ _ _ _ M' M). now symmetry.
    + left. now apply List.in_map.
    + right. exists before, m0, after.
      split; [exact E|]. split; [now apply List.in_map | exact Hlt].
  - intros f Hf. unfold detect in Hf.
    apply List.in_map_iff in Hf as (m & <- & Hm).
    apply matches_of_occur in Hm as (pre & post & Hc & Hm).
    exists pre, m, post. split; [reflexivity|].
    apply companyPattern_inv in Hm as (Hp & Hr & H).
    unfold company_occurrence. auto.
Qed.

(** A name in lower case with a tabulator for white space is emitted. *)
Lemma company_detector_findings_witness :
  let content := String.append "acme" (String (ascii_of_nat 9) "inc") in
  In (patternFinding content Ty.companyName "MEDIUM" content)
     (Analysis.detectedIssues (detectCompanyNames content (newAnalysis content))).
Proof.
  intros content.
  destruct (company_detector_findings content (newAnalysis content))
    as (emitted & -> & _ & Hall & _).
  apply List.in_or_app. right.
  destruct (Hall "" content "") as [H|(before & m & after & _ & _ & Hlt)].
  - unfold company_occurrence. repeat split.
    exists "acme", (String (ascii_of_nat 9) ""), "inc", "Inc".
    repeat split; try discriminate.
    simpl. now left.
  - exact H.
  - simpl in Hlt. lia.
Defined.

(** The test of the repository: two capitalized names are reported. *)
Example company_detector_on_test_input :
  map Issue.value
      (Analysis.detectedIssues
         (detectCompanyNames "I work at Acme Corp and Microsoft Inc"
            (newAnalysis "I work at Acme Corp and Microsoft Inc")))
  = [JStr "Acme Corp"; JStr "Microsoft Inc"].
Proof. vm_compute. reflexivity. Qed.

End Claims.

(** * The scenarios of the test suite

    The embedding evaluated on texts of [PrivacyFilter.test.js], with the
    results the tests expect. *)

Module Tests.

Import PrivacyFilter Spec.

Example should_detect_email_addresses :
  let a := analyzeContent None "Contact me at john.doe@example.com for more info" in
  Analysis.detectedIssues a
    = [Issue.Build Ty.email (JStr "john.doe@example.com") "HIGH" 14 "pattern"]
  /\ Analysis.filteredContent a = "Contact me at [EMAIL_REDACTED] for more info".
Proof. vm_compute. split; reflexivity. Qed.

Example should_detect_phone_numbers :
  values (analyzeContent None "Call me at (555) 123-4567 or 555-987-6543")
  = [JStr "(555) 123-4567"; JStr "555-987-6543"].
Proof. vm_compute. reflexivity. Qed.

Example should_detect_Social_Security_Numbers :
  let a := analyzeContent None "My SSN is 123-45-6789" in
  Analysis.detectedIssues a
    = [Issue.Build Ty.ssn (JStr "123-45-6789") "HIGH" 10 "pattern"]
  /\ Analysis.riskLevel a = "high".
Proof. vm_compute. split; reflexivity. Qed.

Example should_detect_zip_codes :
  let a := analyzeContent None "My zip code is 12345 and office is at 90210-1234" in
  types a = [Ty.zipCode; Ty.zipCode]
  /\ values a = [JStr "12345"; JStr "90210-1234"].
Proof. vm_compute. split; reflexivity. Qed.

Example should_detect_currency_amounts :
  values (analyzeContent None "The deal is worth $1,234.56 and we spent $500")
  = [JStr "$1,234.56"; JStr "$500"].
Proof. vm_compute. reflexivity. Qed.

Example should_filter_out_sensitive_information :
  let a := analyzeContent None "Email me at test@example.com or call (555) 123-4567" in
  Analysis.filteredContent a = "Email me at [EMAIL_REDACTED] or call [PHONE_REDACTED]"
  /\ size (Analysis.anonymizationMap a) = 2%nat.
Proof. vm_compute. split; reflexivity. Qed.

Example should_handle_multiple_occurrences_of_same_pattern :
  let a := analyzeContent None "Email john@test.com and mary@test.com" in
  Analysis.filteredContent a = "Email [EMAIL_REDACTED] and [EMAIL_REDACTED]"
  /\ length (Analysis.detectedIssues a) = 2%nat.
Proof. vm_compute. split; reflexivity. Qed.

Example should_return_MEDIUM_risk_for_some_location_data :
  Analysis.riskLevel (analyzeContent None "I work at 123 Main Street in Springfield")
  = "medium".
Proof. vm_compute. reflexivity. Qed.

Example should_return_HIGH_risk_for_multiple_medium_risks :
  Analysis.riskLevel
    (analyzeContent None "Office at 123 Main St, zip 12345, in Springfield near downtown")
  = "high".
Proof. vm_compute. reflexivity. Qed.

Example should_handle_empty_content :
  analyzeContent None "" = newAnalysis "".
Proof. vm_compute. reflexivity. Qed.

Example should_respect_privacy_filter_disabled :
  filterContent None None "My email is test@example.com"
    {| enablePrivacyFilter := Some false; forcePrivacyFilter := None |}
  = FilterResult.Build "My email is test@example.com" None false.
Proof. reflexivity. Qed.

Example should_force_privacy_filter_with_option :
  FilterResult.filteredContent
    (filterContent None None "My email is test@example.com"
       {| enablePrivacyFilter := None; forcePrivacyFilter := Some true |})
  = "My email is [EMAIL_REDACTED]".
Proof. vm_compute. reflexivity. Qed.

Example should_check_if_content_is_safe :
  isContentSafe None "This is a safe post about technology" = true
  /\ isContentSafe None "My email is test@example.com" = false.
Proof. vm_compute. split; reflexivity. Qed.

End Tests.

(** * Further properties of the code *)

Module Extras.

Import Text TextFacts Regex RegexFacts PrivacyFilter Spec Notions.
Import FindingFacts RedactionFacts AnalysisFacts.

(** ** How an analysis ends *)

Lemma applyFilters_forEach_null (l : list Issue.t) :
  forall text a,
    (exists f, In f l /\ null_located f) ->
    exists e a', applyFilters_forEach l text a = (Throw e, a').
Proof.
  induction l as [|g l IH]; intros text a (f & Hin & Hnull & Hpos);
    [contradiction|].
  cbn [applyFilters_forEach].
  destruct (Z.leb_spec 0 (Issue.position g)) as [Hg|Hg].
  - destruct (Issue.value g) as [v|] eqn:Hv.
    + unfold mbind, M_bind, bind, update.
      destruct Hin as [->|Hin]; [congruence|].
      destruct (IH (substring text 0 (Issue.position g) ++
                    getReplacementText g ++
                    substring_from text (Issue.position g + len v))
                   (Analysis.map_set v (getReplacementText g) a)) as (e & a' & E).
      { exists f. repeat split; assumption. }
      rewrite E. eauto.
    + unfold throw. eauto.
  - destruct Hin as [->|Hin]; [lia|].
    apply IH. exists f. repeat split; assumption.
Qed.

Lemma analyzeContent_error (openai : option oracle) (content : string) :
  (Analysis.error (analyzeContent openai content) = None
   /\ exists filtered a,
        applyFilters_forEach
          (Array_sort byPositionDesc (findings openai content)) content
          (detected openai content) = (Ok filtered, a))
  \/ (Analysis.error (analyzeContent openai content) = Some "Privacy analysis failed"
      /\ exists e a,
           applyFilters_forEach
             (Array_sort byPositionDesc (findings openai content)) content
             (detected openai content) = (Throw e, a)).
Proof.
  rewrite analyzeContent_unfold.
  pose proof (applyFilters_forEach_state
                (Array_sort byPositionDesc (findings openai content)) content
                (detected openai content)) as E.
  destruct (applyFilters_forEach _ _ _) as [[x|e] a]; simpl in E.
  - left. split; [rewrite E; reflexivity | eauto].
  - right. split; [reflexivity | eauto].
Qed.

Lemma error_iff_null_located (openai : option oracle) (content : string) :
  Analysis.error (analyzeContent openai content) = Some "Privacy analysis failed"
  <-> exists f, In f (Analysis.detectedIssues (analyzeContent openai content))
                /\ null_located f.
Proof.
  rewrite analyzeContent_issues. split.
  - intros H. destruct (analyzeContent_error openai content)
      as [[E _]|[_ (e & a & F)]]; [congruence|].
    apply applyFilters_forEach_throw in F as (f & Hf & Hnull & Hpos).
    exists f. split; [|split; assumption].
    eapply Permutation_in; [apply Array_sort_perm | exact Hf].
  - intros (f & Hf & Hnull).
    destruct (analyzeContent_error openai content)
      as [[_ (x & a & F)]|[E _]]; [|exact E].
    destruct (applyFilters_forEach_null
                (Array_sort byPositionDesc (findings openai content)) content
                (detected openai content)) as (e & a' & F').
    { exists f. split; [|exact Hnull].
      eapply Permutation_in; [symmetry; apply Array_sort_perm | exact Hf]. }
    congruence.
Qed.

Lemma no_error_iff_none_located (openai : option oracle) (content : string) :
  Analysis.error (analyzeContent openai content) = None
  <-> ~ exists f, In f (Analysis.detectedIssues (analyzeContent openai content))
                  /\ null_located f.
Proof.
  rewrite <- error_iff_null_located.
  destruct (analyzeContent_error openai content) as [[E _]|[E _]]; rewrite E;
    split; congruence.
Qed.

(** X1: the analysis ends in the failure branch exactly when some Finding
    has a [null] value and an offset that is not negative; without an
    oracle it never does. *)
Theorem analysis_fails_iff_null_located (openai : option oracle) (content : string) :
  (Analysis.error (analyzeContent openai content) = Some "Privacy analysis failed"
   <-> exists f, In f (Analysis.detectedIssues (analyzeContent openai content))
                 /\ null_located f)
  /\ (Analysis.error (analyzeContent openai content) = None
      <-> ~ exists f, In f (Analysis.detectedIssues (analyzeContent openai content))
                      /\ null_located f)
  /\ Analysis.error (analyzeContent None content) = None.
Proof.
  split; [apply error_iff_null_located | split; [apply no_error_iff_none_located|]].
  apply no_error_iff_none_located.
  rewrite analyzeContent_issues. intros (f & Hf & Hnull & _).
  apply in_findings in Hf as [Hf|(o & ai & Ho & _)]; [|discriminate Ho].
  apply patternFinding_offset in Hf as (_ & m & Hv & _). congruence.
Qed.

(** X2: an analysis whose result has no Finding returns the analysis object
    as it was created: the text unchanged, risk low, no suggestion, an
    empty map and no error. *)
Theorem no_finding_nothing_changed (openai : option oracle) (content : string) :
  Analysis.detectedIssues (analyzeContent openai content) = [] ->
  analyzeContent openai content = newAnalysis content.
Proof.
  rewrite analyzeContent_issues. intros H.
  rewrite analyzeContent_unfold. unfold detected. rewrite H. reflexivity.
Qed.

Lemma no_finding_nothing_changed_witness :
  analyzeContent None "Just posted about my latest project on GitHub"
  = newAnalysis "Just posted about my latest project on GitHub".
Proof.
  apply (no_finding_nothing_changed None
           "Just posted about my latest project on GitHub").
  vm_compute. reflexivity.
Defined.

(** X3: when the request to the oracle fails, or its answer cannot be
    parsed, the analysis is the one made without an oracle. *)
Theorem oracle_failure_is_pattern_only (o : oracle) (content : string) :
  o content = None ->
  analyzeContent (Some o) content = analyzeContent None content.
Proof.
  intros H. rewrite !analyzeContent_unfold. unfold detected, findings.
  rewrite H. reflexivity.
Qed.

Lemma oracle_failure_is_pattern_only_witness :
  analyzeContent (Some (fun _ => None)) "My SSN is 123-45-6789"
  = analyzeContent None "My SSN is 123-45-6789".
Proof.
  apply (oracle_failure_is_pattern_only (fun _ => None) "My SSN is 123-45-6789").
  reflexivity.
Defined.

(** X4: the Findings of the oracle come after those of the detectors, which
    are the same with and without it. *)
Theorem oracle_findings_are_appended (openai : option oracle) (content : string) :
  exists added,
    Analysis.detectedIssues (analyzeContent openai content)
    = (Analysis.detectedIssues (analyzeContent None content) ++ added)%list
    /\ Forall (fun f => Issue.detectionMethod f = "ai") added
    /\ Forall (fun f => Issue.detectionMethod f = "pattern")
              (Analysis.detectedIssues (analyzeContent None content)).
Proof.
  rewrite (analyzeContent_issues openai), (analyzeContent_issues None).
  replace (findings None content) with (patternFindings content)
    by (unfold findings; now rewrite List.app_nil_r).
  unfold findings.
  eexists. split; [reflexivity|]. split.
  - apply List.Forall_forall. intros f Hf.
    destruct openai as [o|]; [|contradiction].
    destruct (o content) as [ai|]; [|contradiction].
    now apply aiFinding_offset in Hf.
  - apply List.Forall_forall. intros f Hf.
    now apply patternFinding_offset in Hf.
Qed.

(** X5: when the analysis fails, the gated entry point hands back the text
    as it was given, not redacted, while it reports the filter enabled and
    a high risk. *)
Theorem failed_analysis_returns_unredacted_text
    (env : option string) (openai : option oracle) (content : string)
    (o : options) (e : string) (a : Analysis.t) :
  analyzeContent_try openai content (newAnalysis content) = (Throw e, a) ->
  FilterResult.privacyFilterEnabled (filterContent env openai content o) = true ->
  FilterResult.filteredContent (filterContent env openai content o) = content
  /\ exists analysis,
       FilterResult.privacyAnalysis (filterContent env openai content o)
       = Some analysis
       /\ Analysis.riskLevel analysis = riskLevels.HIGH
       /\ Analysis.error analysis = Some "Privacy analysis failed".
Proof.
  intros H Hen. unfold filterContent in *.
  destruct (negb _); [discriminate Hen|]. simpl.
  assert (Hc : Analysis.filteredContent (analyzeContent openai content) = content).
  { unfold analyzeContent. rewrite H.
    rewrite analyzeContent_try_unfold in H.
    pose proof (applyFilters_forEach_state
                  (Array_sort byPositionDesc (findings openai content)) content
                  (detected openai content)) as E.
    destruct (applyFilters_forEach _ _ _) as [[x|e'] a']; [discriminate H|].
    injection H as _ <-. simpl in E. rewrite E. reflexivity. }
  split; [exact Hc|].
  exists (analyzeContent openai content). unfold analyzeContent. rewrite H.
  repeat split.
Qed.

Lemma failed_analysis_returns_unredacted_text_witness :
  let o := {| enablePrivacyFilter := None; forcePrivacyFilter := Some true |} in
  FilterResult.filteredContent (filterContent None (Some nullOracle) "null" o) = "null"
  /\ exists analysis,
       FilterResult.privacyAnalysis (filterContent None (Some nullOracle) "null" o)
       = Some analysis
       /\ Analysis.riskLevel analysis = riskLevels.HIGH
       /\ Analysis.error analysis = Some "Privacy analysis failed".
Proof.
  apply (failed_analysis_returns_unredacted_text None (Some nullOracle) "null"
           {| enablePrivacyFilter := None; forcePrivacyFilter := Some true |}
           "TypeError: Cannot read properties of null (reading 'length')"
           (Analysis.Build "null" "null"
              [Issue.Build Ty.personalName JNull "HIGH" 0 "ai"]
              riskLevels.LOW [] ∅ None)).
  - vm_compute. reflexivity.
  - vm_compute. reflexivity.
Defined.

(** X6: the offset of every Finding is -1 or an index of the text at which
    the value fits, so that the redaction never cuts outside the text it
    was given. *)
Theorem offsets_are_in_range (openai : option oracle) (content : string) :
  Forall (in_range_of content)
         (Analysis.detectedIssues (analyzeContent openai content)).
Proof.
  rewrite analyzeContent_issues. apply List.Forall_forall. intros f Hf.
  pose proof (finding_offset openai content f Hf) as Hp.
  unfold in_range_of, text_of. rewrite Hp.
  destruct (indexOf_spec content (to_string (Issue.value f)))
    as [[E _]|(pre & post & Hc & Hi & _)]; [now left|].
  right. rewrite Hi. apply (f_equal len) in Hc. rewrite !len_app in Hc.
  pose proof (len_nonneg pre). pose proof (len_nonneg post). lia.
Qed.

(** ** Redaction of located Findings *)

(** The loop does not throw when no Finding to apply has a [null] value. *)
Lemma applyFilters_forEach_completes (l : list Issue.t) :
  (forall f, In f l -> ~ null_located f) ->
  forall text a,
    applyFilters_forEach l text a
    = (Ok (redact l text), with_map (record l (Analysis.anonymizationMap a)) a).
Proof.
  unfold redact, record.
  induction l as [|f l IH]; intros Hs text a.
  - simpl. unfold ret, with_map. now destruct a.
  - assert (Hl : forall g, In g l -> ~ null_located g)
      by (intros g Hg; apply Hs; now right).
    cbn [applyFilters_forEach List.filter].
    change (0 <=? Issue.position f) with (applied f).
    destruct (applied f) eqn:Hp; [|now apply IH].
    apply Z.leb_le in Hp.
    destruct (Issue.value f) as [v|] eqn:Hv.
    + rewrite (splice_redactOne text f v Hp Hv).
      unfold mbind, M_bind, bind, update. rewrite (IH Hl).
      cbn [fold_left]. rewrite Hv. reflexivity.
    + elim (Hs f (or_introl eq_refl)). split; assumption.
Qed.

(** A sorted list is determined by its members, where the order tells
    them apart. *)
Lemma sorted_perm_unique {A} (R : A -> A -> Prop) (l1 : list A) :
  forall l2,
    StronglySorted R l1 -> StronglySorted R l2 -> Permutation l1 l2 ->
    (forall x y, In x l1 -> In y l1 -> R x y -> R y x -> x = y) ->
    l1 = l2.
Proof.
  induction l1 as [|x l1 IH]; intros l2 S1 S2 P Hanti.
  - apply Permutation_nil in P. now subst.
  - destruct l2 as [|y l2];
      [symmetry in P; apply Permutation_nil in P; discriminate P|].
    inversion S1 as [|? ? S1' H1]; subst. inversion S2 as [|? ? S2' H2]; subst.
    rewrite List.Forall_forall in H1, H2.
    assert (Exy : x = y).
    { assert (Hx : In x (y :: l2))
        by (eapply Permutation_in; [exact P | now left]).
      assert (Hy : In y (x :: l1))
        by (eapply Permutation_in; [symmetry; exact P | now left]).
      destruct Hx as [->|Hx]; [reflexivity|].
      destruct Hy as [->|Hy]; [reflexivity|].
      apply Hanti; [now left | now right | now apply H1 | now apply H2]. }
    subst y. f_equal. apply IH; try assumption.
    + now apply Permutation_cons_inv in P.
    + intros a b Ha Hb. apply Hanti; now right.
Qed.

Lemma located_positions (segments : list (string * Issue.t)) :
  forall start, 0 <= start -> located start segments ->
    Forall (fun f => start <= Issue.position f) (map snd segments)
    /\ StronglySorted (fun f g => Issue.position f < Issue.position g)
                      (map snd segments)
    /\ (forall f, In f (map snd segments) -> ~ null_located f).
Proof.
  induction segments as [|[plain f] rest IH]; intros start H0 H; simpl.
  - repeat split; [constructor | constructor | contradiction].
  - destruct H as (Hp & (v & Hv & Hne) & Hrest).
    pose proof (len_nonneg plain) as Hplain.
    assert (Hlen : 0 < len (text_of f)).
    { unfold text_of. rewrite Hv. simpl. destruct v; [congruence|].
      unfold len. simpl. lia. }
    destruct (IH (start + len plain + len (text_of f)) ltac:(lia) Hrest)
      as (Hge & Hsorted & Hnull).
    repeat split.
    + constructor; [lia|].
      eapply List.Forall_impl; [|exact Hge]. simpl. intros g Hg. lia.
    + constructor; [exact Hsorted|].
      eapply List.Forall_impl; [|exact Hge]. simpl. intros g Hg. lia.
    + intros g [<-|Hg]; [intros [Hn _]; congruence | now apply Hnull].
Qed.

Lemma StronglySorted_weaken {A} (R R' : A -> A -> Prop) (l : list A) :
  (forall x y, R x y -> R' x y) -> StronglySorted R l -> StronglySorted R' l.
Proof.
  intros HR. induction 1 as [|x l Hs IH Hx]; constructor; [exact IH|].
  eapply List.Forall_impl; [|exact Hx]. intros y. apply HR.
Qed.

Lemma StronglySorted_rev {A} (R : A -> A -> Prop) (l : list A) :
  StronglySorted R l -> StronglySorted (fun x y => R y x) (rev l).
Proof.
  induction 1 as [|x l Hs IH Hx]; simpl; [constructor|].
  assert (G : forall l1, StronglySorted (fun a b => R b a) l1 ->
                Forall (fun a => R x a) l1 ->
                StronglySorted (fun a b => R b a) (l1 ++ [x])%list).
  { induction 1 as [|a l1 Hl1 IHl1 Ha]; intros Hall; simpl.
    - repeat constructor.
    - inversion Hall; subst. constructor; [now apply IHl1|].
      apply List.Forall_app. split; [exact Ha | repeat constructor; assumption]. }
  apply G; [exact IH|]. apply List.Forall_rev. exact Hx.
Qed.

Lemma fold_left_rev {A B} (f : B -> A -> B) (l : list A) (b : B) :
  fold_left f (rev l) b = fold_right (fun x acc => f acc x) b l.
Proof.
  induction l as [|x l IH]; simpl; [reflexivity|].
  rewrite List.fold_left_app. simpl. now rewrite IH.
Qed.

(** The replacements from the last Finding of the layout to the first. *)
Lemma redact_layout (segments : list (string * Issue.t)) (tail : string) :
  forall before,
    located (len before) segments ->
    fold_right (fun f text => redactOne text f)
               (before ++ original segments tail) (map snd segments)
    = before ++ redacted segments tail.
Proof.
  induction segments as [|[plain f] rest IH]; intros before H; simpl.
  - reflexivity.
  - destruct H as (Hp & (v & Hv & Hne) & Hrest).
    specialize (IH (before ++ plain ++ text_of f)).
    rewrite !app_assoc in IH. rewrite IH
      by (rewrite !len_app; now replace (len before + (len plain + len (text_of f)))
            with (len before + len plain + len (text_of f)) by lia).
    unfold redactOne at 1. fold (text_of f). rewrite Hp.
    pose proof (len_nonneg before). pose proof (len_nonneg plain).
    pose proof (len_nonneg (text_of f)).
    replace (Z.to_nat (len before + len plain))
      with (String.length (before ++ plain))
      by (rewrite length_app; unfold len; lia).
    replace (Z.to_nat (len before + len plain + len (text_of f)))
      with (String.length ((before ++ plain) ++ text_of f))
      by (rewrite !length_app; unfold len; lia).
    rewrite <- (app_assoc before plain (text_of f ++ redacted rest tail)).
    rewrite take_app.
    rewrite <- (app_assoc (before ++ plain) (text_of f) (redacted rest tail)).
    rewrite drop_app. now rewrite !app_assoc.
Qed.

(** X7: where the Findings lie one after the other in the text, each at
    the offset of its own value and none of them empty, the redaction
    replaces each value by its placeholder and leaves the text between
    them as it is, in whatever order the Findings were detected. *)
Theorem located_findings_are_replaced
    (segments : list (string * Issue.t)) (tail : string) (a : Analysis.t) :
  located 0 segments ->
  Permutation (Analysis.detectedIssues a) (map snd segments) ->
  fst (applyFilters (original segments tail) a) = Ok (redacted segments tail).
Proof.
  intros Hloc Hperm.
  destruct (located_positions segments 0 ltac:(lia) Hloc) as (Hge & Hasc & Hnull).
  set (sorted := Array_sort byPositionDesc (Analysis.detectedIssues a)).
  assert (Hps : Permutation sorted (map snd segments)).
  { etransitivity; [apply Array_sort_perm | exact Hperm]. }
  assert (Hsorted : sorted = rev (map snd segments)).
  { apply (sorted_perm_unique
             (fun f g => Issue.position g <= Issue.position f)).
    - apply Array_sort_descending.
    - apply (StronglySorted_rev
               (fun f g => Issue.position f <= Issue.position g)).
      eapply StronglySorted_weaken; [|exact Hasc].
      intros x y Hxy. simpl in Hxy. lia.
    - etransitivity; [exact Hps | apply Permutation_rev].
    - intros x y Hx Hy Hxy Hyx.
      assert (Hx' : In x (map snd segments))
        by (eapply Permutation_in; [exact Hps | exact Hx]).
      assert (Hy' : In y (map snd segments))
        by (eapply Permutation_in; [exact Hps | exact Hy]).
      clear - Hasc Hx' Hy' Hxy Hyx.
      induction Hasc as [|z l Hl IH Hz]; [contradiction|].
      rewrite List.Forall_forall in Hz.
      destruct Hx' as [->|Hx'], Hy' as [->|Hy']; auto.
      + specialize (Hz _ Hy'). lia.
      + specialize (Hz _ Hx'). lia. }
  rewrite applyFilters_unfold. fold sorted. rewrite Hsorted.
  rewrite applyFilters_forEach_completes
    by (intros f Hf; apply Hnull; now apply List.in_rev).
  unfold redact. simpl. f_equal.
  rewrite filter_all.
  - rewrite fold_left_rev.
    apply (redact_layout segments tail ""). exact Hloc.
  - apply List.Forall_rev.
    eapply List.Forall_impl; [|exact Hge].
    intros f Hf. unfold applied. now apply Z.leb_le.
Qed.

Lemma located_findings_are_replaced_witness :
  let john := Issue.Build Ty.email (JStr "john@test.com") "HIGH" 6 "pattern" in
  let mary := Issue.Build Ty.email (JStr "mary@test.com") "HIGH" 24 "pattern" in
  let segments := [("Email ", john); (" and ", mary)] in
  let a := detected None "Email john@test.com and mary@test.com" in
  fst (applyFilters (original segments "") a) = Ok (redacted segments "").
Proof.
  apply (located_findings_are_replaced
           [("Email ", Issue.Build Ty.email (JStr "john@test.com") "HIGH" 6 "pattern");
            (" and ", Issue.Build Ty.email (JStr "mary@test.com") "HIGH" 24 "pattern")]
           "" (detected None "Email john@test.com and mary@test.com")).
  - simpl. repeat split; try reflexivity; eexists; (split; [reflexivity | discriminate]).
  - vm_compute. apply Permutation_refl.
Defined.

(** ** The anonymization map *)

Lemma record_cons (f : Issue.t) (l : list Issue.t) (m : gmap string string) :
  record (f :: l) m =
  if applied f then record l (<[text_of f := placeholder f]> m) else record l m.
Proof. unfold record. simpl. now destruct (applied f). Qed.

(** A key of the map after the recordings was there before with the same
    entry, or is the value of a Finding applied, with its placeholder. *)
Lemma record_lookup_inv (l : list Issue.t) :
  forall (m : gmap string string) (k : string),
    record l m !! k = m !! k
    \/ exists g, In g l /\ applied g = true /\ text_of g = k
                 /\ record l m !! k = Some (placeholder g).
Proof.
  induction l as [|f l IH]; intros m k; [now left|].
  rewrite record_cons. destruct (applied f) eqn:Hf.
  - destruct (IH (<[text_of f := placeholder f]> m) k)
      as [E|(g & Hg & Ha & Hk & E)].
    + destruct (decide (text_of f = k)) as [<-|Hne].
      * right. exists f. rewrite E, lookup_insert_eq. repeat split; auto. now left.
      * left. now rewrite E, lookup_insert_ne.
    + right. exists g. repeat split; auto. now right.
  - destruct (IH m k) as [E|(g & Hg & Ha & Hk & E)]; [now left|].
    right. exists g. repeat split; auto. now right.
Qed.

Lemma record_lookup (l : list Issue.t) :
  forall (m : gmap string string) (f : Issue.t),
    In f l -> applied f = true ->
    exists g, In g l /\ applied g = true /\ text_of g = text_of f
              /\ record l m !! text_of f = Some (placeholder g).
Proof.
  induction l as [|f0 l IH]; intros m f Hin Ha; [contradiction|].
  rewrite record_cons. destruct Hin as [->|Hin].
  - rewrite Ha.
    destruct (record_lookup_inv l (<[text_of f := placeholder f]> m) (text_of f))
      as [E|(g & Hg & Hga & Hk & E)].
    + exists f. rewrite E, lookup_insert_eq. repeat split; auto. now left.
    + exists g. repeat split; auto. now right.
  - destruct (applied f0);
      [destruct (IH (<[text_of f0 := placeholder f0]> m) f Hin Ha)
         as (g & Hg & Hga & Hk & E)
      |destruct (IH m f Hin Ha) as (g & Hg & Hga & Hk & E)];
      exists g; repeat split; auto; now right.
Qed.

(** X8: in an analysis that completes, the map holds the value of every
    Finding that was redacted, with the placeholder of a Finding of that
    value, and holds no other key. *)
Theorem anonymizationMap_keys (openai : option oracle) (content : string) :
  Analysis.error (analyzeContent openai content) = None ->
  let r := analyzeContent openai content in
  (forall f, In f (Analysis.detectedIssues r) -> 0 <= Issue.position f ->
     exists g, In g (Analysis.detectedIssues r) /\ text_of g = text_of f
               /\ Analysis.anonymizationMap r !! text_of f = Some (placeholder g))
  /\ (forall k v, Analysis.anonymizationMap r !! k = Some v ->
        exists f, In f (Analysis.detectedIssues r) /\ 0 <= Issue.position f
                  /\ text_of f = k /\ v = placeholder f).
Proof.
  intros Herr r. unfold r. clear r.
  assert (Hnull : forall f, In f (Array_sort byPositionDesc (findings openai content))
                            -> ~ null_located f).
  { intros f Hf Hn.
    apply (proj1 (no_error_iff_none_located openai content) Herr).
    exists f. split; [|exact Hn]. rewrite analyzeContent_issues.
    eapply Permutation_in; [apply Array_sort_perm | exact Hf]. }
  rewrite analyzeContent_issues, analyzeContent_unfold.
  rewrite (applyFilters_forEach_completes _ Hnull). simpl.
  set (sorted := Array_sort byPositionDesc (findings openai content)).
  assert (Hin : forall f, In f sorted <-> In f (findings openai content)).
  { intros f. split; apply Permutation_in;
      [apply Array_sort_perm | symmetry; apply Array_sort_perm]. }
  split.
  - intros f Hf Hp.
    destruct (record_lookup sorted ∅ f) as (g & Hg & _ & Hk & E).
    + now apply Hin.
    + now apply Z.leb_le.
    + exists g. split; [now apply Hin | auto].
  - intros k v Hk.
    destruct (record_lookup_inv sorted ∅ k) as [E|(g & Hg & Ha & Hgk & E)].
    + rewrite E, lookup_empty in Hk. discriminate Hk.
    + exists g. split; [now apply Hin|]. split; [now apply Z.leb_le|].
      split; [exact Hgk | congruence].
Qed.

Lemma anonymizationMap_keys_witness :
  let r := analyzeContent None "Email me at test@example.com or call (555) 123-4567" in
  (forall f, In f (Analysis.detectedIssues r) -> 0 <= Issue.position f ->
     exists g, In g (Analysis.detectedIssues r) /\ text_of g = text_of f
               /\ Analysis.anonymizationMap r !! text_of f = Some (placeholder g))
  /\ (forall k v, Analysis.anonymizationMap r !! k = Some v ->
        exists f, In f (Analysis.detectedIssues r) /\ 0 <= Issue.position f
                  /\ text_of f = k /\ v = placeholder f).
Proof.
  apply (anonymizationMap_keys None
           "Email me at test@example.com or call (555) 123-4567").
  vm_compute. reflexivity.
Defined.

(** ** Risk *)

Lemma count_severity_app (severity : string) (l l' : list Issue.t) :
  count_severity severity (l ++ l')
  = (count_severity severity l + count_severity severity l')%nat.
Proof. unfold count_severity. now rewrite List.map_app, List.count_occ_app. Qed.

Lemma calculateRiskLevel_counts (l : list Issue.t) :
  calculateRiskLevel l =
  if (0 <? count_severity "HIGH" l)%nat then riskLevels.HIGH
  else if (1 <? count_severity "MEDIUM" l)%nat then riskLevels.HIGH
  else if (0 <? count_severity "MEDIUM" l)%nat then riskLevels.MEDIUM
  else riskLevels.LOW.
Proof. unfold calculateRiskLevel. now rewrite !Claims.count_filter. Qed.

Lemma rank_counts (l : list Issue.t) :
  rank (calculateRiskLevel l) =
  if (0 <? count_severity "HIGH" l)%nat then 2%nat
  else if (1 <? count_severity "MEDIUM" l)%nat then 2%nat
  else if (0 <? count_severity "MEDIUM" l)%nat then 1%nat
  else 0%nat.
Proof.
  rewrite calculateRiskLevel_counts.
  destruct (0 <? _)%nat; [reflexivity|].
  destruct (1 <? _)%nat; [reflexivity|].
  destruct (0 <? _)%nat; reflexivity.
Qed.

(** X9: more Findings never lower the risk level, wherever they are added;
    the level of any Findings is low, medium or high. *)
Theorem risk_never_decreases (l before after : list Issue.t) :
  (rank (calculateRiskLevel l)
   <= rank (calculateRiskLevel (before ++ l ++ after)))%nat
  /\ (calculateRiskLevel l = riskLevels.LOW
      \/ calculateRiskLevel l = riskLevels.MEDIUM
      \/ calculateRiskLevel l = riskLevels.HIGH).
Proof.
  split.
  - rewrite !rank_counts, !count_severity_app.
    repeat match goal with
           | |- context [(?a <? ?b)%nat] => destruct (Nat.ltb_spec a b)
           end; lia.
  - rewrite calculateRiskLevel_counts.
    destruct (0 <? _)%nat; [auto|].
    destruct (1 <? _)%nat; [auto|].
    destruct (0 <? _)%nat; auto.
Qed.

(** X10: the risk level depends on which Findings there are, not on the
    order in which they were detected. *)
Theorem risk_ignores_order (l l' : list Issue.t) :
  Permutation l l' -> calculateRiskLevel l = calculateRiskLevel l'.
Proof.
  intros P. rewrite !calculateRiskLevel_counts. unfold count_severity.
  assert (E : forall s, count_occ string_dec (map Issue.riskLevel l) s
                        = count_occ string_dec (map Issue.riskLevel l') s).
  { apply Permutation_count_occ. now apply Permutation_map. }
  now rewrite !E.
Qed.

Lemma risk_ignores_order_witness :
  let zip := Issue.Build Ty.zipCode (JStr "12345") "MEDIUM" 0 "pattern" in
  let ssn := Issue.Build Ty.ssn (JStr "123-45-6789") "HIGH" 6 "pattern" in
  calculateRiskLevel [zip; ssn] = calculateRiskLevel [ssn; zip].
Proof.
  apply (risk_ignores_order
           [Issue.Build Ty.zipCode (JStr "12345") "MEDIUM" 0 "pattern";
            Issue.Build Ty.ssn (JStr "123-45-6789") "HIGH" 6 "pattern"]).
  apply perm_swap.
Defined.

(** ** Suggestions of a completed analysis *)

Lemma completed_analysis (openai : option oracle) (content : string) :
  Analysis.error (analyzeContent openai content) = None ->
  Analysis.riskLevel (analyzeContent openai content)
  = calculateRiskLevel (findings openai content)
  /\ Analysis.suggestions (analyzeContent openai content)
     = generateSuggestions
         (Analysis.Build content content (findings openai content)
            (calculateRiskLevel (findings openai content)) [] ∅ None).
Proof.
  intros Herr.
  destruct (analyzeContent_error openai content)
    as [[_ (x & a & F)]|[E _]]; [|congruence].
  rewrite analyzeContent_unfold, F.
  pose proof (applyFilters_forEach_state
                (Array_sort byPositionDesc (findings openai content)) content
                (detected openai content)) as E.
  rewrite F in E. simpl in E. rewrite E. split; reflexivity.
Qed.

Lemma generateSuggestions_In (a : Analysis.t) (s : string) :
  In s (generateSuggestions a) <->
  In s (adviceFor (categories (Analysis.detectedIssues a)))
  \/ In s (warnings (Analysis.riskLevel a)).
Proof.
  unfold generateSuggestions, unique.
  rewrite (Claims.unique_from_In String.eqb String.eqb_eq).
  fold (categories (Analysis.detectedIssues a)).
  unfold warnings, level_name.
  destruct (String.eqb (Analysis.riskLevel a) riskLevels.HIGH);
    [|destruct (String.eqb (Analysis.riskLevel a) riskLevels.MEDIUM)];
    rewrite ?List.in_app_iff; simpl; tauto.
Qed.

(** X11: a completed analysis carries the two warnings of its risk level
    among its suggestions, and has no suggestion exactly when it has no
    Finding. *)
Theorem completed_analysis_warns (openai : option oracle) (content : string) :
  Analysis.error (analyzeContent openai content) = None ->
  let r := analyzeContent openai content in
  (forall w, In w (warnings (Analysis.riskLevel r)) -> In w (Analysis.suggestions r))
  /\ (Analysis.suggestions r = [] <-> Analysis.detectedIssues r = []).
Proof.
  intros Herr r. unfold r. clear r.
  destruct (completed_analysis openai content Herr) as [Hrisk Hsug].
  rewrite Hrisk, Hsug, analyzeContent_issues. split.
  - intros w Hw. apply generateSuggestions_In. now right.
  - split.
    + intros Hnil.
      apply (Claims.calculateRiskLevel_low _ (Claims.finding_severity openai content)).
      destruct (proj2 (risk_never_decreases (findings openai content) [] []))
        as [E|[E|E]]; [exact E | exfalso | exfalso].
      * assert (Hin : In "MEDIUM RISK: Review the content for potentially sensitive information"
                        (generateSuggestions
                           (Analysis.Build content content (findings openai content)
                              (calculateRiskLevel (findings openai content)) [] ∅ None))).
        { apply generateSuggestions_In. right. simpl. rewrite E. now left. }
        rewrite Hnil in Hin. contradiction.
      * assert (Hin : In "HIGH RISK: This content contains sensitive information that should not be posted publicly"
                        (generateSuggestions
                           (Analysis.Build content content (findings openai content)
                              (calculateRiskLevel (findings openai content)) [] ∅ None))).
        { apply generateSuggestions_In. right. simpl. rewrite E. now left. }
        rewrite Hnil in Hin. contradiction.
    + intros ->. reflexivity.
Qed.

Lemma completed_analysis_warns_witness :
  let r := analyzeContent None "My SSN is 123-45-6789" in
  (forall w, In w (warnings (Analysis.riskLevel r)) -> In w (Analysis.suggestions r))
  /\ (Analysis.suggestions r = [] <-> Analysis.detectedIssues r = []).
Proof.
  apply (completed_analysis_warns None "My SSN is 123-45-6789").
  vm_compute. reflexivity.
Defined.

(** ** Placeholders *)

Lemma replacements_inj (t t' : Ty.t) :
  replacements t = replacements t' -> t = t'.
Proof.
  destruct t, t'; simpl; intros H; try reflexivity; discriminate H.
Qed.

Lemma getReplacementText_replacements (f : Issue.t) :
  replacements (Issue.type f) = Some (getReplacementText f).
Proof. unfold getReplacementText, replacements. reflexivity. Qed.

(** X12: the placeholder tells the category: two Findings have the same
    placeholder only if they have the same type; the fall-back placeholder
    is never used; and no detector finds anything in a placeholder. *)
Theorem placeholder_tells_category (f g : Issue.t) :
  (getReplacementText f = getReplacementText g <-> Issue.type f = Issue.type g)
  /\ getReplacementText f <> "[REDACTED]"
  /\ analyzeContent None (getReplacementText f)
     = newAnalysis (getReplacementText f).
Proof.
  split; [split|split].
  - intros H. apply replacements_inj.
    now rewrite !getReplacementText_replacements, H.
  - unfold getReplacementText. now intros ->.
  - unfold getReplacementText. destruct (Issue.type f); simpl; discriminate.
  - unfold getReplacementText. destruct (Issue.type f); vm_compute; reflexivity.
Qed.

(** X13: the suggestions-only view has one entry for each Finding, in the
    order of detection, with the type and the severity of the Finding and
    its placeholder in the place of the value; entries with the same
    placeholder have the same type. *)
Theorem suggestions_view_entries (openai : option oracle) (content : string) :
  let view := getAnonymizationSuggestions openai content in
  let r := analyzeContent openai content in
  Forall2 (fun e f => IssueSummary.type e = Issue.type f
                      /\ IssueSummary.riskLevel e = Issue.riskLevel f
                      /\ IssueSummary.suggestion e = getReplacementText f)
          (Suggestions.detectedIssues view) (Analysis.detectedIssues r)
  /\ Forall (fun e =>
       Forall (fun e' =>
                 IssueSummary.suggestion e = IssueSummary.suggestion e' ->
                 IssueSummary.type e = IssueSummary.type e')
              (Suggestions.detectedIssues view))
       (Suggestions.detectedIssues view)
  /\ (Suggestions.riskLevel view = riskLevels.LOW
      <-> Suggestions.detectedIssues view = []).
Proof.
  intros view r. unfold view, r, getAnonymizationSuggestions. simpl.
  split; [|split].
  - induction (Analysis.detectedIssues (analyzeContent openai content))
      as [|f l IH]; simpl; constructor; auto.
  - apply List.Forall_forall. intros e He. apply List.Forall_forall. intros e' He'.
    apply List.in_map_iff in He as (f & <- & _).
    apply List.in_map_iff in He' as (g & <- & _). simpl.
    intros H. apply replacements_inj.
    now rewrite !getReplacementText_replacements, H.
  - rewrite analyzeContent_issues.
    destruct (Claims.analyzeContent_riskLevel openai content) as [E|[E Hne]];
      rewrite E.
    + rewrite (Claims.calculateRiskLevel_low _ (Claims.finding_severity openai content)).
      destruct (findings openai content); simpl; split; congruence.
    + destruct (findings openai content); [congruence|].
      simpl. split; discriminate.
Qed.

(** ** The values the detectors report *)

Lemma all_chars_app (P : ascii -> bool) (a b : string) :
  all_chars P (a ++ b) = all_chars P a && all_chars P b.
Proof.
  induction a as [|c a IH]; simpl; [reflexivity|].
  now rewrite IH, andb_assoc.
Qed.

Lemma in_all_ascii (c : ascii) : In c all_ascii.
Proof.
  unfold all_ascii. apply List.in_map_iff. exists (nat_of_ascii c). split.
  - apply ascii_nat_embedding.
  - apply List.in_seq. pose proof (nat_ascii_bounded c). lia.
Qed.

Section Shape.

Variable icase : bool.

(** The length of a text of the language lies between [min_len] and
    [max_len]. *)
Lemma Matches_length r prev w rest :
  Matches icase r prev w rest ->
  (min_len r <= String.length w)%nat
  /\ (forall n, max_len r = Some n -> (String.length w <= n)%nat).
Proof.
  induction 1 as [prev rest|a c prev rest Hc|cs c prev rest Hc
                 |r1 r2 prev w1 w2 rest _ [Hmin1 Hmax1] _ [Hmin2 Hmax2]
                 |r1 r2 prev w rest _ [Hmin Hmax]
                 |r1 r2 prev w rest _ [Hmin Hmax]
                 |mx r prev rest
                 |mn mx r prev w1 w2 rest Hmx _ [Hmin1 Hmax1] _ [Hmin2 Hmax2]
                 |prev rest Hb]; simpl.
  - split; [lia | intros n [= <-]; lia].
  - split; [lia | intros n [= <-]; lia].
  - split; [lia | intros n [= <-]; lia].
  - rewrite length_app. split; [lia|].
    intros n Hn. destruct (max_len r1) as [a|], (max_len r2) as [b|];
      try discriminate Hn. injection Hn as <-.
    specialize (Hmax1 _ eq_refl). specialize (Hmax2 _ eq_refl). lia.
  - split; [lia|].
    intros n Hn. destruct (max_len r1) as [a|], (max_len r2) as [b|];
      try discriminate Hn. injection Hn as <-.
    specialize (Hmax _ eq_refl). lia.
  - split; [lia|].
    intros n Hn. destruct (max_len r1) as [a|], (max_len r2) as [b|];
      try discriminate Hn. injection Hn as <-.
    specialize (Hmax _ eq_refl). lia.
  - split; [lia | intros n _; lia].
  - rewrite length_app. simpl in Hmin2, Hmax2. split.
    + destruct mn as [|mn]; simpl in *; nia.
    + intros n Hn. destruct mx as [mx|]; [|discriminate Hn].
      destruct (max_len r) as [a|]; [|discriminate Hn]. injection Hn as <-.
      specialize (Hmax1 _ eq_refl). specialize (Hmax2 _ eq_refl).
      destruct mx as [|mx]; [congruence|]. simpl in Hmax2. nia.
  - split; [lia | intros n [= <-]; lia].
Qed.

(** A text of the language is made of characters the expression can
    read. *)
Lemma Matches_reads (P : ascii -> bool) r prev w rest :
  Matches icase r prev w rest -> reads icase P r = true -> all_chars P w = true.
Proof.
  induction 1 as [prev rest|a c prev rest Hc|cs c prev rest Hc
                 |r1 r2 prev w1 w2 rest _ IH1 _ IH2
                 |r1 r2 prev w rest _ IH
                 |r1 r2 prev w rest _ IH
                 |mx r prev rest
                 |mn mx r prev w1 w2 rest Hmx _ IH1 _ IH2
                 |prev rest Hb]; cbn [reads]; intros Hr; try reflexivity.
  - rewrite List.forallb_forall in Hr. specialize (Hr c (in_all_ascii c)).
    rewrite Hc in Hr. simpl in Hr. cbn [all_chars]. now rewrite Hr.
  - rewrite List.forallb_forall in Hr. specialize (Hr c (in_all_ascii c)).
    rewrite Hc in Hr. simpl in Hr. cbn [all_chars]. now rewrite Hr.
  - apply andb_true_iff in Hr as [H1 H2].
    now rewrite all_chars_app, IH1, IH2.
  - apply andb_true_iff in Hr as [H1 H2]. now apply IH.
  - apply andb_true_iff in Hr as [H1 H2]. now apply IH.
  - now rewrite all_chars_app, IH1, IH2.
Qed.

End Shape.

Lemma has_shape_fits (p : pattern) (sh : shape) prev w rest :
  has_shape p sh = true ->
  Matches (ignoreCase p) (expr p) prev w rest -> fits sh w.
Proof.
  destruct sh as [[least greatest] alphabet]. unfold has_shape, fits.
  intros H M. apply andb_true_iff in H as [H Hreads].
  apply andb_true_iff in H as [Hleast Hgreatest].
  destruct (Matches_length _ _ _ _ _ M) as [Hmin Hmax].
  apply Nat.leb_le in Hleast. repeat split.
  - lia.
  - destruct greatest as [n|]; [|exact I].
    destruct (max_len (expr p)) as [m|]; [|discriminate Hgreatest].
    apply Nat.leb_le in Hgreatest. specialize (Hmax _ eq_refl). lia.
  - exact (Matches_reads _ _ _ _ _ _ M Hreads).
Qed.

Lemma registry_shapes :
  forallb (fun entry : pattern * Ty.t * string =>
             has_shape (fst (fst entry)) (value_shape (snd (fst entry))))
          registry = true.
Proof. vm_compute. reflexivity. Qed.

(** X14: what a detector reports has the shape of its pattern: a
    social-security number is 11 characters, digits and dashes; a routing
    number is 9 digits; a bank account 8 to 17 digits; a card number 16 to
    19 characters; an API key 20 or more letters and digits; and so on for
    each category, none of them empty. *)
Theorem detector_values_have_shape (openai : option oracle) (content : string) :
  Forall (fun f =>
            Issue.detectionMethod f = "pattern" ->
            exists m, Issue.value f = JStr m /\ m <> ""
                      /\ fits (value_shape (Issue.type f)) m)
         (Analysis.detectedIssues (analyzeContent openai content)).
Proof.
  rewrite analyzeContent_issues. apply List.Forall_forall. intros f Hf Hm.
  apply in_findings in Hf as [Hf|(o & ai & _ & _ & Hf)];
    [|apply aiFinding_offset in Hf as [Hai _]; rewrite Hai in Hm; discriminate Hm].
  apply in_patternFindings in Hf as (p & type & severity & m & Hr & Hin & ->).
  apply matches_of_occur in Hin as (pre & post & _ & HM).
  pose proof registry_shapes as Hsh. rewrite List.forallb_forall in Hsh.
  specialize (Hsh _ Hr). cbn [fst snd] in Hsh.
  pose proof (has_shape_fits _ _ _ _ _ Hsh HM) as Hfits.
  exists m. simpl. repeat split; [|exact Hfits].
  intros ->.
  assert (Hpos : (0 < fst (fst (value_shape type)))%nat).
  { clear - Hr. unfold registry in Hr. simpl in Hr.
    repeat (destruct Hr as [Hr|Hr]; [injection Hr as _ <- _; simpl; lia|]).
    contradiction. }
  destruct (value_shape type) as [[least greatest] alphabet].
  destruct Hfits as [Hleast _]. simpl in Hpos, Hleast. lia.
Qed.

(** ** Redaction and the order of detection *)

Lemma NoDup_map_eq {A B} (f : A -> B) (l : list A) (x y : A) :
  List.NoDup (map f l) -> In x l -> In y l -> f x = f y -> x = y.
Proof.
  induction l as [|z l IH]; intros Hnd Hx Hy E; [contradiction|].
  simpl in Hnd. apply List.NoDup_cons_iff in Hnd as [Hz Hnd].
  destruct Hx as [->|Hx], Hy as [->|Hy]; auto.
  - elim Hz. rewrite E. now apply List.in_map.
  - elim Hz. rewrite <- E. now apply List.in_map.
Qed.

(** The loop reads the analysis object only through its map. *)
Lemma applyFilters_forEach_state_free (l : list Issue.t) :
  forall text a a',
    Analysis.anonymizationMap a = Analysis.anonymizationMap a' ->
    fst (applyFilters_forEach l text a) = fst (applyFilters_forEach l text a')
    /\ Analysis.anonymizationMap (snd (applyFilters_forEach l text a))
       = Analysis.anonymizationMap (snd (applyFilters_forEach l text a')).
Proof.
  induction l as [|f l IH]; intros text a a' Hm; [split; [reflexivity | exact Hm]|].
  cbn [applyFilters_forEach].
  destruct (0 <=? Issue.position f); [|now apply IH].
  destruct (Issue.value f) as [v|]; [|split; [reflexivity | exact Hm]].
  unfold mbind, M_bind, bind, update.
  match goal with
  | |- context [applyFilters_forEach l ?t (Analysis.map_set ?k ?w a)] =>
      specialize (IH t (Analysis.map_set k w a) (Analysis.map_set k w a'))
  end.
  destruct IH as [H1 H2]; [simpl; now rewrite Hm|].
  destruct (applyFilters_forEach l _ (Analysis.map_set _ _ a)) as [[x|e] b];
    destruct (applyFilters_forEach l _ (Analysis.map_set _ _ a')) as [[x'|e'] b'];
    simpl in *; auto; discriminate H1.
Qed.

(** X15: where no two Findings have the same offset, the redacted text and
    the map do not depend on the order in which the Findings were
    detected. *)
Theorem redaction_ignores_detection_order
    (content : string) (a a' : Analysis.t) :
  List.NoDup (map Issue.position (Analysis.detectedIssues a)) ->
  Permutation (Analysis.detectedIssues a) (Analysis.detectedIssues a') ->
  Analysis.anonymizationMap a = Analysis.anonymizationMap a' ->
  fst (applyFilters content a) = fst (applyFilters content a')
  /\ Analysis.anonymizationMap (snd (applyFilters content a))
     = Analysis.anonymizationMap (snd (applyFilters content a')).
Proof.
  intros Hnd Hperm Hm. rewrite !applyFilters_unfold.
  assert (E : Array_sort byPositionDesc (Analysis.detectedIssues a)
              = Array_sort byPositionDesc (Analysis.detectedIssues a')).
  { apply (sorted_perm_unique (fun f g => Issue.position g <= Issue.position f)).
    - apply Array_sort_descending.
    - apply Array_sort_descending.
    - etransitivity; [apply Array_sort_perm|].
      etransitivity; [exact Hperm | symmetry; apply Array_sort_perm].
    - intros x y Hx Hy Hxy Hyx.
      apply (NoDup_map_eq Issue.position (Analysis.detectedIssues a));
        [exact Hnd | | | lia];
        apply (Permutation_in _ (Array_sort_perm byPositionDesc _)); assumption. }
  rewrite E. now apply applyFilters_forEach_state_free.
Qed.

Lemma redaction_ignores_detection_order_witness :
  let email := Issue.Build Ty.email (JStr "test@example.com") "HIGH" 12 "pattern" in
  let phone := Issue.Build Ty.phone (JStr "(555) 123-4567") "HIGH" 37 "pattern" in
  let content := "Email me at test@example.com or call (555) 123-4567" in
  let a := Analysis.Build content content [email; phone] "low" [] ∅ None in
  let a' := Analysis.Build content content [phone; email] "low" [] ∅ None in
  fst (applyFilters content a) = fst (applyFilters content a')
  /\ Analysis.anonymizationMap (snd (applyFilters content a))
     = Analysis.anonymizationMap (snd (applyFilters content a')).
Proof.
  apply (redaction_ignores_detection_order
           "Email me at test@example.com or call (555) 123-4567"
           (Analysis.Build "Email me at test@example.com or call (555) 123-4567"
              "Email me at test@example.com or call (555) 123-4567"
              [Issue.Build Ty.email (JStr "test@example.com") "HIGH" 12 "pattern";
               Issue.Build Ty.phone (JStr "(555) 123-4567") "HIGH" 37 "pattern"]
              "low" [] ∅ None)
           (Analysis.Build "Email me at test@example.com or call (555) 123-4567"
              "Email me at test@example.com or call (555) 123-4567"
              [Issue.Build Ty.phone (JStr "(555) 123-4567") "HIGH" 37 "pattern";
               Issue.Build Ty.email (JStr "test@example.com") "HIGH" 12 "pattern"]
              "low" [] ∅ None)).
  - simpl. repeat constructor; simpl; intros H;
      repeat (destruct H as [H|H]; try discriminate H); exact H.
  - simpl. apply perm_swap.
  - reflexivity.
Defined.

(** ** The matches of one detector *)

Lemma weave_cons (c : ascii) (plain matches : list string) (tail : string) :
  length plain = length matches ->
  exists plain' tail',
    length plain' = length matches
    /\ String c (weave plain matches tail) = weave plain' matches tail'.
Proof.
  intros Hlen. destruct plain as [|g plain], matches as [|m matches];
    try discriminate Hlen.
  - exists [], (String c tail). split; reflexivity.
  - exists (String c g :: plain), tail. split; [exact Hlen | reflexivity].
Qed.

Lemma drop_0 (s : string) : drop 0 s = s.
Proof. now destruct s. Qed.

Lemma scan_weave (icase : bool) (r : regex) (s : string) :
  forall prev skip,
    exists plain tail,
      length plain = length (scan icase r prev s skip)
      /\ drop skip s = weave plain (scan icase r prev s skip) tail.
Proof.
  induction s as [|c t IH]; intros prev skip.
  - destruct skip as [|n]; simpl.
    + destruct (match_here icase r prev "") as [s'|] eqn:E.
      * apply match_here_sound in E as (w & Hw & _).
        destruct w; [|discriminate Hw]. simpl in Hw. subst s'. simpl.
        exists [""], "". split; reflexivity.
      * exists [], "". split; reflexivity.
    + exists [], "". split; reflexivity.
  - destruct skip as [|n].
    + rewrite scan_cons_0, drop_0.
      destruct (match_here icase r prev (String c t)) as [s'|] eqn:E.
      * apply match_here_sound in E as (w & Hw & _).
        cbv zeta.
        assert (Hn : (String.length (String c t) - String.length s')%nat
                     = String.length w) by (rewrite Hw, length_app; lia).
        assert (Ht : take (String.length w) (String c t) = w)
          by (rewrite Hw; apply take_app).
        rewrite Hn, Ht.
        destruct (IH (Some c) (Nat.pred (String.length w)))
          as (plain & tail & Hlen & Hd).
        remember (scan icase r (Some c) t (Nat.pred (String.length w))) as ms.
        destruct w as [|c' w].
        -- simpl in Hd. rewrite ?drop_0 in Hd.
           destruct (weave_cons c plain ms tail Hlen)
             as (plain' & tail' & Hlen' & Hw').
           exists ("" :: plain'), tail'. split; [simpl; now rewrite Hlen'|].
           simpl. rewrite <- Hw'. now rewrite <- Hd.
        -- simpl in Hw. injection Hw as <- Ht'. simpl in Hd.
           rewrite Ht', drop_app in Hd.
           exists ("" :: plain), tail. split; [simpl; now rewrite Hlen|].
           simpl. rewrite <- Hd. now rewrite <- Ht'.
      * destruct (IH (Some c) O) as (plain & tail & Hlen & Hd).
        rewrite drop_0 in Hd.
        remember (scan icase r (Some c) t O) as ms.
        destruct (weave_cons c plain ms tail Hlen) as (plain' & tail' & Hlen' & Hw').
        exists plain', tail'. split; [exact Hlen'|].
        rewrite <- Hw'. now rewrite <- Hd.
    + simpl. apply IH.
Qed.

(** X16: the values one detector reports lie in the text one after the
    other, in the order in which they are reported, without overlap. *)
Theorem detector_matches_are_disjoint
    (content : string) (entry : pattern * Ty.t * string) :
  exists plain tail,
    length plain = length (detect content entry)
    /\ content = weave plain (map text_of (detect content entry)) tail.
Proof.
  destruct entry as [[p type] severity]. unfold detect.
  rewrite List.length_map, List.map_map. simpl. rewrite List.map_id.
  unfold matches_of, String_match.
  destruct (scan_weave (ignoreCase p) (expr p) content None O)
    as (plain & tail & Hlen & Hd).
  rewrite drop_0 in Hd.
  destruct (scan _ _ _ _ _) as [|m l] eqn:E.
  - exists [], content. split; reflexivity.
  - exists plain, tail. split; assumption.
Qed.

(** ** The cache key of the content processor *)

Section Hash.

Import ContentProcessor.

Lemma toInt32_spec (z : Z) :
  exists k, toInt32 z = z + 4294967296 * k
            /\ -2147483648 <= toInt32 z < 2147483648.
Proof.
  unfold toInt32. change (2 ^ 32) with 4294967296. change (2 ^ 31) with 2147483648.
  pose proof (Z.div_mod (z + 2147483648) 4294967296 ltac:(lia)) as D.
  pose proof (Z.mod_pos_bound (z + 2147483648) 4294967296 ltac:(lia)) as B.
  exists (- ((z + 2147483648) / 4294967296)). lia.
Qed.

Lemma toInt32_shift (z k : Z) : toInt32 (z + 4294967296 * k) = toInt32 z.
Proof.
  unfold toInt32. change (2 ^ 32) with 4294967296.
  replace (z + 4294967296 * k + 2 ^ 31) with (z + 2 ^ 31 + k * 4294967296) by lia.
  now rewrite Z_mod_plus_full.
Qed.

(** One turn of the loop is [31 * hash + char], brought back to 32
    bits. *)
Lemma hash_step (h h' c k : Z) :
  h = h' + 4294967296 * k ->
  band (shl h 5 - h + c) (shl h 5 - h + c) = toInt32 (31 * h' + c).
Proof.
  intros ->. unfold band. rewrite Z.land_diag. unfold shl.
  rewrite Z.shiftl_mul_pow2 by lia. change (2 ^ 5) with 32.
  destruct (toInt32_spec (h' + 4294967296 * k)) as (k1 & E1 & _).
  destruct (toInt32_spec (toInt32 (h' + 4294967296 * k) * 32)) as (k2 & E2 & _).
  rewrite E2, E1.
  rewrite <- (toInt32_shift (31 * h' + c) (32 * k + 32 * k1 + k2 - k)).
  f_equal. lia.
Qed.

Lemma hashContent_loop_spec (content : string) :
  forall h h' k,
    h = h' + 4294967296 * k -> content <> "" ->
    hashContent_loop content h = toInt32 (polynomial content h').
Proof.
  induction content as [|c rest IH]; intros h h' k Hk Hne; [congruence|].
  cbn [hashContent_loop polynomial]. cbv zeta.
  rewrite (hash_step h h' (charCode c) k Hk).
  destruct rest as [|c' rest]; [reflexivity|].
  destruct (toInt32_spec (31 * h' + charCode c)) as (k1 & E1 & _).
  apply (IH _ _ k1); [exact E1 | discriminate].
Qed.

Lemma hexDigit_spec (d : Z) :
  0 <= d < 16 -> hexValue (hexDigit d) = d /\ is_hex (hexDigit d) = true.
Proof.
  intros H.
  assert (E : d = 0 \/ d = 1 \/ d = 2 \/ d = 3 \/ d = 4 \/ d = 5 \/ d = 6 \/ d = 7
              \/ d = 8 \/ d = 9 \/ d = 10 \/ d = 11 \/ d = 12 \/ d = 13 \/ d = 14
              \/ d = 15) by lia.
  repeat (destruct E as [->|E]; [vm_compute; split; reflexivity|]).
  subst. vm_compute. split; reflexivity.
Qed.

Lemma hexNumber_snoc (ds : string) (c : ascii) :
  hexNumber (ds ++ String c "") = 16 * hexNumber ds + hexValue c.
Proof.
  unfold hexNumber.
  assert (G : forall v,
             fold_left (fun v c => 16 * v + hexValue c)
                       (list_ascii_of_string (ds ++ String c "")) v
             = 16 * fold_left (fun v c => 16 * v + hexValue c)
                              (list_ascii_of_string ds) v + hexValue c).
  { induction ds as [|x ds IH]; intros v; simpl; [reflexivity | apply IH]. }
  apply G.
Qed.

Lemma toString16_digits_S (fuel : nat) (n : Z) (acc : string) :
  toString16_digits (S fuel) n acc =
  if n / 16 =? 0 then String (hexDigit (n mod 16)) acc
  else toString16_digits fuel (n / 16) (String (hexDigit (n mod 16)) acc).
Proof. reflexivity. Qed.

(** The numeral denotes the number, has no more digits than the number
    needs, and is made of lower case digits of base 16. *)
Lemma toString16_digits_spec (fuel : nat) :
  forall n acc,
    0 <= n < 16 ^ Z.of_nat (S fuel) ->
    exists ds,
      toString16_digits (S fuel) n acc = ds ++ acc
      /\ hexNumber ds = n
      /\ all_chars is_hex ds = true
      /\ (1 <= String.length ds)%nat
      /\ forall k, (1 <= k)%nat -> n < 16 ^ Z.of_nat k -> (String.length ds <= k)%nat.
Proof.
  induction fuel as [|fuel IH]; intros n acc Hn.
  - change (16 ^ Z.of_nat 1) with 16 in Hn.
    rewrite toString16_digits_S.
    rewrite (Z.div_small n 16), (Z.mod_small n 16) by lia. simpl.
    destruct (hexDigit_spec n Hn) as [Hv Hh].
    exists (String (hexDigit n) ""). repeat split.
    + unfold hexNumber. simpl. lia.
    + simpl. now rewrite Hh.
    + simpl. lia.
    + intros k Hk _. simpl. lia.
  - pose proof (Z.div_mod n 16 ltac:(lia)) as D.
    pose proof (Z.mod_pos_bound n 16 ltac:(lia)) as B.
    destruct (hexDigit_spec (n mod 16) B) as [Hv Hh].
    rewrite toString16_digits_S.
    destruct (Z.eqb_spec (n / 16) 0) as [E|E].
    + exists (String (hexDigit (n mod 16)) ""). repeat split.
      * unfold hexNumber. simpl. lia.
      * simpl. now rewrite Hh.
      * simpl. lia.
      * intros k Hk _. simpl. lia.
    + assert (Hq : 0 <= n / 16 < 16 ^ Z.of_nat (S fuel)).
      { rewrite (Nat2Z.inj_succ (S fuel)), Z.pow_succ_r in Hn by lia.
        split; [apply Z.div_pos; lia | apply Z.div_lt_upper_bound; lia]. }
      destruct (IH (n / 16) (String (hexDigit (n mod 16)) acc) Hq)
        as (ds & Hds & Hval & Hall & Hlen & Hmin).
      exists (ds ++ String (hexDigit (n mod 16)) ""). repeat split.
      * rewrite Hds. now rewrite app_assoc.
      * rewrite hexNumber_snoc, Hval, Hv. lia.
      * rewrite all_chars_app, Hall. simpl. now rewrite Hh.
      * rewrite length_app. simpl. lia.
      * intros k Hk Hnk. rewrite length_app. simpl.
        destruct k as [|k]; [lia|].
        destruct k as [|k]; [change (16 ^ Z.of_nat 1) with 16 in Hnk; lia|].
        specialize (Hmin (S k) ltac:(lia)).
        rewrite (Nat2Z.inj_succ (S k)), Z.pow_succ_r in Hnk by lia.
        assert (n / 16 < 16 ^ Z.of_nat (S k))
          by (apply Z.div_lt_upper_bound; lia).
        specialize (Hmin H). lia.
Qed.

Lemma toString16_spec (n : Z) :
  0 <= n ->
  hexNumber (toString16 n) = n
  /\ all_chars is_hex (toString16 n) = true
  /\ (1 <= String.length (toString16 n))%nat
  /\ forall k, (1 <= k)%nat -> n < 16 ^ Z.of_nat k ->
               (String.length (toString16 n) <= k)%nat.
Proof.
  intros Hn. unfold toString16.
  destruct (toString16_digits_spec (Z.to_nat (Z.log2 n)) n "")
    as (ds & Hds & H).
  - split; [exact Hn|].
    destruct (Z.eq_dec n 0) as [->|Hne]; [reflexivity|].
    pose proof (Z.log2_spec n ltac:(lia)) as [_ Hup].
    pose proof (Z.log2_nonneg n) as Hl.
    rewrite Nat2Z.inj_succ, Z2Nat.id by lia.
    eapply Z.lt_le_trans; [exact Hup|].
    apply Z.pow_le_mono_l. lia.
  - rewrite Hds, app_empty_r. exact H.
Qed.

(** X17: the key of a content is the numeral, in lower case digits of base
    16, of the absolute value of the 32-bit signed hash of base 31 of its
    character codes; it has one to eight digits, so that the cut at eight
    characters removes nothing, and it denotes that absolute value. *)
Theorem hashContent_is_hex_of_hash31 (content : string) :
  let h := toInt32 (polynomial content 0) in
  hashContent content = toString16 (Z.abs h)
  /\ hexNumber (hashContent content) = Z.abs h
  /\ all_chars is_hex (hashContent content) = true
  /\ (1 <= String.length (hashContent content) <= 8)%nat.
Proof.
  intros h.
  assert (Hloop : hashContent_loop content 0 = h).
  { destruct content as [|c rest]; [reflexivity|].
    apply (hashContent_loop_spec _ 0 0 0); [reflexivity | discriminate]. }
  destruct (toInt32_spec (polynomial content 0)) as (k & _ & Hrange).
  fold h in Hrange.
  destruct (toString16_spec (Z.abs h) (Z.abs_nonneg h)) as (Hval & Hall & Hlen & Hmin).
  assert (H8 : (String.length (toString16 (Z.abs h)) <= 8)%nat).
  { apply Hmin; [lia|]. change (16 ^ Z.of_nat 8) with 4294967296. lia. }
  assert (E : hashContent content = toString16 (Z.abs h)).
  { unfold hashContent. rewrite Hloop. cbv zeta.
    rewrite substring_0 by lia. apply take_all. simpl. lia. }
  rewrite E. repeat split; auto.
Qed.

End Hash.

(** ** The limits of the platforms *)

Section Limits.

Import ContentProcessor.

Variable inherited : string -> bool.

Lemma maxLength_limit (platform : string) :
  inherited platform = false ->
  maxLength inherited platform = Some (textLimit platform).
Proof.
  intros H. unfold maxLength, maxLengths, textLimit.
  destruct (String.eqb platform "linkedin") eqn:E1.
  - apply String.eqb_eq in E1. subst. reflexivity.
  - destruct (String.eqb platform "twitter"); [reflexivity|].
    destruct (String.eqb platform "medium"); [reflexivity|].
    now rewrite H.
Qed.

Lemma textLimit_min (platform : string) : 280 <= textLimit platform.
Proof.
  unfold textLimit. destruct (String.eqb platform "twitter"); [lia|].
  destruct (String.eqb platform "medium"); lia.
Qed.

(** X18: for a platform whose name is not one every object inherits, the
    text that comes out of [validateContent] is never longer than the
    limit of the platform (280 for twitter, 50000 for medium, 3000 for
    any other): a text within the limit is kept, a longer one is cut to
    the limit and ends in "..."; the three required fields are filled. *)
Theorem validateContent_enforces_limit (content : Adapted.t) (platform t : string) :
  inherited platform = false ->
  Adapted.text content = Some t ->
  let r := validateContent inherited content platform in
  exists t',
    Adapted.text r = Some t'
    /\ len t' <= textLimit platform
    /\ (len t <= textLimit platform -> t' = t)
    /\ (textLimit platform < len t ->
        len t' = textLimit platform
        /\ t' = take (Z.to_nat (textLimit platform - 3)) t ++ "...")
    /\ Adapted.hashtags r <> None
    /\ nonempty (Adapted.callToAction r) <> None
    /\ nonempty (Adapted.estimatedEngagement r) <> None.
Proof.
  intros Hinh Ht r. unfold r, validateContent.
  rewrite (maxLength_limit platform Hinh), Ht. cbv zeta.
  pose proof (textLimit_min platform) as Hmin.
  pose proof (len_nonneg t) as Hlen.
  assert (Hfields :
    Some (orElse (Adapted.hashtags content) ["AI"; "Technology"]) <> None
    /\ nonempty (Some (orElse (nonempty (Adapted.callToAction content))
                         "What are your thoughts?")) <> None
    /\ nonempty (Some (orElse (nonempty (Adapted.estimatedEngagement content))
                         "medium")) <> None).
  { repeat split; try discriminate.
    - destruct (Adapted.callToAction content) as [[|c s]|]; simpl; discriminate.
    - destruct (Adapted.estimatedEngagement content) as [[|c s]|]; simpl; discriminate. }
  destruct t as [|c t0] eqn:Et.
  - exists "". simpl. repeat split; try tauto; try reflexivity;
      intros; unfold len in *; simpl in *; lia.
  - rewrite <- Et in *. assert (Hne : nonempty (Some t) = Some t) by (now subst).
    rewrite Hne. cbn [Adapted.text Adapted.hashtags Adapted.callToAction
                        Adapted.estimatedEngagement].
    destruct (Z.ltb_spec (textLimit platform) (len t)) as [Hlong|Hshort].
    + exists (substring t 0 (textLimit platform - 3) ++ "...").
      rewrite substring_0 by lia.
      assert (Hcut : len (take (Z.to_nat (textLimit platform - 3)) t ++ "...")
                     = textLimit platform).
      { rewrite len_app. unfold len at 1. rewrite take_length.
        unfold len in *. simpl. lia. }
      repeat split; try tauto; try lia.
    + exists t. repeat split; try tauto; lia.
Qed.

(** X19: for a name every object inherits, no limit is enforced: the text
    is left as it is, however long. *)
Theorem validateContent_inherited_name (content : Adapted.t) (platform : string) :
  inherited platform = true ->
  platform <> "linkedin" -> platform <> "twitter" -> platform <> "medium" ->
  Adapted.text (validateContent inherited content platform) = Adapted.text content.
Proof.
  intros Hinh H1 H2 H3. unfold validateContent, maxLength, maxLengths.
  apply String.eqb_neq in H1, H2, H3. rewrite H1, H2, H3, Hinh. simpl.
  now destruct (nonempty (Adapted.text content)).
Qed.

End Limits.

Lemma validateContent_enforces_limit_witness :
  let content := ContentProcessor.Adapted.Build (Some "A thought") None None None in
  let r := ContentProcessor.validateContent inheritedName content "twitter" in
  exists t',
    ContentProcessor.Adapted.text r = Some t'
    /\ len t' <= textLimit "twitter"
    /\ (len "A thought" <= textLimit "twitter" -> t' = "A thought")
    /\ (textLimit "twitter" < len "A thought" ->
        len t' = textLimit "twitter"
        /\ t' = take (Z.to_nat (textLimit "twitter" - 3)) "A thought" ++ "...")
    /\ ContentProcessor.Adapted.hashtags r <> None
    /\ ContentProcessor.nonempty (ContentProcessor.Adapted.callToAction r) <> None
    /\ ContentProcessor.nonempty (ContentProcessor.Adapted.estimatedEngagement r) <> None.
Proof.
  apply (validateContent_enforces_limit inheritedName
           (ContentProcessor.Adapted.Build (Some "A thought") None None None) "twitter" "A thought").
  - vm_compute. reflexivity.
  - reflexivity.
Defined.

Lemma validateContent_inherited_name_witness :
  let content := ContentProcessor.Adapted.Build (Some "A thought") None None None in
  ContentProcessor.Adapted.text (ContentProcessor.validateContent inheritedName content "constructor")
  = ContentProcessor.Adapted.text content.
Proof.
  apply (validateContent_inherited_name inheritedName
           (ContentProcessor.Adapted.Build (Some "A thought") None None None) "constructor").
  - vm_compute. reflexivity.
  - discriminate.
  - discriminate.
  - discriminate.
Defined.

End Extras.
